(** * VoiceFix channel linker: the relay engine of [voicefix/cog.py]

    A shallow embedding of [VoiceFixCog]: the link index, the webhook
    cache, the two message-correlation caches and the four event
    listeners, together with [reload_links], [fetch_webhook_for],
    [cog_load] and the commands of the [linker] group.

    Python dictionaries are [gmap]s, tuples and lists are [list]s, the
    two [FIFOCache]s are insertion-ordered association lists.  Every
    awaited call that leaves the process (Discord, the database) goes
    through the [Platform] interface, threads an abstract world and is
    recorded in a call log, so that statements about "what was posted"
    are statements about that log. *)

From stdpp Require Import gmap strings list fin_maps.
From Stdlib Require Import ZArith Lia.
From stdpp Require Import pretty sorting.

Open Scope Z_scope.

(** ** Exceptions *)

(** The exceptions the listeners can meet.  [NotFound] and [Forbidden]
    are subclasses of discord's [HTTPException]; [KeyError] and
    [ValueError] are the builtins; [StorageError] stands for whatever
    the database layer raises. *)
Inductive exn : Type :=
  | NotFound
  | Forbidden
  | HTTPException
  | KeyError
  | ValueError
  | StorageError.

(** [except discord.NotFound] *)
Definition is_NotFound (e : exn) : bool :=
  match e with NotFound => true | _ => false end.

(** [except discord.HTTPException] *)
Definition is_HTTPException (e : exn) : bool :=
  match e with
  | NotFound | Forbidden | HTTPException => true
  | _ => false
  end.

Inductive Res (A : Type) : Type :=
  | Ok (a : A)
  | Raise (e : exn).
Arguments Ok {A} a.
Arguments Raise {A} e.

Definition is_Ok {A} (r : Res A) : bool :=
  match r with Ok _ => true | Raise _ => false end.

(** ** Platform objects, with the fields the cog touches *)

Record Asset := { url : string }.

Record Author := {
  display_name : string;
  avatar : option Asset;
  default_avatar : Asset
}.

Record Embed := {
  embed_type : string;
  embed_description : string
}.

Record Reference := { jump_url : string }.

Record Attachment := {
  attachment_id : Z;
  is_spoiler : bool
}.

Record File := {
  file_source : Z;
  file_spoiler : bool
}.

Record Message := {
  msg_id : Z;
  msg_channel_id : Z;
  msg_webhook_id : option Z;
  msg_content : string;
  msg_author : Author;
  msg_attachments : list Attachment;
  msg_embeds : list Embed;
  msg_reference : option Reference
}.

Record Webhook := {
  hook_id : Z;
  hook_token : string
}.

Definition Emoji := string.

(** [discord.Reaction]: one emoji on one message; [count] is the number
    of times this emoji has been used to react on that message. *)
Record Reaction := {
  reaction_message : Message;
  reaction_emoji : Emoji;
  reaction_count : Z
}.

(** What [hook.send] is given ([wait=True] and
    [allowed_mentions=AllowedMentions.none()] are constants). *)
Record Payload := {
  p_content : string;
  p_username : string;
  p_avatar_url : string;
  p_embeds : list Embed;
  p_files : list File
}.

(** A row of the [channel_links] table and of [channel_webhooks]. *)
Record LinkRecord := { linkid : Z; channelid : Z }.
Record HookRow := { row_webhookid : Z; row_token : string }.

(** Python truthiness of an optional integer, of an integer, of a list. *)
Definition truthy_opt (o : option Z) : bool :=
  match o with Some n => negb (n =? 0) | None => false end.

Definition truthy_list {A} (l : list A) : bool :=
  match l with [] => false | _ => true end.

(** ** The correlation cache *)

Module FIFOCache.

(** Modelled from the spec: the class [FIFOCache] that [cog.py] imports
    from [cachetools] is not under src/.  Section 4.3 and the design
    notes describe it: a fixed-capacity map that evicts strictly in
    insertion order, oldest first, on insertion of a new key into a full
    cache.  The model keeps the entries in insertion order, oldest at
    the head; every entry has size one. *)
Record t (V : Type) := mk { maxsize : nat; items : list (Z * V) }.
Arguments mk {V} maxsize items.
Arguments maxsize {V} _.
Arguments items {V} _.

Section Ops.
Context {V : Type}.

(** [FIFOCache(maxsize=n)] *)
Definition create (n : nat) : t V := mk n [].

Fixpoint assoc (k : Z) (l : list (Z * V)) : option V :=
  match l with
  | [] => None
  | (k', v) :: l' => if k' =? k then Some v else assoc k l'
  end.

(** [cache.get(key, None)] *)
Definition get (c : t V) (k : Z) : option V := assoc k (items c).

(** [key in cache] *)
Definition contains (c : t V) (k : Z) : bool :=
  match get c k with Some _ => true | None => false end.

Definition keys (c : t V) : list Z := (items c).*1.

Definition remove_key (k : Z) (l : list (Z * V)) : list (Z * V) :=
  filter (λ p, p.1 ≠ k) l.

(** [del cache[key]] *)
Definition delitem (c : t V) (k : Z) : t V :=
  mk (maxsize c) (remove_key k (items c)).

(** [cache.pop(key, default)] *)
Definition pop (c : t V) (k : Z) (default : V) : V * t V :=
  match get c k with
  | Some v => (v, delitem c k)
  | None => (default, c)
  end.

(** Modelled from the spec: making room for one more entry, the
    entries inserted first go first, until the new entry fits
    ([while currsize + 1 > maxsize: popitem()]). *)
Fixpoint evict (n : nat) (l : list (Z * V)) : list (Z * V) :=
  match l with
  | [] => []
  | _ :: l' => if decide (n < length l + 1)%nat then evict n l' else l
  end.

(** Modelled from the spec: [cache[key] = value].  An entry larger than
    the whole cache is refused; a new key makes room first; the key
    then sits at the young end of the order. *)
Definition setitem (c : t V) (k : Z) (v : V) : Res (t V) :=
  if decide (maxsize c < 1)%nat then Raise ValueError
  else
    let data := if contains c k then items c else evict (maxsize c) (items c) in
    Ok (mk (maxsize c) (remove_key k data ++ [(k, v)])).

End Ops.
End FIFOCache.

(** ** The cog's state *)

Definition Copy : Type := Z * Message.

Record Engine := {
  link_channels : gmap Z (list Z);
  channel_links : gmap Z (list Z);
  hooks : gmap Z Webhook;
  message_cache : FIFOCache.t (list Copy);
  wmessages : FIFOCache.t Z
}.

(** [VoiceFixCog.__init__] *)
Definition init : Engine := {|
  link_channels := ∅;
  channel_links := ∅;
  hooks := ∅;
  message_cache := FIFOCache.create 200;
  wmessages := FIFOCache.create 600
|}.

Definition set_message_cache (c : FIFOCache.t (list Copy)) (s : Engine) : Engine :=
  {| link_channels := link_channels s; channel_links := channel_links s;
     hooks := hooks s; message_cache := c; wmessages := wmessages s |}.

Definition set_wmessages (c : FIFOCache.t Z) (s : Engine) : Engine :=
  {| link_channels := link_channels s; channel_links := channel_links s;
     hooks := hooks s; message_cache := message_cache s; wmessages := c |}.

Definition set_hooks (h : gmap Z Webhook) (s : Engine) : Engine :=
  {| link_channels := link_channels s; channel_links := channel_links s;
     hooks := h; message_cache := message_cache s; wmessages := wmessages s |}.

Definition set_links (cl lc : gmap Z (list Z)) (s : Engine) : Engine :=
  {| link_channels := lc; channel_links := cl;
     hooks := hooks s; message_cache := message_cache s; wmessages := wmessages s |}.

(** ** Outbound calls *)

Inductive Call : Type :=
  | CallToFile (a : Attachment) (spoiler : bool)
  | CallSend (channel : Z) (hook : Webhook) (p : Payload)
  | CallEdit (m : Message) (content : string) (embeds : list Embed)
  | CallDelete (m : Message)
  | CallAddReaction (m : Message) (e : Emoji)
  | CallSelectLinks
  | CallFetchHooks (channels : list Z)
  | CallFetchHook (channel : Z)
  | CallCreateWebhook (channel : Z) (name : string)
  | CallCreateHookRow (channel : Z) (webhookid : Z) (token : string).

(** One log entry: the call and whether it returned normally. *)
Record Entry := { entry_call : Call; entry_ok : bool }.

(** The messaging platform and the durable store, as the cog sees
    them: each operation answers from, and moves, a world [W]. *)
Class Platform (W : Type) := {
  attachment_to_file : Attachment → bool → W → Res File * W;
  webhook_send : Webhook → Payload → W → Res Message * W;
  message_edit : Message → string → list Embed → W → Res Message * W;
  message_delete : Message → W → Res unit * W;
  message_add_reaction : Message → Emoji → W → Res unit * W;
  select_channel_links : W → Res (list LinkRecord) * W;
  linkhook_fetch_where : list Z → W → Res unit * W;
  linkhook_fetch : Z → W → Res (option HookRow) * W;
  bot_get_channel : Z → W → option Z;
  channel_create_webhook : Z → string → W → Res Webhook * W;
  linkhook_create : Z → Z → string → W → Res unit * W
}.

(** ** The monad of the listeners: cog state, world, call log; an
    exception keeps every effect made before it. *)

Record St (W : Type) := mkSt { eng : Engine; world : W; log : list Entry }.
Arguments mkSt {W} eng world log.
Arguments eng {W} _.
Arguments world {W} _.
Arguments log {W} _.

Definition M (W A : Type) : Type := St W → Res A * St W.

Definition ret {W A} (a : A) : M W A := λ st, (Ok a, st).

Definition bind {W A B} (m : M W A) (f : A → M W B) : M W B :=
  λ st, match m st with
        | (Ok a, st') => f a st'
        | (Raise e, st') => (Raise e, st')
        end.

Definition raise {W A} (e : exn) : M W A := λ st, (Raise e, st).

Notation "'let*' x ':=' m 'in' k" := (bind m (λ x, k))
  (at level 10, x pattern, m at level 100, k at level 200).
Notation "m '>>' k" := (bind m (λ _, k))
  (at level 100, k at level 200, right associativity).

(** [try: m except <class>: h] *)
Definition try_except {W A} (m : M W A) (catches : exn → bool) (h : M W A) : M W A :=
  λ st, match m st with
        | (Raise e, st') => if catches e then h st' else (Raise e, st')
        | r => r
        end.

Definition get_engine {W} : M W Engine := λ st, (Ok (eng st), st).

Definition modify_engine {W} (f : Engine → Engine) : M W unit :=
  λ st, (Ok tt, mkSt (f (eng st)) (world st) (log st)).

Definition lift_res {W A} (r : Res A) : M W A := λ st, (r, st).

(** An awaited outbound call. *)
Definition call {W A} (c : Call) (op : W → Res A * W) : M W A :=
  λ st, let '(r, w) := op (world st) in
        (r, mkSt (eng st) w (log st ++ [{| entry_call := c; entry_ok := is_Ok r |}])).

(** A [for] loop carrying local variables. *)
Fixpoint foldM {W A B} (f : A → B → M W A) (a : A) (l : list B) : M W A :=
  match l with
  | [] => ret a
  | x :: l' => let* a' := f a x in foldM f a' l'
  end.

(** [d[k]] on a dictionary. *)
Definition getitem {W V} (d : gmap Z V) (k : Z) : M W V :=
  match d !! k with Some v => ret v | None => raise KeyError end.

(** ** Sets

    A Python [set] is kept as the sequence of its [add] calls.  The
    order in which [tuple(s)] lists a set is that of the hash table of
    the interpreter; it is taken as given, with what holds of every
    order: the elements that were added, each once. *)
Class SetOrder := {
  tuple_of : list Z → list Z;
  tuple_of_NoDup : ∀ adds, NoDup (tuple_of adds);
  tuple_of_elem : ∀ adds x, x ∈ tuple_of adds ↔ x ∈ adds
}.

(** ** The cog *)

Section Cog.
Context {W : Type} `{Platform W} `{SetOrder}.

(** [prepare_attachments]: an attachment whose download fails with an
    [HTTPException] is left out. *)
Definition prepare_attachments (attachments : list Attachment) : M W (list File) :=
  foldM (λ results attach,
           try_except
             (let* as_file := call (CallToFile attach (is_spoiler attach))
                                (attachment_to_file attach (is_spoiler attach)) in
              ret (results ++ [as_file]))
             is_HTTPException
             (ret results))
        [] attachments.

(** [prepare_embeds]: the rich embeds, then one embed naming the message
    replied to. *)
Definition prepare_embeds (message : Message) : list Embed :=
  let embeds := filter (λ embed, embed_type embed = "rich") (msg_embeds message) in
  match msg_reference message with
  | Some reference =>
      embeds ++ [{| embed_type := "rich";
                    embed_description := "Reply to " +:+ jump_url reference |}]
  | None => embeds
  end.

(** [self.wmessages[k] = v] and [self.message_cache[k] = v] *)
Definition wmessages_setitem (k v : Z) : M W unit :=
  let* s := get_engine in
  let* c := lift_res (FIFOCache.setitem (wmessages s) k v) in
  modify_engine (set_wmessages c).

Definition message_cache_setitem (k : Z) (v : list Copy) : M W unit :=
  let* s := get_engine in
  let* c := lift_res (FIFOCache.setitem (message_cache s) k v) in
  modify_engine (set_message_cache c).

(** [self.message_cache.pop(k, ())] *)
Definition message_cache_pop (k : Z) : M W (list Copy) :=
  let* s := get_engine in
  let '(v, c) := FIFOCache.pop (message_cache s) k [] in
  modify_engine (set_message_cache c) >> ret v.

(** The body of the inner loop of [on_message], for one member channel. *)
Definition forward_to (message : Message) (sent : list Copy) (channelid : Z)
  : M W (list Copy) :=
  if decide (channelid ≠ msg_channel_id message) then
    let* files := (if truthy_list (msg_attachments message)
                   then prepare_attachments (msg_attachments message)
                   else ret []) in
    let* s := get_engine in
    let* hook := getitem (hooks s) channelid in
    let avatar := default (default_avatar (msg_author message))
                          (avatar (msg_author message)) in
    let payload := {| p_content := msg_content message;
                      p_username := display_name (msg_author message);
                      p_avatar_url := url avatar;
                      p_embeds := prepare_embeds message;
                      p_files := files |} in
    let* msg := call (CallSend channelid hook payload) (webhook_send hook payload) in
    wmessages_setitem (msg_id msg) (msg_id message) >>
    ret (sent ++ [(channelid, msg)])
  else ret sent.

(** The listener for new messages. *)
Definition on_message (message : Message) : M W unit :=
  if truthy_opt (msg_webhook_id message) then ret tt
  else
    let* s := get_engine in
    let linkids := default [] (channel_links s !! msg_channel_id message) in
    if truthy_list linkids then
      let* sent :=
        foldM (λ sent linkid,
                 let* s := get_engine in
                 let* channelids := getitem (link_channels s) linkid in
                 foldM (forward_to message) sent channelids)
              [] linkids in
      if truthy_list sent then
        wmessages_setitem (msg_id message) (msg_id message) >>
        message_cache_setitem (msg_id message)
          (sent ++ [(msg_channel_id message, message)])
      else ret tt
    else ret tt.

(** The body of the loop of [on_message_edit], for one cached copy. *)
Definition edit_copy (before after : Message) (new_sent : list Copy) (c : Copy)
  : M W (list Copy) :=
  let '(cid, msg) := c in
  try_except
    (let* msg' := (if decide (msg_id msg ≠ msg_id before)
                   then call (CallEdit msg (msg_content after) (prepare_embeds after))
                             (message_edit msg (msg_content after) (prepare_embeds after))
                   else ret msg) in
     ret (new_sent ++ [(cid, msg')]))
    is_NotFound
    (ret new_sent).

(** The listener for edits. *)
Definition on_message_edit (before after : Message) : M W unit :=
  let* cached_sent := message_cache_pop (msg_id before) in
  let* new_sent := foldM (edit_copy before after) [] cached_sent in
  if truthy_list new_sent then message_cache_setitem (msg_id after) new_sent
  else ret tt.

(** The body of the loop of [on_message_delete]. *)
Definition delete_copy (message : Message) (_ : unit) (c : Copy) : M W unit :=
  try_except
    (if decide (msg_id c.2 ≠ msg_id message)
     then call (CallDelete c.2) (message_delete c.2)
     else ret tt)
    is_NotFound
    (ret tt).

(** The listener for deletions. *)
Definition on_message_delete (message : Message) : M W unit :=
  let* s := get_engine in
  let origid := FIFOCache.get (wmessages s) (msg_id message) in
  if truthy_opt origid then
    let* cached_sent := message_cache_pop (default 0 origid) in
    foldM (delete_copy message) tt cached_sent
  else ret tt.

(** The body of the loop of [on_reaction_add]. *)
Definition react_copy (message : Message) (emoji : Emoji) (_ : unit) (c : Copy)
  : M W unit :=
  try_except
    (if decide (msg_id c.2 ≠ msg_id message)
     then call (CallAddReaction c.2 emoji) (message_add_reaction c.2 emoji)
     else ret tt)
    is_HTTPException
    (ret tt).

(** The listener for added reactions ([user] is not used). *)
Definition on_reaction_add (reaction : Reaction) (user : Z) : M W unit :=
  let message := reaction_message reaction in
  let emoji := reaction_emoji reaction in
  let* s := get_engine in
  let origid := FIFOCache.get (wmessages s) (msg_id message) in
  if truthy_opt origid && (reaction_count reaction =? 1) then
    let cached_sent := default [] (FIFOCache.get (message_cache s) (default 0 origid)) in
    foldM (react_copy message emoji) tt cached_sent
  else ret tt.

(** [self.hooks[channelid] = hook] *)
Definition hooks_setitem (channelid : Z) (hook : Webhook) : M W unit :=
  modify_engine (λ s, set_hooks (<[channelid := hook]> (hooks s)) s).

Definition get_world : M W W := λ st, (Ok (world st), st).

(** [fetch_webhook_for]: the cached hook, else the stored one, else a
    newly created one. *)
Definition fetch_webhook_for (channelid : Z) : M W Webhook :=
  let* s := get_engine in
  match hooks s !! channelid with
  | Some hook => ret hook
  | None =>
      let* row := call (CallFetchHook channelid) (linkhook_fetch channelid) in
      let* hook :=
        match row with
        | None =>
            let* w := get_world in
            match bot_get_channel channelid w with
            | None => raise ValueError
            | Some channel =>
                let* hook := call (CallCreateWebhook channel "LabRat Channel Link")
                                  (channel_create_webhook channel "LabRat Channel Link") in
                call (CallCreateHookRow channelid (hook_id hook) (hook_token hook))
                     (linkhook_create channelid (hook_id hook) (hook_token hook)) >>
                ret hook
            end
        | Some row =>
            ret {| hook_id := row_webhookid row; hook_token := row_token row |}
        end in
      hooks_setitem channelid hook >> ret hook
  end.

(** [d[k].add(v)] on a [defaultdict(set)] *)
Definition add_to (k v : Z) (d : gmap Z (list Z)) : gmap Z (list Z) :=
  <[k := default [] (d !! k) ++ [v]]> d.

(** The keys of a dictionary filled in this order, in insertion order. *)
Definition keys_in_order (ks : list Z) : list Z :=
  foldl (λ acc k, if decide (k ∈ acc) then acc else acc ++ [k]) [] ks.

(** [reload_links]: the two maps are assigned last, each set as the
    tuple of its elements. *)
Definition reload_links : M W unit :=
  let* records := call CallSelectLinks select_channel_links in
  let channel_links :=
    foldl (λ d record, add_to (channelid record) (linkid record) d) ∅ records in
  let link_channels :=
    foldl (λ d record, add_to (linkid record) (channelid record) d) ∅ records in
  let channelids := keys_in_order (channelid <$> records) in
  (if truthy_list channelids
   then call (CallFetchHooks channelids) (linkhook_fetch_where channelids)
   else ret tt) >>
  foldM (λ _ channelid, fetch_webhook_for channelid >> ret tt) tt channelids >>
  modify_engine (set_links (tuple_of <$> channel_links) (tuple_of <$> link_channels)).

End Cog.

(** ** Event sequences *)

Inductive Event : Type :=
  | NewMessage (message : Message)
  | MessageEdit (before after : Message)
  | MessageDelete (message : Message)
  | ReactionAdd (reaction : Reaction) (user : Z).

Definition handle {W} `{Platform W} (ev : Event) : M W unit :=
  match ev with
  | NewMessage message => on_message message
  | MessageEdit before after => on_message_edit before after
  | MessageDelete message => on_message_delete message
  | ReactionAdd reaction user => on_reaction_add reaction user
  end.

(** The destinations of the posts in a log, and the other calls by kind. *)
Definition posted (l : list Entry) : list Z :=
  omap (λ en, match entry_call en with
              | CallSend c _ _ => if entry_ok en then Some c else None
              | _ => None
              end) l.

(** The destinations of the posts that were tried, accepted or not. *)
Definition attempted (l : list Entry) : list Z :=
  omap (λ en, match entry_call en with
              | CallSend c _ _ => Some c
              | _ => None
              end) l.

Definition edits (l : list Entry) : list (Message * string * list Embed) :=
  omap (λ en, match entry_call en with
              | CallEdit m c e => Some (m, c, e)
              | _ => None
              end) l.

Definition deletions (l : list Entry) : list Message :=
  omap (λ en, match entry_call en with
              | CallDelete m => Some m
              | _ => None
              end) l.


(** The posts in a log, with the webhook and the payload of each. *)
Definition sends (l : list Entry) : list (Z * Webhook * Payload) :=
  omap (λ en, match entry_call en with
              | CallSend c hook p => Some (c, hook, p)
              | _ => None
              end) l.

(** ** The log and the platform *)

(** What a call of the log is on the platform: whether it returns
    normally, and the world it leaves. *)
Definition outcome {W X} (r : Res X * W) : bool * W := (is_Ok r.1, r.2).

Definition perform {W} `{Platform W} (c : Call) (w : W) : bool * W :=
  match c with
  | CallToFile a spoiler => outcome (attachment_to_file a spoiler w)
  | CallSend _ hook p => outcome (webhook_send hook p w)
  | CallEdit m content embeds => outcome (message_edit m content embeds w)
  | CallDelete m => outcome (message_delete m w)
  | CallAddReaction m e => outcome (message_add_reaction m e w)
  | CallSelectLinks => outcome (select_channel_links w)
  | CallFetchHooks channels => outcome (linkhook_fetch_where channels w)
  | CallFetchHook channel => outcome (linkhook_fetch channel w)
  | CallCreateWebhook channel name => outcome (channel_create_webhook channel name w)
  | CallCreateHookRow channel webhookid token =>
      outcome (linkhook_create channel webhookid token w)
  end.

(** Makes the calls of a log again, from the world [w]: the world they
    leave, provided each of them ends as the log says. *)
Fixpoint replay {W} `{Platform W} (l : list Entry) (w : W) : option W :=
  match l with
  | [] => Some w
  | en :: l' =>
      let '(ok, w1) := perform (entry_call en) w in
      if Bool.eqb ok (entry_ok en) then replay l' w1 else None
  end.

(** Between [st] and [st'] the log is a faithful record: what was
    appended to it are calls that were made on the platform, in this
    order and with these outcomes, each from the world the one before
    had left, and nothing else moved the world. *)
Definition faithful {W} `{Platform W} (st st' : St W) : Prop :=
  ∃ l, log st' = log st ++ l ∧ replay l (world st) = Some (world st').

(** ** A small platform to run the cog on *)

Module Sim.

(** A deterministic world: fresh message ids count up from [next_id];
    a message listed in [gone] no longer exists; [store] is the
    membership table, or [None] while the database is unreachable. *)
Record World := {
  next_id : Z;
  gone : list Z;
  store : option (list LinkRecord)
}.

Definition anyone : Author :=
  {| display_name := "relay"; avatar := None; default_avatar := {| url := "" |} |}.

Definition tick (w : World) : World :=
  {| next_id := next_id w + 1; gone := gone w; store := store w |}.

Definition exists_on (w : World) (m : Message) : bool :=
  bool_decide (msg_id m ∉ gone w).

(** The platform on which a post through one of the webhooks
    [rejecting] is refused. *)
Definition platform_rejecting (rejecting : list Z) : Platform World := {|
  attachment_to_file a spoiler w :=
    (Ok {| file_source := attachment_id a; file_spoiler := spoiler |}, w);
  webhook_send h p w :=
    if bool_decide (hook_id h ∈ rejecting) then (Raise HTTPException, w)
    else (Ok {| msg_id := next_id w; msg_channel_id := hook_id h;
                msg_webhook_id := Some (hook_id h); msg_content := p_content p;
                msg_author := anyone; msg_attachments := [];
                msg_embeds := p_embeds p; msg_reference := None |}, tick w);
  message_edit m content embeds w :=
    if exists_on w m
    then (Ok {| msg_id := msg_id m; msg_channel_id := msg_channel_id m;
                msg_webhook_id := msg_webhook_id m; msg_content := content;
                msg_author := msg_author m; msg_attachments := msg_attachments m;
                msg_embeds := embeds; msg_reference := msg_reference m |}, w)
    else (Raise NotFound, w);
  message_delete m w :=
    if exists_on w m
    then (Ok tt, {| next_id := next_id w; gone := msg_id m :: gone w; store := store w |})
    else (Raise NotFound, w);
  message_add_reaction m e w :=
    if exists_on w m then (Ok tt, w) else (Raise NotFound, w);
  select_channel_links w :=
    match store w with
    | Some records => (Ok records, w)
    | None => (Raise StorageError, w)
    end;
  linkhook_fetch_where channels w :=
    match store w with
    | Some _ => (Ok tt, w)
    | None => (Raise StorageError, w)
    end;
  linkhook_fetch channel w :=
    match store w with
    | Some _ => (Ok (Some {| row_webhookid := channel; row_token := "token" |}), w)
    | None => (Raise StorageError, w)
    end;
  bot_get_channel channel w := Some channel;
  channel_create_webhook channel name w :=
    (Ok {| hook_id := channel; hook_token := "token" |}, w);
  linkhook_create channel webhookid token w := (Ok tt, w)
|}.

(** The platform on which every post is accepted. *)
#[export] Instance platform : Platform World := platform_rejecting [].

(** The order of CPython on the sets of the examples, which hold at
    most four integers between 0 and 2^61 - 2 whose remainders by 8
    differ: such a set sits in a table of eight slots, every element in
    the slot of its remainder, and is listed slot by slot. *)
Definition slot_le (x y : Z) : Prop := x mod 8 ≤ y mod 8.

#[export] Instance slot_le_dec : RelDecision slot_le :=
  λ x y, decide (x mod 8 ≤ y mod 8).

#[export] Instance by_slot : SetOrder := {|
  tuple_of adds := merge_sort slot_le (remove_dups adds);
  tuple_of_NoDup adds :=
    ltac:(rewrite merge_sort_Permutation; apply NoDup_remove_dups);
  tuple_of_elem adds x :=
    ltac:(rewrite merge_sort_Permutation; apply elem_of_remove_dups)
|}.

(** The webhook of a channel carries the channel's id. *)
Definition hook_of (c : Z) : Webhook := {| hook_id := c; hook_token := "token" |}.

Definition user_message (id channel : Z) (text : string) : Message :=
  {| msg_id := id; msg_channel_id := channel; msg_webhook_id := None;
     msg_content := text; msg_author := anyone; msg_attachments := [];
     msg_embeds := []; msg_reference := None |}.

Definition copy_of (id channel : Z) (text : string) : Message :=
  {| msg_id := id; msg_channel_id := channel; msg_webhook_id := Some channel;
     msg_content := text; msg_author := anyone; msg_attachments := [];
     msg_embeds := []; msg_reference := None |}.

Definition quiet : World :=
  {| next_id := 1000; gone := []; store := Some [] |}.

Definition offline : World :=
  {| next_id := 1000; gone := []; store := None |}.

(** One link, 7, with the channels 1, 2 and 3. *)
Definition study : Engine :=
  set_hooks {[1 := hook_of 1; 2 := hook_of 2; 3 := hook_of 3]}
    (set_links {[1 := [7]; 2 := [7]; 3 := [7]]} {[7 := [1; 2; 3]]} init).

(** Two links, 7 and 8, both with the channels 1 and 2. *)
Definition twice : Engine :=
  set_hooks {[1 := hook_of 1; 2 := hook_of 2]}
    (set_links {[1 := [7; 8]; 2 := [7; 8]]} {[7 := [1; 2]; 8 := [1; 2]]} init).

Definition start (s : Engine) (w : World) : St World := mkSt s w [].

End Sim.

(** ** Vocabulary of the statements *)

(** The member channels, other than [origin], of the links of [origin],
    link by link: a channel that two of these links share is listed
    twice. *)
Definition destinations (s : Engine) (origin : Z) : list Z :=
  concat ((λ l, filter (λ c, c ≠ origin) (default [] (link_channels s !! l)))
            <$> default [] (channel_links s !! origin)).

(** The payload [p] relays [message]: its text, the display name and
    the avatar (the default one for want of another) of its author,
    and its prepared embeds. *)
Definition relays (message : Message) (p : Payload) : Prop :=
  p_content p = msg_content message ∧
  p_username p = display_name (msg_author message) ∧
  p_avatar_url p = url (default (default_avatar (msg_author message))
                                (avatar (msg_author message))) ∧
  p_embeds p = prepare_embeds message.

(** Every post made since [st0] went through the webhook cached for
    its channel and relayed [message]. *)
Definition relayed {W} (message : Message) (st0 st : St W) : Prop :=
  ∃ l, log st = log st0 ++ l ∧
       ∀ c hook p, (c, hook, p) ∈ sends l →
                   hooks (eng st0) !! c = Some hook ∧ relays message p.

(** The invariant of the loops of [on_message]: the cached webhooks
    are those of [st0], and every post since then relayed [message]. *)
Definition posting_since {W} (message : Message) (st0 st : St W) : Prop :=
  hooks (eng st) = hooks (eng st0) ∧ relayed message st0 st.

(** The recorded copies other than [message] itself. *)
Definition others (message : Message) (copies : list Copy) : list Message :=
  filter (λ m, msg_id m ≠ msg_id message) (copies.*2).


(** The reaction event that the platform delivers when [emoji] is added
    to a message that already carries the reactions [earlier]: a
    [discord.Reaction] stands for one emoji on one message, and its
    count is the tally of that emoji alone, this reaction included. *)
Definition reaction_event (message : Message) (earlier : list Emoji) (emoji : Emoji)
  : Reaction :=
  {| reaction_message := message;
     reaction_emoji := emoji;
     reaction_count := 1 + Z.of_nat (length (filter (λ e, e = emoji) earlier)) |}.

(** The state of one cache that the handlers maintain: no key twice, and
    never more entries than the capacity, which is at least one. *)
Record cache_ok {V} (c : FIFOCache.t V) : Prop := {
  ok_keys : NoDup (FIFOCache.keys c);
  ok_size : (length (FIFOCache.items c) ≤ FIFOCache.maxsize c)%nat;
  ok_room : (1 ≤ FIFOCache.maxsize c)%nat
}.

(** Both caches are in order, and every forward entry lists its own
    origin message among its copies. *)
Record engine_ok (s : Engine) : Prop := {
  ok_forward : cache_ok (message_cache s);
  ok_reverse : cache_ok (wmessages s);
  ok_origin : ∀ o copies,
    FIFOCache.get (message_cache s) o = Some copies →
    ∃ c m, (c, m) ∈ copies ∧ msg_id m = o
}.

(** Everything but the reverse index is the same in [s'] as in [s]. *)
Definition same_index (s s' : Engine) : Prop :=
  link_channels s' = link_channels s ∧ channel_links s' = channel_links s ∧
  hooks s' = hooks s ∧ message_cache s' = message_cache s.

(** The link index is the same in [s'] as in [s]. *)
Definition same_links (s s' : Engine) : Prop :=
  link_channels s' = link_channels s ∧ channel_links s' = channel_links s.

(** The forward keys of [s] that [s'] no longer has. *)
Definition dropped (s s' : Engine) : list Z :=
  filter (λ k, FIFOCache.get (message_cache s') k = None)
         (FIFOCache.keys (message_cache s)).

(** An edit does not change the id of the message. *)
Definition keeps_id (ev : Event) : Prop :=
  match ev with
  | MessageEdit before after => msg_id before = msg_id after
  | _ => True
  end.

Section Runs.
Context {W : Type} `{Platform W}.

(** Runs the handlers over a sequence of events, as long as they return
    normally, and keeps two lists on the side: the forward keys lost
    while a new message was handled (the only removal there is the
    eviction inside the cache's insertion) and the forward keys lost
    while a deletion was handled. *)
Fixpoint run (evs : list Event) (st : St W) (evicted deleted : list Z)
  : option (St W * list Z * list Z) :=
  match evs with
  | [] => Some (st, evicted, deleted)
  | ev :: evs' =>
      match handle ev st with
      | (Ok _, st') =>
          let lost := dropped (eng st) (eng st') in
          match ev with
          | NewMessage _ => run evs' st' (evicted ++ lost) deleted
          | MessageDelete _ => run evs' st' evicted (deleted ++ lost)
          | _ => run evs' st' evicted deleted
          end
      | (Raise _, _) => None
      end
  end.

(** What section 4.4 says an edit does to the copy list, copy by copy:
    the edited message itself is kept as it is, every other copy is
    replaced by the result of editing it, and a copy that is not found
    is dropped. *)
Inductive edit_outcome (before after : Message)
  : W → list Copy → W → list Copy → Prop :=
  | edit_done w : edit_outcome before after w [] w []
  | edit_self w cid msg rest w' out :
      msg_id msg = msg_id before →
      edit_outcome before after w rest w' out →
      edit_outcome before after w ((cid, msg) :: rest) w' ((cid, msg) :: out)
  | edit_updated w cid msg msg' w1 rest w' out :
      msg_id msg ≠ msg_id before →
      message_edit msg (msg_content after) (prepare_embeds after) w = (Ok msg', w1) →
      edit_outcome before after w1 rest w' out →
      edit_outcome before after w ((cid, msg) :: rest) w' ((cid, msg') :: out)
  | edit_missing w cid msg w1 rest w' out :
      msg_id msg ≠ msg_id before →
      message_edit msg (msg_content after) (prepare_embeds after) w = (Raise NotFound, w1) →
      edit_outcome before after w1 rest w' out →
      edit_outcome before after w ((cid, msg) :: rest) w' out.

End Runs.

(** ** Scenarios *)

Module Scenario.
Import Sim.

Definition hello : Message := user_message 500 1 "hello".
Definition hello_world : Message := user_message 500 1 "hello world".
Definition copyB : Message := copy_of 1000 2 "hello".
Definition copyC : Message := copy_of 1001 3 "hello".

(** [hello] has been posted in channel 1 of [study] and mirrored. *)
Definition mirrored : St World := (on_message hello (start study quiet)).2.

(** The same, after the copy in channel 3 was deleted by hand. *)
Definition mirrored_less : St World :=
  mkSt (eng mirrored) {| next_id := 1002; gone := [1001]; store := Some [] |} (log mirrored).

(** [hello] is posted, gets two reactions, is edited and is deleted. *)
Definition story : list Event :=
  [NewMessage hello;
   ReactionAdd (reaction_event hello [] "thumbsup") 42;
   ReactionAdd (reaction_event hello ["thumbsup"] "tada") 43;
   MessageEdit hello hello_world;
   MessageDelete hello_world].

Definition story_end : St World :=
  from_option (λ r, r.1.1) (start study quiet) (run story (start study quiet) [] []).

(** A cache of capacity 2 that is full. *)
Definition full : FIFOCache.t string :=
  FIFOCache.mk 2 [(1, "first"); (2, "second")].

End Scenario.

(** ** Further vocabulary *)

(** The attachments asked of the platform one after the other, each
    with its own spoiler flag, from the world [w]: the answer to each,
    and the world that the last one leaves. *)
Fixpoint asked {W} `{Platform W} (attachments : list Attachment) (w : W)
  : list (Res File) * W :=
  match attachments with
  | [] => ([], w)
  | a :: rest =>
      let '(r, w1) := attachment_to_file a (is_spoiler a) w in
      let '(rs, w2) := asked rest w1 in
      (r :: rs, w2)
  end.

(** The files among the answers, and the log entries of the answers. *)
Definition files_of (answers : list (Res File)) : list File :=
  omap (λ r, match r with Ok file => Some file | Raise _ => None end) answers.

Definition asking (attachments : list Attachment) (answers : list (Res File))
  : list Entry :=
  zip_with (λ a r, {| entry_call := CallToFile a (is_spoiler a); entry_ok := is_Ok r |})
           attachments answers.

(** The channels for which a webhook was asked to be created. *)
Definition created (l : list Entry) : list Z :=
  omap (λ en, match entry_call en with
              | CallCreateWebhook c _ => Some c
              | _ => None
              end) l.

(** [x] is in the tuple that the dictionary [m] has under [k]. *)
Definition listed (m : gmap Z (list Z)) (k x : Z) : Prop :=
  ∃ xs, m !! k = Some xs ∧ x ∈ xs.

(** The link index is consistent: the two maps are each other's
    converse, no tuple repeats an element, and every member channel of
    every link has a cached webhook. *)
Record index_ok (s : Engine) : Prop := {
  index_converse : ∀ c l, listed (channel_links s) c l ↔ listed (link_channels s) l c;
  index_links_distinct : ∀ c ls, channel_links s !! c = Some ls → NoDup ls;
  index_channels_distinct : ∀ l cs, link_channels s !! l = Some cs → NoDup cs;
  index_hooks : ∀ l c, listed (link_channels s) l c → is_Some (hooks s !! c)
}.

(** Handles a sequence of events one after the other; an exception
    ends the listener that raised it, not the sequence. *)
Definition run_all {W} `{Platform W} (evs : list Event) (st : St W) : St W :=
  foldl (λ st ev, (handle ev st).2) st evs.

(** ** The commands of the [linker] group *)

(** A row of the [links] table. *)
Record LinkRow := { row_linkid : Z; row_name : string }.

(** What the commands read of their context. *)
Record Context := {
  ctx_interaction : bool;
  ctx_author_id : Z;
  ctx_guild_name : string
}.

Inductive Colour : Type := brand_green | red | light_grey.

Record Reply := {
  reply_colour : option Colour;
  reply_title : string;
  reply_description : string;
  reply_fields : list (string * string)
}.

Record Choice := { choice_name : string; choice_value : string }.

(** What [confirm.ask] gives: an answer, or [ResponseTimedOut]. *)
Inductive Answer : Type :=
  | Answered (result : bool)
  | ResponseTimedOut.

(** How a command ends when no call of it fails: it returns at once for
    want of an interaction, it runs to its reply, or it raises one of
    the two exceptions of its own, which nothing in the cog catches. *)
Inductive Ended : Type :=
  | NoInteraction
  | Replied
  | UserInputError (text : string)
  | SafeCancellation.

(** The calls of the commands to the store and to the interaction. *)
Inductive AdminCall : Type :=
  | DataInit
  | Defer
  | FetchLinks
  | CreateLink (name : string)
  | SelectMembers (link : Z)
  | InsertMember (link channel : Z)
  | DeleteMember (channel link : Z)
  | DeleteLink (row : LinkRow)
  | UpdateHookRow (channel webhookid : Z) (token : string)
  | AskConfirm (prompt : string) (author : Z)
  | SendReply (reply : Reply).

(** The store and the interaction, as the commands see them. *)
Class Store (W : Type) := {
  data_init : W → Res unit * W;
  response_defer : W → Res unit * W;
  link_fetch_where : W → Res (list LinkRow) * W;
  link_create : string → W → Res LinkRow * W;
  channel_links_select_where : Z → W → Res (list LinkRecord) * W;
  channel_links_insert : Z → Z → W → Res unit * W;
  channel_links_delete_where : Z → Z → W → Res unit * W;
  link_row_delete : LinkRow → W → Res unit * W;
  linkhook_row_update : Z → Z → string → W → Res unit * W;
  confirm_ask : string → Z → W → Res Answer * W;
  ctx_reply : Reply → W → Res unit * W
}.

(** The functions of Python and of the libraries that the commands
    use, taken as given: [str.lower], [str.isdigit], [int],
    [Webhook.from_url] (absent when it raises [ValueError]) and
    [bot.core.mention_cmd]. *)
Class Externals := {
  str_lower : string → string;
  str_isdigit : string → bool;
  int_of_str : string → Res Z;
  webhook_from_url : string → option Webhook;
  mention_cmd : string → string
}.

(** The world of the commands: the world of the listeners and, beside
    it, the calls of the commands so far. *)
Definition AW (W : Type) : Type := W * list AdminCall.

Definition on_world {W X} (op : W → Res X * W) : AW W → Res X * AW W :=
  λ w, let '(r, w') := op w.1 in (r, (w', w.2)).

#[export] Instance lifted (W : Type) `{Platform W} : Platform (AW W) := {|
  attachment_to_file a b := on_world (attachment_to_file a b);
  webhook_send h p := on_world (webhook_send h p);
  message_edit m c e := on_world (message_edit m c e);
  message_delete m := on_world (message_delete m);
  message_add_reaction m e := on_world (message_add_reaction m e);
  select_channel_links := on_world select_channel_links;
  linkhook_fetch_where cs := on_world (linkhook_fetch_where cs);
  linkhook_fetch c := on_world (linkhook_fetch c);
  bot_get_channel c w := bot_get_channel c w.1;
  channel_create_webhook c n := on_world (channel_create_webhook c n);
  linkhook_create c i t := on_world (linkhook_create c i t)
|}.

(** An awaited call of a command. *)
Definition admin_call {W X} (c : AdminCall) (op : W → Res X * W) : M (AW W) X :=
  λ st, let '(r, w) := op (world st).1 in
        (r, mkSt (eng st) (w, (world st).2 ++ [c]) (log st)).

Definition newline : string := String (Ascii.ascii_of_nat 10) "".

(** [channel.mention], and [f"<#{cid}>"] *)
Definition mention (c : Z) : string := "<#" +:+ pretty c +:+ ">".

(** [needle in hay] on strings *)
Fixpoint str_in (needle hay : string) : bool :=
  String.prefix needle hay ||
  match hay with
  | EmptyString => false
  | String _ hay' => str_in needle hay'
  end.

Definition truthy_string (s : string) : bool :=
  match s with EmptyString => false | _ => true end.

Section Commands.
Context {W : Type} `{Platform W} `{SetOrder} `{Store W} `{Externals}.

(** [cog_load] *)
Definition cog_load : M (AW W) unit :=
  admin_call DataInit data_init >> reload_links.

(** [next((row for row in existing if row.name.lower() == name.lower()), None)] *)
Definition find_link (existing : list LinkRow) (name : string) : option LinkRow :=
  head (filter (λ row, str_lower (row_name row) = str_lower name) existing).

(** The command [linker link]. *)
Definition linker_link (ctx : Context) (name : string)
    (channel1 channel2 channel3 channel4 channel5 : option Z)
    (channelid_text : option string) : M (AW W) Ended :=
  if negb (ctx_interaction ctx) then ret NoInteraction
  else
    admin_call Defer response_defer >>
    let* existing := admin_call FetchLinks link_fetch_where in
    let* found :=
      match find_link existing name with
      | None =>
          let* link_row := admin_call (CreateLink name) (link_create name) in
          ret (link_row, [], true)
      | Some link_row =>
          let* records := admin_call (SelectMembers (row_linkid link_row))
                            (channel_links_select_where (row_linkid link_row)) in
          ret (link_row, channelid <$> records, false)
      end in
    let '(link_row, link_channels_now, was_created) := found in
    let maybe_channels := [channel1; channel2; channel3; channel4; channel5] in
    let* maybe_channels :=
      match channelid_text with
      | Some text =>
          if truthy_string text && str_isdigit text then
            let* n := lift_res (int_of_str text) in
            let* w := get_world in
            ret (maybe_channels ++ [bot_get_channel n w])
          else ret maybe_channels
      | None => ret maybe_channels
      end in
    let channels := omap id maybe_channels in
    foldM (λ _ channel, fetch_webhook_for channel >> ret tt) tt channels >>
    foldM (λ _ channel,
             if decide (channel ∉ link_channels_now)
             then admin_call (InsertMember (row_linkid link_row) channel)
                    (channel_links_insert (row_linkid link_row) channel)
             else ret tt)
          tt channels >>
    reload_links >>
    let* embed :=
      if was_created then
        ret {| reply_colour := Some brand_green;
               reply_title := "Link Created";
               reply_description :=
                 "Created the link **" +:+ name +:+ "** and linked channels:" +:+ newline
                 +:+ String.concat ", " (mention <$> channels);
               reply_fields := [] |}
      else
        let* s := get_engine in
        let* channelids := getitem (link_channels s) (row_linkid link_row) in
        ret {| reply_colour := Some brand_green;
               reply_title := "Channels Linked";
               reply_description :=
                 "Updated the link **" +:+ row_name link_row
                 +:+ "** to link the following channels:" +:+ newline
                 +:+ String.concat ", " (mention <$> channelids);
               reply_fields := [] |} in
    admin_call (SendReply embed) (ctx_reply embed) >>
    ret Replied.

(** The command [linker unlink]. *)
Definition linker_unlink (ctx : Context) (name : string) (channel : option Z)
  : M (AW W) Ended :=
  if negb (ctx_interaction ctx) then ret NoInteraction
  else
    let* existing := admin_call FetchLinks link_fetch_where in
    match find_link existing name with
    | None => ret (UserInputError ("Link **" +:+ name +:+ "** doesn't exist!"))
    | Some link_row =>
        let* s := get_engine in
        let link_channelids := default [] (link_channels s !! row_linkid link_row) in
        let* outcome :=
          match channel with
          | Some channel =>
              if decide (channel ∉ link_channelids) then
                ret (inl (UserInputError
                            (mention channel +:+ " is not linked in **"
                             +:+ row_name link_row +:+ "**!")))
              else
                admin_call (DeleteMember channel (row_linkid link_row))
                  (channel_links_delete_where channel (row_linkid link_row)) >>
                ret (inr {| reply_colour := Some brand_green;
                            reply_title := "Channel Unlinked";
                            reply_description :=
                              mention channel +:+ " has been removed from **"
                              +:+ row_name link_row +:+ "**.";
                            reply_fields := [] |})
          | None =>
              let channels := String.concat ", " (mention <$> link_channelids) in
              let prompt :=
                "Are you sure you want to remove the link **" +:+ row_name link_row
                +:+ "**?" +:+ newline +:+ "Linked channels: " +:+ channels in
              let* answer := admin_call (AskConfirm prompt (ctx_author_id ctx))
                               (confirm_ask prompt (ctx_author_id ctx)) in
              let result := match answer with
                            | Answered result => result
                            | ResponseTimedOut => false
                            end in
              if negb result then ret (inl SafeCancellation)
              else
                let embed :=
                  {| reply_colour := Some brand_green;
                     reply_title := "Link removed";
                     reply_description :=
                       "Link **" +:+ row_name link_row
                       +:+ "** removed, the following channels were unlinked:"
                       +:+ newline +:+ channels;
                     reply_fields := [] |} in
                admin_call (DeleteLink link_row) (link_row_delete link_row) >>
                ret (inr embed)
          end in
        match outcome with
        | inl ended => ret ended
        | inr embed =>
            reload_links >>
            admin_call (SendReply embed) (ctx_reply embed) >>
            ret Replied
        end
    end.

(** The two autocompletions of the link name. *)
Definition matching_names (existing : list LinkRow) (partial : string) : list string :=
  row_name <$>
    filter (λ row, str_in (str_lower partial) (str_lower (row_name row)) = true) existing.

Definition link_choices (matching : list string) : list Choice :=
  (λ name, {| choice_name := "Link " +:+ name; choice_value := name |}) <$> matching.

Definition _acmpl_link_name (partial : string) : M (AW W) (list Choice) :=
  let* existing := admin_call FetchLinks link_fetch_where in
  let matching := matching_names existing partial in
  if negb (truthy_list matching) then
    ret [{| choice_name := "Create a new link '" +:+ partial +:+ "'";
            choice_value := partial |}]
  else ret (link_choices matching).

Definition _acmpl_unlink_name (partial : string) : M (AW W) (list Choice) :=
  let* existing := admin_call FetchLinks link_fetch_where in
  let matching := matching_names existing partial in
  if negb (truthy_list matching) then
    ret [{| choice_name := "No existing links matching '" +:+ partial +:+ "'";
            choice_value := partial |}]
  else ret (link_choices matching).

(** The command [linker links]. *)
Definition linker_links (ctx : Context) : M (AW W) Ended :=
  if negb (ctx_interaction ctx) then ret NoInteraction
  else
    admin_call Defer response_defer >>
    let* links := admin_call FetchLinks link_fetch_where in
    let* s := get_engine in
    let embed :=
      if negb (truthy_list links) then
        {| reply_colour := Some light_grey;
           reply_title := "No channel links have been set up!";
           reply_description :=
             "Create a new link and add channels with " +:+ mention_cmd "linker link";
           reply_fields := [] |}
      else
        {| reply_colour := Some brand_green;
           reply_title := "Channel Links in " +:+ ctx_guild_name ctx;
           reply_description := "";
           reply_fields :=
             (λ link,
                let channelids := default [] (link_channels s !! row_linkid link) in
                ("Link **" +:+ row_name link +:+ "**",
                 String.concat ", " (mention <$> channelids))) <$> links |} in
    admin_call (SendReply embed) (ctx_reply embed) >>
    ret Replied.

(** The command [linker webhook]. *)
Definition linker_webhook (ctx : Context) (channel : Z) (webhook : string)
  : M (AW W) Ended :=
  if negb (ctx_interaction ctx) then ret NoInteraction
  else
    match webhook_from_url webhook with
    | None => raise ValueError
    | Some hook =>
        let* existing := call (CallFetchHook channel) (linkhook_fetch channel) in
        match existing with
        | Some _ =>
            admin_call (UpdateHookRow channel (hook_id hook) (hook_token hook))
              (linkhook_row_update channel (hook_id hook) (hook_token hook))
        | None =>
            call (CallCreateHookRow channel (hook_id hook) (hook_token hook))
              (linkhook_create channel (hook_id hook) (hook_token hook))
        end >>
        hooks_setitem channel hook >>
        let text := {| reply_colour := None;
                       reply_title := "";
                       reply_description := "Webhook for " +:+ mention channel +:+ " updated!";
                       reply_fields := [] |} in
        admin_call (SendReply text) (ctx_reply text) >>
        ret Replied
    end.

End Commands.

(** The calls of the commands that change the tables. *)
Definition removals (l : list AdminCall) : list AdminCall :=
  omap (λ c, match c with
             | DeleteMember _ _ | DeleteLink _ => Some c
             | _ => None
             end) l.

Definition insertions (l : list AdminCall) : list (Z * Z) :=
  omap (λ c, match c with InsertMember link channel => Some (link, channel) | _ => None end) l.

(** The channels that [linker link] is given: its five channel
    arguments and, when the text is not empty and all digits, the
    channel of that id; those that are there, in this order. *)
Definition given_channels {W} `{Platform W} `{Externals}
    (channel1 channel2 channel3 channel4 channel5 : option Z)
    (channelid_text : option string) (w : W) : list Z :=
  omap id ([channel1; channel2; channel3; channel4; channel5] ++
           match channelid_text with
           | Some text =>
               if truthy_string text && str_isdigit text then
                 match int_of_str text with
                 | Ok n => [bot_get_channel n w]
                 | Raise _ => []
                 end
               else []
           | None => []
           end).
Arguments given_channels : simpl never.

(** ** Worlds with faults, and a world for the commands *)

Module Cases.
Import Sim.

(** What can go wrong on the platform beside a refused post: the
    download of an attachment fails outside of HTTP ([unreadable]) or
    with an [HTTPException] ([unavailable]), a message refuses every
    edit ([locked]) or its deletion ([pinned]) with [Forbidden], a
    channel has no row in the table of webhooks ([unhooked]). *)
Record Faults := {
  unreadable : list Z;
  unavailable : list Z;
  locked : list Z;
  pinned : list Z;
  unhooked : list Z
}.



Definition platform_faulty (f : Faults) : Platform World := {|
  attachment_to_file a spoiler w :=
    if bool_decide (attachment_id a ∈ unreadable f) then (Raise ValueError, w)
    else if bool_decide (attachment_id a ∈ unavailable f) then (Raise HTTPException, w)
    else (Ok {| file_source := attachment_id a; file_spoiler := spoiler |}, w);
  webhook_send := webhook_send (Platform := Sim.platform);
  message_edit m content embeds w :=
    if bool_decide (msg_id m ∈ locked f) then (Raise Forbidden, w)
    else message_edit (Platform := Sim.platform) m content embeds w;
  message_delete m w :=
    if bool_decide (msg_id m ∈ pinned f) then (Raise Forbidden, w)
    else message_delete (Platform := Sim.platform) m w;
  message_add_reaction := message_add_reaction (Platform := Sim.platform);
  select_channel_links := select_channel_links (Platform := Sim.platform);
  linkhook_fetch_where := linkhook_fetch_where (Platform := Sim.platform);
  linkhook_fetch channel w :=
    if bool_decide (channel ∈ unhooked f) then (Ok None, w)
    else linkhook_fetch (Platform := Sim.platform) channel w;
  bot_get_channel := bot_get_channel (Platform := Sim.platform);
  channel_create_webhook := channel_create_webhook (Platform := Sim.platform);
  linkhook_create := linkhook_create (Platform := Sim.platform)
|}.

(** The second of three attachments cannot be downloaded. *)
Definition flaky : Platform World :=
  platform_faulty {| unreadable := []; unavailable := [11]; locked := [];
                     pinned := []; unhooked := [] |}.

(** The first attachment cannot be downloaded and the second cannot
    be read at all. *)
Definition broken : Platform World :=
  platform_faulty {| unreadable := [11]; unavailable := [10]; locked := [];
                     pinned := []; unhooked := [] |}.

(** The copy 1000 refuses edits. *)
Definition frozen : Platform World :=
  platform_faulty {| unreadable := []; unavailable := []; locked := [1000];
                     pinned := []; unhooked := [] |}.

(** The copy 1000 refuses its deletion. *)
Definition stuck : Platform World :=
  platform_faulty {| unreadable := []; unavailable := []; locked := [];
                     pinned := [1000]; unhooked := [] |}.

(** Channel 4 has no webhook yet. *)
Definition bare : Platform World :=
  platform_faulty {| unreadable := []; unavailable := []; locked := [];
                     pinned := []; unhooked := [4] |}.

Definition pictures : list Attachment :=
  [{| attachment_id := 10; is_spoiler := false |};
   {| attachment_id := 11; is_spoiler := true |};
   {| attachment_id := 12; is_spoiler := false |}].

(** The link 7 of the channels 1 and 2, the link 8 of the channels 2
    and 3, as rows of the membership table. *)
Definition memberships : list LinkRecord :=
  [{| linkid := 7; channelid := 1 |}; {| linkid := 7; channelid := 2 |};
   {| linkid := 8; channelid := 2 |}; {| linkid := 8; channelid := 3 |}].

Definition campus : World :=
  {| next_id := 1000; gone := []; store := Some memberships |}.

(** The engine once it has loaded [memberships]. *)
Definition loaded : St World := (reload_links (start init campus)).2.

(** A link with a single channel. *)
Definition solo : Engine :=
  set_hooks {[1 := hook_of 1]} (set_links {[1 := [7]]} {[7 := [1]]} init).

(** *** The functions of Python and of discord.py

    Samples for the examples, which are all in ASCII: on ASCII text
    [lower] is [str.lower] and [isdigit] is [str.isdigit], and on the
    texts that [isdigit] accepts [to_int] is [int]. *)

Definition lower_ascii (a : Ascii.ascii) : Ascii.ascii :=
  let n := Ascii.nat_of_ascii a in
  if (65 <=? n)%nat && (n <=? 90)%nat then Ascii.ascii_of_nat (n + 32) else a.

Fixpoint lower (s : string) : string :=
  match s with
  | EmptyString => EmptyString
  | String a s => String (lower_ascii a) (lower s)
  end.

Definition is_digit (a : Ascii.ascii) : bool :=
  let n := Ascii.nat_of_ascii a in (48 <=? n)%nat && (n <=? 57)%nat.

Fixpoint all_digits (s : string) : bool :=
  match s with
  | EmptyString => true
  | String a s => is_digit a && all_digits s
  end.

Definition isdigit (s : string) : bool := truthy_string s && all_digits s.

Fixpoint digits_value (acc : Z) (s : string) : Z :=
  match s with
  | EmptyString => acc
  | String a s => digits_value (10 * acc + Z.of_nat (Ascii.nat_of_ascii a - 48)) s
  end.

Definition to_int (s : string) : Res Z :=
  if isdigit s then Ok (digits_value 0 s) else Raise ValueError.

Fixpoint drop_prefix (p s : string) : option string :=
  match p, s with
  | EmptyString, _ => Some s
  | String a p, String b s => if Ascii.eqb a b then drop_prefix p s else None
  | String _ _, EmptyString => None
  end.

Definition token_char (a : Ascii.ascii) : bool :=
  let n := Ascii.nat_of_ascii a in
  is_digit a || ((65 <=? n)%nat && (n <=? 90)%nat) || ((97 <=? n)%nat && (n <=? 122)%nat)
  || (n =? 46)%nat || (n =? 45)%nat || (n =? 95)%nat.

(** The longest prefix of characters that satisfy [p], and the rest. *)
Fixpoint span (p : Ascii.ascii → bool) (s : string) : string * string :=
  match s with
  | EmptyString => (EmptyString, EmptyString)
  | String a s' =>
      if p a then let '(i, t) := span p s' in (String a i, t)
      else (EmptyString, s)
  end.

(** The pattern of [Webhook.from_url] at the head of [s]:
    [discord(?:app)?\.com/api/webhooks/(?P<id>[0-9]{17,20})/(?P<token>[A-Za-z0-9\.\-\_]{60,68})] *)
Definition match_here (s : string) : option Webhook :=
  match drop_prefix "discord" s with
  | Some s1 =>
      match drop_prefix ".com/api/webhooks/" (default s1 (drop_prefix "app" s1)) with
      | Some s2 =>
          let '(i, s3) := span is_digit s2 in
          match s3 with
          | String slash s4 =>
              let '(t, _) := span token_char s4 in
              if Ascii.eqb slash (Ascii.ascii_of_nat 47)
                 && (17 <=? String.length i)%nat && (String.length i <=? 20)%nat
                 && (60 <=? String.length t)%nat
              then Some {| hook_id := digits_value 0 i;
                           hook_token := String.substring 0 68 t |}
              else None
          | EmptyString => None
          end
      | None => None
      end
  | None => None
  end.

(** [Webhook.from_url]: the first place of the text where the pattern
    is found ([re.search]); nothing when there is none, where
    discord.py raises [ValueError]. *)
Fixpoint from_url (url : string) : option Webhook :=
  match match_here url with
  | Some hook => Some hook
  | None =>
      match url with
      | EmptyString => None
      | String _ url' => from_url url'
      end
  end.

#[export] Instance externals : Externals := {|
  str_lower := lower;
  str_isdigit := isdigit;
  int_of_str := to_int;
  webhook_from_url := from_url;
  mention_cmd name := "</" +:+ name +:+ ">"
|}.

(** *** The tables *)

(** The world of the commands: the world of the listeners, whose
    [store] is the membership table, the table of links, and the
    answer the user gives when asked to confirm. *)
Record Tables := {
  chat : World;
  links : list LinkRow;
  answer : Answer
}.

Definition on_chat {X} (op : World → Res X * World) (t : Tables) : Res X * Tables :=
  let '(r, w) := op (chat t) in (r, {| chat := w; links := links t; answer := answer t |}).

Definition on_store {X} (f : list LinkRecord → X * list LinkRecord) (t : Tables)
  : Res X * Tables :=
  match store (chat t) with
  | Some records =>
      let '(x, records') := f records in
      (Ok x, {| chat := {| next_id := next_id (chat t); gone := gone (chat t);
                           store := Some records' |};
                links := links t; answer := answer t |})
  | None => (Raise StorageError, t)
  end.

#[export] Instance platform_tables : Platform Tables := {|
  attachment_to_file a b := on_chat (attachment_to_file (Platform := bare) a b);
  webhook_send h p := on_chat (webhook_send (Platform := bare) h p);
  message_edit m c e := on_chat (message_edit (Platform := bare) m c e);
  message_delete m := on_chat (message_delete (Platform := bare) m);
  message_add_reaction m e := on_chat (message_add_reaction (Platform := bare) m e);
  select_channel_links := on_chat (select_channel_links (Platform := bare));
  linkhook_fetch_where cs := on_chat (linkhook_fetch_where (Platform := bare) cs);
  linkhook_fetch c := on_chat (linkhook_fetch (Platform := bare) c);
  bot_get_channel c t := bot_get_channel (Platform := bare) c (chat t);
  channel_create_webhook c n := on_chat (channel_create_webhook (Platform := bare) c n);
  linkhook_create c i t := on_chat (linkhook_create (Platform := bare) c i t)
|}.

#[export] Instance store_tables : Store Tables := {|
  data_init t := (Ok tt, t);
  response_defer t := (Ok tt, t);
  link_fetch_where t := (Ok (links t), t);
  link_create name t :=
    let row := {| row_linkid := 1 + foldr Z.max 0 (row_linkid <$> links t);
                  row_name := name |} in
    (Ok row, {| chat := chat t; links := links t ++ [row]; answer := answer t |});
  channel_links_select_where l :=
    on_store (λ records, (filter (λ r, linkid r = l) records, records));
  channel_links_insert l c :=
    on_store (λ records, (tt, records ++ [{| linkid := l; channelid := c |}]));
  channel_links_delete_where c l :=
    on_store (λ records, (tt, filter (λ r, ¬ (channelid r = c ∧ linkid r = l)) records));
  link_row_delete row t :=
    on_store (λ records, (tt, filter (λ r, linkid r ≠ row_linkid row) records))
      {| chat := chat t;
         links := filter (λ r, row_linkid r ≠ row_linkid row) (links t);
         answer := answer t |};
  linkhook_row_update c i token t := (Ok tt, t);
  confirm_ask prompt author t := (Ok (answer t), t);
  ctx_reply reply t := (Ok tt, t)
|}.

(** The links 7, "Study", and 8, "Lounge", over [memberships]; the
    user confirms. *)
Definition office : Tables :=
  {| chat := campus;
     links := [{| row_linkid := 7; row_name := "Study" |};
               {| row_linkid := 8; row_name := "Lounge" |}];
     answer := Answered true |}.

Definition moderator : Context :=
  {| ctx_interaction := true; ctx_author_id := 42; ctx_guild_name := "Campus" |}.

(** The cog at the [office], before and after [cog_load]. *)
Definition closed : St (AW Tables) := mkSt init (office, []) [].
Definition opened : St (AW Tables) := (cog_load closed).2.

End Cases.

(** * Facts about the correlation cache *)

Section CacheFacts.
Context {V : Type}.
Implicit Types (l : list (Z * V)) (c : FIFOCache.t V) (k : Z) (v : V).

Lemma assoc_None k l : FIFOCache.assoc k l = None ↔ k ∉ l.*1.
Proof.
  induction l as [|[k' v'] l IH]; simpl.
  - split; [intros _; apply not_elem_of_nil | done].
  - destruct (Z.eqb_spec k' k) as [->|Hne].
    + split; [discriminate | intros Hn; exfalso; apply Hn; left].
    + rewrite IH, not_elem_of_cons.
      split; [intros ?; split; [congruence | done] | by intros [_ ?]].
Qed.

Lemma assoc_Some_elem k v l : FIFOCache.assoc k l = Some v → (k, v) ∈ l.
Proof.
  induction l as [|[k' v'] l IH]; simpl; [done|].
  destruct (Z.eqb_spec k' k) as [->|Hne].
  - intros [= ->]. left.
  - intros Hl. right. by apply IH.
Qed.

Lemma assoc_Some_key k v l : FIFOCache.assoc k l = Some v → k ∈ l.*1.
Proof.
  intros Hl. apply assoc_Some_elem in Hl.
  apply list_elem_of_fmap. by exists (k, v).
Qed.

Lemma assoc_is_Some k l : is_Some (FIFOCache.assoc k l) ↔ k ∈ l.*1.
Proof.
  destruct (FIFOCache.assoc k l) as [v|] eqn:E.
  - split; [intros _; by eapply assoc_Some_key | by eauto].
  - apply assoc_None in E. split; [by intros [? ?] | done].
Qed.

Lemma assoc_app k l1 l2 :
  FIFOCache.assoc k (l1 ++ l2) =
  match FIFOCache.assoc k l1 with
  | Some v => Some v
  | None => FIFOCache.assoc k l2
  end.
Proof.
  induction l1 as [|[k' v'] l1 IH]; simpl; [done|].
  by destruct (k' =? k).
Qed.

Lemma assoc_remove_key_eq k l : FIFOCache.assoc k (FIFOCache.remove_key k l) = None.
Proof.
  apply assoc_None. unfold FIFOCache.remove_key.
  rewrite list_elem_of_fmap. intros [[k' v'] [-> Hin]].
  apply list_elem_of_filter in Hin as [Hne _]. by apply Hne.
Qed.

Lemma assoc_remove_key_ne k k' l :
  k' ≠ k → FIFOCache.assoc k' (FIFOCache.remove_key k l) = FIFOCache.assoc k' l.
Proof.
  intros Hne. unfold FIFOCache.remove_key.
  induction l as [|[k0 v0] l IH]; simpl; [done|].
  rewrite filter_cons. simpl. destruct (decide (k0 ≠ k)) as [Hk|Hk]; simpl.
  - by rewrite IH.
  - assert (k0 = k) as -> by (destruct (decide (k0 = k)); [done | by destruct Hk]).
    rewrite IH. destruct (Z.eqb_spec k k'); [congruence | done].
Qed.

Lemma remove_key_keys k l :
  (FIFOCache.remove_key k l).*1 = filter (λ x, x ≠ k) (l.*1).
Proof.
  unfold FIFOCache.remove_key.
  induction l as [|[k0 v0] l IH]; [done|].
  rewrite fmap_cons, !filter_cons. cbn [fst].
  destruct (decide (k0 ≠ k)); [rewrite fmap_cons; cbn [fst]|]; by rewrite IH.
Qed.

Lemma remove_key_length k l : (length (FIFOCache.remove_key k l) ≤ length l)%nat.
Proof. apply length_filter. Qed.

Lemma remove_key_absent k l : k ∉ l.*1 → FIFOCache.remove_key k l = l.
Proof.
  unfold FIFOCache.remove_key.
  induction l as [|[k0 v0] l IH]; simpl; [done|].
  rewrite not_elem_of_cons. intros [Hne Hl].
  rewrite filter_cons. simpl. rewrite decide_True by done. by rewrite IH.
Qed.

Lemma remove_key_present k l :
  k ∈ l.*1 → (length (FIFOCache.remove_key k l) < length l)%nat.
Proof.
  unfold FIFOCache.remove_key.
  induction l as [|[k0 v0] l IH]; simpl.
  - intros Hin. by apply elem_of_nil in Hin.
  - rewrite filter_cons. simpl. intros Hin.
    destruct (decide (k0 ≠ k)) as [Hk|Hk]; simpl.
    + apply elem_of_cons in Hin as [->|Hin]; [done|]. apply IH in Hin. lia.
    + pose proof (length_filter (λ p : Z * V, p.1 ≠ k) l). lia.
Qed.

Lemma evict_suffix n l : ∃ pre, l = pre ++ FIFOCache.evict n l.
Proof.
  induction l as [|p l [pre IH]]; simpl.
  - by exists [].
  - case_decide.
    + exists (p :: pre). simpl. by f_equal.
    + by exists [].
Qed.

Lemma evict_length n l : (1 ≤ n)%nat → (length (FIFOCache.evict n l) + 1 ≤ n)%nat.
Proof.
  intros Hn. induction l as [|p l IH]; simpl; [lia|].
  case_decide; [done | simpl in *; lia].
Qed.

Lemma evict_fits n l : (length l + 1 ≤ n)%nat → FIFOCache.evict n l = l.
Proof.
  destruct l as [|p l]; simpl; [done|]. intros Hn.
  by rewrite decide_False by (simpl; lia).
Qed.

Lemma evict_full n p l :
  (1 ≤ n)%nat → length (p :: l) = n → FIFOCache.evict n (p :: l) = l.
Proof.
  intros Hn Hlen. simpl. rewrite decide_True by (simpl in *; lia).
  apply evict_fits. simpl in Hlen. lia.
Qed.

Lemma evict_NoDup n l : NoDup (l.*1) → NoDup ((FIFOCache.evict n l).*1).
Proof.
  destruct (evict_suffix n l) as [pre Hpre]. rewrite Hpre at 1.
  rewrite fmap_app. intros Hnd. by apply NoDup_app in Hnd as (_ & _ & ?).
Qed.

Lemma assoc_evict n k v l :
  NoDup (l.*1) → FIFOCache.assoc k (FIFOCache.evict n l) = Some v →
  FIFOCache.assoc k l = Some v.
Proof.
  destruct (evict_suffix n l) as [pre Hpre]. intros Hnd Hl.
  rewrite Hpre, assoc_app.
  destruct (FIFOCache.assoc k pre) as [v'|] eqn:E; [|done].
  exfalso. rewrite Hpre, fmap_app in Hnd.
  apply NoDup_app in Hnd as (_ & Hdis & _).
  apply (Hdis k); [by eapply assoc_Some_key | by eapply assoc_Some_key].
Qed.

Lemma contains_true c k : FIFOCache.contains c k = true ↔ k ∈ FIFOCache.keys c.
Proof.
  unfold FIFOCache.contains, FIFOCache.get, FIFOCache.keys.
  rewrite <- assoc_is_Some.
  destruct (FIFOCache.assoc k (FIFOCache.items c)); split; eauto; try done.
Qed.

Lemma get_is_Some c k : is_Some (FIFOCache.get c k) ↔ k ∈ FIFOCache.keys c.
Proof. apply assoc_is_Some. Qed.

Lemma get_None c k : FIFOCache.get c k = None ↔ k ∉ FIFOCache.keys c.
Proof. apply assoc_None. Qed.

(** *** Deleting *)

Lemma get_delitem_eq c k : FIFOCache.get (FIFOCache.delitem c k) k = None.
Proof. apply assoc_remove_key_eq. Qed.

Lemma get_delitem_ne c k k' :
  k' ≠ k → FIFOCache.get (FIFOCache.delitem c k) k' = FIFOCache.get c k'.
Proof. apply assoc_remove_key_ne. Qed.

Lemma get_delitem_Some c k k' v :
  FIFOCache.get (FIFOCache.delitem c k) k' = Some v → FIFOCache.get c k' = Some v.
Proof.
  destruct (decide (k' = k)) as [->|Hne].
  - by rewrite get_delitem_eq.
  - by rewrite get_delitem_ne.
Qed.

Lemma delitem_ok c k : cache_ok c → cache_ok (FIFOCache.delitem c k).
Proof.
  intros [Hk Hs Hr]. split; simpl; [| |done].
  - unfold FIFOCache.keys. simpl. rewrite remove_key_keys. by apply NoDup_filter.
  - pose proof (remove_key_length k (FIFOCache.items c)). lia.
Qed.

Lemma delitem_absent c k : FIFOCache.get c k = None → FIFOCache.delitem c k = c.
Proof.
  intros Hn. apply get_None in Hn. destruct c as [n l].
  unfold FIFOCache.delitem. simpl. f_equal. by apply remove_key_absent.
Qed.

Lemma pop_fst c k d :
  (FIFOCache.pop c k d).1 = default d (FIFOCache.get c k).
Proof. unfold FIFOCache.pop. by destruct (FIFOCache.get c k). Qed.

Lemma pop_snd c k d : (FIFOCache.pop c k d).2 = FIFOCache.delitem c k.
Proof.
  unfold FIFOCache.pop. destruct (FIFOCache.get c k) eqn:E; simpl; [done|].
  by rewrite delitem_absent.
Qed.

(** *** Inserting *)

Lemma setitem_total c k v :
  (1 ≤ FIFOCache.maxsize c)%nat → ∃ c', FIFOCache.setitem c k v = Ok c'.
Proof.
  intros Hr. unfold FIFOCache.setitem.
  rewrite decide_False by lia. eauto.
Qed.

Lemma setitem_maxsize c k v c' :
  FIFOCache.setitem c k v = Ok c' → FIFOCache.maxsize c' = FIFOCache.maxsize c.
Proof.
  unfold FIFOCache.setitem. case_decide; [done|]. by intros [= <-].
Qed.

Lemma get_setitem_eq c k v c' :
  FIFOCache.setitem c k v = Ok c' → FIFOCache.get c' k = Some v.
Proof.
  unfold FIFOCache.setitem. case_decide; [done|]. intros [= <-].
  unfold FIFOCache.get. simpl. rewrite assoc_app, assoc_remove_key_eq. simpl.
  by rewrite Z.eqb_refl.
Qed.

(** An insertion never makes another key appear or change its value. *)
Lemma get_setitem_Some c k v c' k' x :
  NoDup (FIFOCache.keys c) → FIFOCache.setitem c k v = Ok c' → k' ≠ k →
  FIFOCache.get c' k' = Some x → FIFOCache.get c k' = Some x.
Proof.
  unfold FIFOCache.setitem. intros Hnd. case_decide; [done|]. intros [= <-] Hne.
  unfold FIFOCache.get. simpl. rewrite assoc_app, assoc_remove_key_ne by done.
  simpl. destruct (Z.eqb_spec k k') as [->|_]; [done|].
  destruct (FIFOCache.contains c k).
  - by destruct (FIFOCache.assoc k' (FIFOCache.items c)).
  - destruct (FIFOCache.assoc k' (FIFOCache.evict _ _)) eqn:E; [|done].
    intros [= ->]. by eapply assoc_evict.
Qed.

(** Overwriting a key, or inserting while there is room, keeps every
    other entry. *)
Lemma get_setitem_kept c k v c' k' :
  FIFOCache.setitem c k v = Ok c' → k' ≠ k →
  FIFOCache.contains c k = true ∨
    (length (FIFOCache.items c) < FIFOCache.maxsize c)%nat →
  FIFOCache.get c' k' = FIFOCache.get c k'.
Proof.
  unfold FIFOCache.setitem. case_decide; [done|]. intros [= <-] Hne Hroom.
  unfold FIFOCache.get. simpl. rewrite assoc_app, assoc_remove_key_ne by done.
  simpl. destruct (Z.eqb_spec k k') as [->|_]; [done|].
  destruct (FIFOCache.contains c k) eqn:Ec.
  - by destruct (FIFOCache.assoc k' (FIFOCache.items c)).
  - destruct Hroom as [|Hroom]; [done|].
    rewrite evict_fits by lia.
    by destruct (FIFOCache.assoc k' (FIFOCache.items c)).
Qed.

Lemma setitem_ok c k v c' :
  cache_ok c → FIFOCache.setitem c k v = Ok c' → cache_ok c'.
Proof.
  intros [Hk Hs Hr]. unfold FIFOCache.setitem. case_decide; [done|].
  intros [= <-]. unfold FIFOCache.keys in *.
  destruct (FIFOCache.contains c k) eqn:Ec.
  - apply contains_true in Ec. split; unfold FIFOCache.keys in *; simpl; [| |done].
    + rewrite fmap_app, remove_key_keys. apply NoDup_app. split_and!.
      * by apply NoDup_filter.
      * intros x Hx [->|Hin]%elem_of_cons; [|by apply elem_of_nil in Hin].
        apply list_elem_of_filter in Hx as [Hx _]. by apply Hx.
      * simpl. apply NoDup_singleton.
    + rewrite length_app. simpl.
      pose proof (remove_key_present k (FIFOCache.items c) Ec). lia.
  - split; unfold FIFOCache.keys in *; simpl; [| |done].
    + rewrite fmap_app, remove_key_keys. apply NoDup_app. split_and!.
      * apply NoDup_filter. by apply evict_NoDup.
      * intros x Hx [->|Hin]%elem_of_cons; [|by apply elem_of_nil in Hin].
        apply list_elem_of_filter in Hx as [Hx _]. by apply Hx.
      * simpl. apply NoDup_singleton.
    + rewrite length_app. simpl.
      pose proof (remove_key_length k (FIFOCache.evict (FIFOCache.maxsize c) (FIFOCache.items c))).
      pose proof (evict_length (FIFOCache.maxsize c) (FIFOCache.items c) Hr). lia.
Qed.

Lemma create_ok n : (1 ≤ n)%nat → cache_ok (@FIFOCache.create V n).
Proof.
  intros Hn. split; simpl; [apply NoDup_nil_2 | lia | done].
Qed.

(** Inserting a new key into a full cache: the oldest entry goes, the
    others stay in their order, the new entry is the youngest. *)
Lemma setitem_full c k v k0 v0 rest :
  (1 ≤ FIFOCache.maxsize c)%nat →
  FIFOCache.items c = (k0, v0) :: rest →
  length (FIFOCache.items c) = FIFOCache.maxsize c →
  k ∉ FIFOCache.keys c →
  FIFOCache.setitem c k v = Ok (FIFOCache.mk (FIFOCache.maxsize c) (rest ++ [(k, v)])).
Proof.
  intros Hr Hitems Hfull Hnew. unfold FIFOCache.setitem.
  rewrite decide_False by lia.
  destruct (FIFOCache.contains c k) eqn:Ec; [by apply contains_true in Ec|].
  rewrite Hitems in *. rewrite evict_full by done.
  rewrite remove_key_absent; [done|].
  unfold FIFOCache.keys in Hnew. rewrite Hitems in Hnew.
  simpl in Hnew. by apply not_elem_of_cons in Hnew as [_ ?].
Qed.

End CacheFacts.

(** * Facts about the monad *)

Section MonadFacts.
Context {W : Type}.

Lemma bind_Ok {A B} (m : M W A) (f : A → M W B) st a st' :
  m st = (Ok a, st') → bind m f st = f a st'.
Proof. unfold bind. by intros ->. Qed.

Lemma bind_Raise {A B} (m : M W A) (f : A → M W B) st e st' :
  m st = (Raise e, st') → bind m f st = (Raise e, st').
Proof. unfold bind. by intros ->. Qed.

Lemma bind_inv {A B} (m : M W A) (f : A → M W B) st b st' :
  bind m f st = (Ok b, st') → ∃ a st1, m st = (Ok a, st1) ∧ f a st1 = (Ok b, st').
Proof.
  unfold bind. destruct (m st) as [[a|e] st1]; [eauto | done].
Qed.

Lemma call_run {A} (c : Call) (op : W → Res A * W) st :
  call c op st =
  ((op (world st)).1,
   mkSt (eng st) (op (world st)).2
        (log st ++ [{| entry_call := c; entry_ok := is_Ok (op (world st)).1 |}])).
Proof. unfold call. by destruct (op (world st)). Qed.

Lemma foldM_cons {A B} (f : A → B → M W A) a x l st :
  foldM f a (x :: l) st =
  match f a x st with
  | (Ok a', st') => foldM f a' l st'
  | (Raise e, st') => (Raise e, st')
  end.
Proof. done. Qed.

(** A property of the state that every step of a loop keeps, whatever
    the step returns, holds after the loop. *)
Lemma foldM_frame {A B} (P : St W → Prop) (f : A → B → M W A) l :
  (∀ a x st, P st → P (f a x st).2) →
  ∀ a st, P st → P (foldM f a l st).2.
Proof.
  intros Hf. induction l as [|x l IH]; intros a st HP; simpl; [done|].
  unfold bind. specialize (Hf a x st HP).
  destruct (f a x st) as [[a'|e] st1]; simpl in *; [by apply IH | done].
Qed.

(** A property of the loop variable and the state that every normal
    step keeps holds after a loop that returns normally. *)
Lemma foldM_inv {A B} (I : A → St W → Prop) (f : A → B → M W A) l :
  (∀ a x st a' st', x ∈ l → I a st → f a x st = (Ok a', st') → I a' st') →
  ∀ a st a' st', I a st → foldM f a l st = (Ok a', st') → I a' st'.
Proof.
  induction l as [|x l IH]; intros Hf a st a' st' HI; simpl.
  - by intros [= <- <-].
  - intros (a1 & st1 & Hx & Hl)%bind_inv.
    eapply IH; [|by eapply (Hf a x st); [left|..]|done].
    intros ? y ? ? ? Hy. apply Hf. by right.
Qed.

Lemma bind_frame {A B} (P : St W → Prop) (m : M W A) (f : A → M W B) st :
  P (m st).2 → (∀ a st1, P st1 → P (f a st1).2) → P (bind m f st).2.
Proof.
  unfold bind. intros Hm Hf.
  destruct (m st) as [[a|e] st1]; simpl in *; [by apply Hf | done].
Qed.

Lemma try_except_frame {A} (P : St W → Prop) (m h : M W A) catches st :
  P (m st).2 → (∀ st1, P st1 → P (h st1).2) → P (try_except m catches h st).2.
Proof.
  unfold try_except. intros Hm Hh.
  destruct (m st) as [[a|e] st1]; simpl in *; [done|].
  destruct (catches e); [by apply Hh | done].
Qed.

End MonadFacts.

(** * Facts about the listeners *)

Section CogFacts.
Context {W : Type} `{Platform W} `{SetOrder}.
Implicit Types (st : St W) (message : Message).

(** ** The reaction listener only reads *)

Lemma react_copy_engine message emoji u c st :
  eng (react_copy message emoji u c st).2 = eng st.
Proof.
  unfold react_copy.
  apply (try_except_frame (λ st', eng st' = eng st)); [|done].
  case_decide; [by rewrite call_run | done].
Qed.

Lemma react_loop_engine message emoji copies st :
  eng (foldM (react_copy message emoji) tt copies st).2 = eng st.
Proof.
  apply (foldM_frame (λ st', eng st' = eng st)); [|done].
  intros a x st1 <-. apply react_copy_engine.
Qed.

Lemma on_reaction_add_engine reaction user st :
  eng (on_reaction_add reaction user st).2 = eng st.
Proof.
  unfold on_reaction_add, bind, get_engine.
  destruct (truthy_opt _ && _); [apply react_loop_engine | done].
Qed.

(** C10.  The reaction-added listener never changes the cog's state:
    the forward cache, the reverse index, the link index and the
    webhook cache are the same after it as before, for every reaction,
    whatever the platform answers. *)
Theorem on_reaction_add_keeps_engine reaction user st :
  eng (on_reaction_add reaction user st).2 = eng st.
Proof. apply on_reaction_add_engine. Qed.

(** ** Reading the log *)

Lemma posted_snoc l c ok :
  posted (l ++ [{| entry_call := c; entry_ok := ok |}]) =
  posted l ++ match c with
              | CallSend ch _ _ => if ok then [ch] else []
              | _ => []
              end.
Proof.
  unfold posted. rewrite omap_app. f_equal. simpl.
  destruct c; try done. by destruct ok.
Qed.


Lemma deletions_snoc l c ok :
  deletions (l ++ [{| entry_call := c; entry_ok := ok |}]) =
  deletions l ++ match c with CallDelete m => [m] | _ => [] end.
Proof. unfold deletions. rewrite omap_app. f_equal. by destruct c. Qed.

Lemma edits_snoc l c ok :
  edits (l ++ [{| entry_call := c; entry_ok := ok |}]) =
  edits l ++ match c with CallEdit m x e => [(m, x, e)] | _ => [] end.
Proof. unfold edits. rewrite omap_app. f_equal. by destruct c. Qed.

Lemma others_cons message cid m copies :
  others message ((cid, m) :: copies) =
  if decide (msg_id m ≠ msg_id message)
  then m :: others message copies
  else others message copies.
Proof. unfold others. by rewrite fmap_cons, filter_cons. Qed.

Lemma elem_of_others message m copies :
  m ∈ others message copies ↔ msg_id m ≠ msg_id message ∧ ∃ cid, (cid, m) ∈ copies.
Proof.
  unfold others. rewrite list_elem_of_filter, list_elem_of_fmap.
  split.
  - intros [Hne [[cid m'] [-> Hin]]]. eauto.
  - intros [Hne [cid Hin]]. split; [done|]. by exists (cid, m).
Qed.

(** ** The log is a faithful record *)

Lemma replay_app l1 l2 (w : W) :
  replay (l1 ++ l2) w = replay l1 w ≫= replay l2.
Proof.
  revert w. induction l1 as [|en l1 IH]; intros w; simpl; [done|].
  destruct (perform (entry_call en) w) as [ok w1].
  destruct (Bool.eqb ok (entry_ok en)); [apply IH | done].
Qed.

Lemma faithful_refl st : faithful st st.
Proof. exists []. by rewrite app_nil_r. Qed.

Lemma faithful_trans st1 st2 st3 :
  faithful st1 st2 → faithful st2 st3 → faithful st1 st3.
Proof.
  intros (l1 & Hl1 & Hw1) (l2 & Hl2 & Hw2). exists (l1 ++ l2). split.
  - by rewrite Hl2, Hl1, app_assoc.
  - by rewrite replay_app, Hw1.
Qed.

Section Faithful.
Variable st0 : St W.

Lemma faithful_engine st st' :
  world st' = world st → log st' = log st → faithful st0 st → faithful st0 st'.
Proof. intros Hw Hl (l & ? & ?). exists l. by rewrite Hw, Hl. Qed.

Lemma call_faithful {A} c (op : W → Res A * W) st :
  (∀ w, perform c w = outcome (op w)) →
  faithful st0 st → faithful st0 (call c op st).2.
Proof.
  intros Hop (l & Hl & Hw). rewrite call_run. simpl.
  exists (l ++ [{| entry_call := c; entry_ok := is_Ok (op (world st)).1 |}]). split.
  - by rewrite Hl, app_assoc.
  - rewrite replay_app, Hw. simpl. rewrite Hop. unfold outcome. simpl.
    by rewrite Bool.eqb_reflx.
Qed.

Lemma wmessages_setitem_faithful k v st :
  faithful st0 st → faithful st0 (wmessages_setitem k v st).2.
Proof.
  unfold wmessages_setitem, bind, get_engine, lift_res, modify_engine.
  by destruct (FIFOCache.setitem (wmessages (eng st)) k v); apply faithful_engine.
Qed.

Lemma message_cache_setitem_faithful k v st :
  faithful st0 st → faithful st0 (message_cache_setitem k v st).2.
Proof.
  unfold message_cache_setitem, bind, get_engine, lift_res, modify_engine.
  by destruct (FIFOCache.setitem (message_cache (eng st)) k v); apply faithful_engine.
Qed.

Lemma message_cache_pop_faithful k st :
  faithful st0 st → faithful st0 (message_cache_pop k st).2.
Proof.
  unfold message_cache_pop, bind, get_engine, modify_engine.
  by destruct (FIFOCache.pop _ _ _); apply faithful_engine.
Qed.

Lemma prepare_attachments_faithful attachments st :
  faithful st0 st → faithful st0 (prepare_attachments attachments st).2.
Proof.
  intros Hf. unfold prepare_attachments.
  apply (foldM_frame (faithful st0)); [|done].
  intros results attach st1 Hf1.
  apply (try_except_frame (faithful st0)); [|done].
  apply (bind_frame (faithful st0)); [by apply call_faithful | done].
Qed.

Lemma forward_to_faithful message sent channelid st :
  faithful st0 st → faithful st0 (forward_to message sent channelid st).2.
Proof.
  intros Hf. unfold forward_to. case_decide; [|done].
  apply (bind_frame (faithful st0)).
  { destruct (truthy_list _); [by apply prepare_attachments_faithful | done]. }
  intros files st1 Hf1.
  apply (bind_frame (faithful st0)); [done|]. intros s st2 Hf2.
  apply (bind_frame (faithful st0)).
  { unfold getitem. by destruct (hooks s !! channelid). }
  intros hook st3 Hf3.
  apply (bind_frame (faithful st0)); [by apply call_faithful|].
  intros msg st4 Hf4.
  apply (bind_frame (faithful st0)); [by apply wmessages_setitem_faithful | done].
Qed.

Lemma on_message_faithful message st :
  faithful st0 st → faithful st0 (on_message message st).2.
Proof.
  intros Hf. unfold on_message. destruct (truthy_opt _); [done|].
  apply (bind_frame (faithful st0)); [done|]. intros s st1 Hf1.
  destruct (truthy_list (default [] _)); [|done].
  apply (bind_frame (faithful st0)).
  - apply (foldM_frame (faithful st0)); [|done].
    intros sent linkid st2 Hf2.
    apply (bind_frame (faithful st0)); [done|]. intros s' st3 Hf3.
    apply (bind_frame (faithful st0)).
    { unfold getitem. by destruct (link_channels s' !! linkid). }
    intros channelids st4 Hf4.
    apply (foldM_frame (faithful st0)); [|done].
    intros. by apply forward_to_faithful.
  - intros sent st2 Hf2. destruct (truthy_list sent); [|done].
    apply (bind_frame (faithful st0)); [by apply wmessages_setitem_faithful|].
    intros. by apply message_cache_setitem_faithful.
Qed.

Lemma on_message_edit_faithful before after st :
  faithful st0 st → faithful st0 (on_message_edit before after st).2.
Proof.
  intros Hf. unfold on_message_edit.
  apply (bind_frame (faithful st0)); [by apply message_cache_pop_faithful|].
  intros cached_sent st1 Hf1.
  apply (bind_frame (faithful st0)).
  - apply (foldM_frame (faithful st0)); [|done].
    intros acc [cid m] st2 Hf2. unfold edit_copy.
    apply (try_except_frame (faithful st0)); [|done].
    apply (bind_frame (faithful st0)); [|done].
    case_decide; [by apply call_faithful | done].
  - intros new_sent st2 Hf2. destruct (truthy_list new_sent); [|done].
    by apply message_cache_setitem_faithful.
Qed.

Lemma delete_loop_faithful message copies st :
  faithful st0 st → faithful st0 (foldM (delete_copy message) tt copies st).2.
Proof.
  apply (foldM_frame (faithful st0)).
  intros [] c st3 Hf3. unfold delete_copy.
  apply (try_except_frame (faithful st0)); [|done].
  case_decide; [by apply call_faithful | done].
Qed.

Lemma on_message_delete_faithful message st :
  faithful st0 st → faithful st0 (on_message_delete message st).2.
Proof.
  intros Hf. unfold on_message_delete.
  apply (bind_frame (faithful st0)); [done|]. intros s st1 Hf1.
  destruct (truthy_opt _); [|done].
  apply (bind_frame (faithful st0)); [by apply message_cache_pop_faithful|].
  intros cached_sent st2 Hf2. by apply delete_loop_faithful.
Qed.


End Faithful.

(** ** What is posted, and through which webhook *)

Lemma sends_snoc l c ok :
  sends (l ++ [{| entry_call := c; entry_ok := ok |}]) =
  sends l ++ match c with CallSend ch hook p => [(ch, hook, p)] | _ => [] end.
Proof. unfold sends. rewrite omap_app. f_equal. by destruct c. Qed.

Section Payloads.
Variables (st0 : St W) (message : Message).


Lemma posting_quiet st st' :
  hooks (eng st') = hooks (eng st) → log st' = log st →
  posting_since message st0 st → posting_since message st0 st'.
Proof. intros Hh Hl [? (l & ? & ?)]. split; [congruence|]. exists l. by rewrite Hl. Qed.

Lemma posting_download {A} a b (op : W → Res A * W) st :
  posting_since message st0 st →
  posting_since message st0 (call (CallToFile a b) op st).2.
Proof.
  intros [Hh (l & Hl & Hgood)]. rewrite call_run. split; [done|]. simpl.
  eexists (l ++ [_]). split; [by rewrite Hl, app_assoc|].
  intros c hook p. rewrite sends_snoc, app_nil_r. apply Hgood.
Qed.

Lemma prepare_attachments_posting attachments st :
  posting_since message st0 st →
  posting_since message st0 (prepare_attachments attachments st).2.
Proof.
  intros Hp. unfold prepare_attachments.
  apply (foldM_frame (posting_since message st0)); [|done].
  intros results attach st1 Hp1.
  apply (try_except_frame (posting_since message st0)); [|done].
  apply (bind_frame (posting_since message st0)); [by apply posting_download | done].
Qed.

Lemma wmessages_setitem_posting k v st :
  posting_since message st0 st →
  posting_since message st0 (wmessages_setitem k v st).2.
Proof.
  unfold wmessages_setitem, bind, get_engine, lift_res, modify_engine.
  by destruct (FIFOCache.setitem (wmessages (eng st)) k v); apply posting_quiet.
Qed.

Lemma message_cache_setitem_posting k v st :
  posting_since message st0 st →
  posting_since message st0 (message_cache_setitem k v st).2.
Proof.
  unfold message_cache_setitem, bind, get_engine, lift_res, modify_engine.
  by destruct (FIFOCache.setitem (message_cache (eng st)) k v); apply posting_quiet.
Qed.

Lemma forward_to_posting sent channelid st :
  posting_since message st0 st →
  posting_since message st0 (forward_to message sent channelid st).2.
Proof.
  intros Hp. unfold forward_to. case_decide; [|done].
  unfold bind at 1.
  assert (posting_since message st0 ((if truthy_list (msg_attachments message)
                    then prepare_attachments (msg_attachments message)
                    else ret []) st).2) as Hp1.
  { destruct (truthy_list _); [by apply prepare_attachments_posting | done]. }
  destruct ((if truthy_list (msg_attachments message)
             then prepare_attachments (msg_attachments message)
             else ret []) st) as [[files|e] st1]; simpl in Hp1; [|done].
  unfold bind at 1, get_engine. unfold bind at 1, getitem.
  destruct (hooks (eng st1) !! channelid) as [hook|] eqn:Ehook; [|done].
  unfold ret at 1. unfold bind at 1. rewrite call_run.
  match goal with |- context [webhook_send hook ?p (world st1)] =>
    set (payload := p) end.
  destruct (webhook_send hook payload (world st1)) as [[msg|e] w1]; cbn [fst snd is_Ok].
  - apply (bind_frame (posting_since message st0)); [|done].
    apply wmessages_setitem_posting.
    destruct Hp1 as [Hh (l & Hl & Hgood)]. split; [done|]. simpl.
    eexists (l ++ [_]). split; [by rewrite Hl, app_assoc|].
    intros c h p. rewrite sends_snoc.
    intros [Hin|[= -> -> ->]%list_elem_of_singleton]%elem_of_app; [by apply Hgood|].
    split; [by rewrite <- Hh | by repeat split].
  - destruct Hp1 as [Hh (l & Hl & Hgood)]. split; [done|]. simpl.
    eexists (l ++ [_]). split; [by rewrite Hl, app_assoc|].
    intros c h p. rewrite sends_snoc.
    intros [Hin|[= -> -> ->]%list_elem_of_singleton]%elem_of_app; [by apply Hgood|].
    split; [by rewrite <- Hh | by repeat split].
Qed.

Lemma on_message_posting st :
  posting_since message st0 st → posting_since message st0 (on_message message st).2.
Proof.
  intros Hp. unfold on_message. destruct (truthy_opt _); [done|].
  apply (bind_frame (posting_since message st0)); [done|]. intros s st1 Hp1.
  destruct (truthy_list (default [] _)); [|done].
  apply (bind_frame (posting_since message st0)).
  - apply (foldM_frame (posting_since message st0)); [|done].
    intros sent linkid st2 Hp2.
    apply (bind_frame (posting_since message st0)); [done|]. intros s' st3 Hp3.
    apply (bind_frame (posting_since message st0)).
    { unfold getitem. by destruct (link_channels s' !! linkid). }
    intros channelids st4 Hp4.
    apply (foldM_frame (posting_since message st0)); [|done].
    intros. by apply forward_to_posting.
  - intros sent st2 Hp2. destruct (truthy_list sent); [|done].
    apply (bind_frame (posting_since message st0)); [by apply wmessages_setitem_posting|].
    intros. by apply message_cache_setitem_posting.
Qed.

End Payloads.

Lemma on_message_relayed message st : relayed message st (on_message message st).2.
Proof.
  apply (on_message_posting st message st). split; [done|].
  exists []. split; [by rewrite app_nil_r|]. by intros c hook p ?%elem_of_nil.
Qed.

(** ** Reactions *)

Section Reactions.
Hypothesis add_reaction_raises :
  ∀ m e w x, (message_add_reaction m e w).1 = Raise x → is_HTTPException x = true.



End Reactions.



(** ** Deletions *)

Section Deletions.
Hypothesis delete_raises :
  ∀ m w x, (message_delete m w).1 = Raise x → x = NotFound.

Lemma delete_loop_run message copies st :
  (foldM (delete_copy message) tt copies st).1 = Ok tt ∧
  eng (foldM (delete_copy message) tt copies st).2 = eng st ∧
  deletions (log (foldM (delete_copy message) tt copies st).2) =
  deletions (log st) ++ others message copies.
Proof.
  revert st. induction copies as [|[cid m] copies IH]; intros st; simpl.
  - by rewrite app_nil_r.
  - rewrite others_cons. unfold bind, delete_copy at 1 3 5, try_except. simpl.
    case_decide.
    + rewrite call_run.
      destruct (message_delete m (world st)) as [[[]|x] w1] eqn:E; simpl.
      * destruct (IH (mkSt (eng st) w1 (log st ++ [{| entry_call := CallDelete m; entry_ok := true |}])))
          as (-> & -> & ->).
        split_and!; [done..|]. simpl. by rewrite deletions_snoc, <- app_assoc.
      * rewrite (delete_raises m (world st) x) by (by rewrite E). simpl.
        destruct (IH (mkSt (eng st) w1 (log st ++ [{| entry_call := CallDelete m; entry_ok := false |}])))
          as (-> & -> & ->).
        split_and!; [done..|]. simpl. by rewrite deletions_snoc, <- app_assoc.
    + simpl. apply IH.
Qed.

End Deletions.

(** C7, amended.  When the deleted message's id is in the reverse
    index (with a non-zero origin id) and [delete] fails with nothing
    but [NotFound], the deletion listener returns normally, removes the
    forward entry of the origin id and nothing else from the caches,
    and calls [delete] on every recorded copy whose id differs from the
    deleted message's, in order; so each such copy, the origin
    included, is deleted, and a copy that is already missing does not
    stop the others.  The deletions of the log were made on the
    platform, one after the other, and nothing else was asked of it. *)
Theorem on_message_delete_deletes_every_copy message st origid :
  (∀ m w x, (message_delete m w).1 = Raise x → x = NotFound) →
  FIFOCache.get (wmessages (eng st)) (msg_id message) = Some origid →
  origid ≠ 0 →
  let copies := default [] (FIFOCache.get (message_cache (eng st)) origid) in
  let st' := (on_message_delete message st).2 in
  (on_message_delete message st).1 = Ok tt ∧
  FIFOCache.get (message_cache (eng st')) origid = None ∧
  (∀ k, k ≠ origid →
        FIFOCache.get (message_cache (eng st')) k = FIFOCache.get (message_cache (eng st)) k) ∧
  wmessages (eng st') = wmessages (eng st) ∧
  deletions (log st') = deletions (log st) ++ others message copies ∧
  (∀ cid m, (cid, m) ∈ copies → msg_id m ≠ msg_id message → m ∈ deletions (log st')) ∧
  faithful st st'.
Proof.
  intros Hx Hrev Hnz copies st'.
  assert (on_message_delete message st =
          foldM (delete_copy message) tt copies
            (mkSt (set_message_cache (FIFOCache.delitem (message_cache (eng st)) origid) (eng st))
                  (world st) (log st))) as Hrun.
  { unfold on_message_delete, bind, get_engine. rewrite Hrev. simpl.
    destruct (Z.eqb_spec origid 0) as [|_]; [done|]. simpl.
    unfold message_cache_pop, bind, get_engine, modify_engine.
    pose proof (pop_fst (message_cache (eng st)) origid []) as Hf.
    pose proof (pop_snd (message_cache (eng st)) origid []) as Hs.
    destruct (FIFOCache.pop _ _ _) as [v c]. simpl in *. by subst. }
  subst st'. rewrite Hrun.
  destruct (delete_loop_run Hx message copies
              (mkSt (set_message_cache (FIFOCache.delitem (message_cache (eng st)) origid) (eng st))
                    (world st) (log st))) as (Hr & He & Hl).
  rewrite Hr, He, Hl. simpl. split_and!; try done.
  - apply get_delitem_eq.
  - intros k Hk. by apply get_delitem_ne.
  - intros cid m Hin Hne. apply elem_of_app. right.
    apply elem_of_others. eauto.
  - rewrite <- Hrun. apply on_message_delete_faithful, faithful_refl.
Qed.

(** ** Edits *)

Lemma edit_copy_run before after acc cid m st :
  edit_copy before after acc (cid, m) st =
  if decide (msg_id m ≠ msg_id before) then
    let edit := CallEdit m (msg_content after) (prepare_embeds after) in
    match message_edit m (msg_content after) (prepare_embeds after) (world st) with
    | (Ok m', w1) =>
        (Ok (acc ++ [(cid, m')]),
         mkSt (eng st) w1 (log st ++ [{| entry_call := edit; entry_ok := true |}]))
    | (Raise x, w1) =>
        let st1 := mkSt (eng st) w1 (log st ++ [{| entry_call := edit; entry_ok := false |}]) in
        if is_NotFound x then (Ok acc, st1) else (Raise x, st1)
    end
  else (Ok (acc ++ [(cid, m)]), st).
Proof.
  unfold edit_copy, try_except, bind. case_decide; [|done].
  rewrite call_run.
  by destruct (message_edit m (msg_content after) (prepare_embeds after) (world st))
    as [[m'|x] w1].
Qed.

Section Edits.
Hypothesis edit_raises :
  ∀ m c e w x, (message_edit m c e w).1 = Raise x → x = NotFound.

Lemma edit_loop_run before after copies acc st :
  ∃ out,
    (foldM (edit_copy before after) acc copies st).1 = Ok (acc ++ out) ∧
    eng (foldM (edit_copy before after) acc copies st).2 = eng st ∧
    edit_outcome before after (world st) copies
      (world (foldM (edit_copy before after) acc copies st).2) out ∧
    edits (log (foldM (edit_copy before after) acc copies st).2) =
    edits (log st) ++
    ((λ m, (m, msg_content after, prepare_embeds after)) <$> others before copies).
Proof.
  revert acc st. induction copies as [|[cid m] copies IH]; intros acc st.
  - exists []. simpl. rewrite !app_nil_r. split_and!; try done. constructor.
  - rewrite others_cons, foldM_cons, edit_copy_run.
    case_decide as Hid.
    + destruct (message_edit m (msg_content after) (prepare_embeds after) (world st))
        as [[m'|x] w1] eqn:E; simpl.
      * destruct (IH (acc ++ [(cid, m')])
                    (mkSt (eng st) w1
                       (log st ++ [{| entry_call := CallEdit m (msg_content after) (prepare_embeds after);
                                      entry_ok := true |}])))
          as (out & -> & -> & Ho & ->).
        exists ((cid, m') :: out). simpl in *.
        split_and!; [by rewrite <- app_assoc | done | by eapply edit_updated |].
        by rewrite edits_snoc, <- app_assoc.
      * assert (x = NotFound) as -> by (by eapply edit_raises; rewrite E).
        simpl.
        destruct (IH acc
                    (mkSt (eng st) w1
                       (log st ++ [{| entry_call := CallEdit m (msg_content after) (prepare_embeds after);
                                      entry_ok := false |}])))
          as (out & -> & -> & Ho & ->).
        exists out. simpl in *.
        split_and!; [done | done | by eapply edit_missing |].
        by rewrite edits_snoc, <- app_assoc.
    + simpl. destruct (IH (acc ++ [(cid, m)]) st) as (out & -> & -> & Ho & ->).
      exists ((cid, m) :: out).
      split_and!; [by rewrite <- app_assoc | done | | done].
      apply edit_self; [|done].
      destruct (decide (msg_id m = msg_id before)); [done | by destruct Hid].
Qed.

End Edits.

(** C8, amended.  When the pre-edit id is a key of the forward cache,
    the cache holds no key twice and no more entries than its capacity,
    and [edit] fails with nothing but [NotFound], the edit listener returns
    normally; it calls [edit], with the new content and embeds, on
    every recorded copy except the one with the edited message's id;
    the new copy list keeps the edited message, holds the result of
    each successful edit and leaves out the copies that were not found;
    the entry under the pre-edit id is removed and the new list, unless
    it is empty, is stored under the post-edit id; no other entry of
    either cache changes. *)
Theorem on_message_edit_moves_correlation before after st copies :
  (∀ m c e w x, (message_edit m c e w).1 = Raise x → x = NotFound) →
  cache_ok (message_cache (eng st)) →
  FIFOCache.get (message_cache (eng st)) (msg_id before) = Some copies →
  let st' := (on_message_edit before after st).2 in
  ∃ new_sent,
    (on_message_edit before after st).1 = Ok tt ∧
    edits (log st') =
      edits (log st) ++
      ((λ m, (m, msg_content after, prepare_embeds after)) <$> others before copies) ∧
    edit_outcome before after (world st) copies (world st') new_sent ∧
    wmessages (eng st') = wmessages (eng st) ∧
    (∀ k, FIFOCache.get (message_cache (eng st')) k =
          if decide (k = msg_id after ∧ new_sent ≠ []) then Some new_sent
          else if decide (k = msg_id before) then None
          else FIFOCache.get (message_cache (eng st)) k).
Proof.
  intros Hx Hok Hget st'.
  set (mc1 := FIFOCache.delitem (message_cache (eng st)) (msg_id before)).
  set (st1 := mkSt (set_message_cache mc1 (eng st)) (world st) (log st)).
  assert (message_cache_pop (msg_id before) st = (Ok copies, st1)) as Hpop.
  { unfold message_cache_pop, bind, get_engine, modify_engine.
    pose proof (pop_fst (message_cache (eng st)) (msg_id before) []) as Hf.
    pose proof (pop_snd (message_cache (eng st)) (msg_id before) []) as Hs.
    destruct (FIFOCache.pop _ _ _) as [v c]. simpl in *. subst.
    by rewrite Hget. }
  destruct (edit_loop_run Hx before after copies [] st1) as (out & Hr & He & Ho & Hl).
  destruct (foldM (edit_copy before after) [] copies st1) as [r st2] eqn:Eloop.
  simpl in *. subst r.
  assert (∀ k, k ≠ msg_id before → FIFOCache.get mc1 k = FIFOCache.get (message_cache (eng st)) k)
    as Hne by (intros k Hk; by apply get_delitem_ne).
  assert (FIFOCache.get mc1 (msg_id before) = None) as Heq by apply get_delitem_eq.
  exists out. subst st'. unfold on_message_edit.
  rewrite (bind_Ok _ _ _ _ _ Hpop), (bind_Ok _ _ _ _ _ Eloop).
  destruct out as [|c out]; simpl.
  - rewrite He. simpl. split_and!; try done.
    intros k. rewrite decide_False by (by intros [_ ?]).
    case_decide; [by subst | by apply Hne].
  - assert (1 ≤ FIFOCache.maxsize mc1)%nat as Hroom by (simpl; apply Hok).
    destruct (setitem_total mc1 (msg_id after) (c :: out) Hroom) as [mc2 Hset].
    unfold message_cache_setitem, bind, get_engine, lift_res, modify_engine.
    rewrite He. simpl. rewrite Hset. simpl. split_and!; try done.
    intros k. case_decide as Hk.
    + destruct Hk as [-> _]. by eapply get_setitem_eq.
    + assert (k ≠ msg_id after) as Hka.
      { intros ->. apply Hk. by split. }
      rewrite (get_setitem_kept _ _ _ _ k Hset Hka).
      * case_decide; [by subst | by apply Hne].
      * right. simpl.
        pose proof (remove_key_present (msg_id before) (FIFOCache.items (message_cache (eng st)))) as Hlt.
        pose proof (ok_size _ Hok).
        assert (msg_id before ∈ (FIFOCache.items (message_cache (eng st))).*1)
          by (by eapply assoc_Some_key).
        specialize (Hlt ltac:(done)). lia.
Qed.

(** ** Forwarding a new message *)

Lemma wmessages_setitem_run k v st :
  (1 ≤ FIFOCache.maxsize (wmessages (eng st)))%nat →
  ∃ c, FIFOCache.setitem (wmessages (eng st)) k v = Ok c ∧
       wmessages_setitem k v st =
       (Ok tt, mkSt (set_wmessages c (eng st)) (world st) (log st)).
Proof.
  intros Hr. destruct (setitem_total (wmessages (eng st)) k v Hr) as [c Hc].
  exists c. split; [done|].
  unfold wmessages_setitem, bind, get_engine, lift_res, modify_engine.
  by rewrite Hc.
Qed.

Lemma message_cache_setitem_run k v st :
  (1 ≤ FIFOCache.maxsize (message_cache (eng st)))%nat →
  ∃ c, FIFOCache.setitem (message_cache (eng st)) k v = Ok c ∧
       message_cache_setitem k v st =
       (Ok tt, mkSt (set_message_cache c (eng st)) (world st) (log st)).
Proof.
  intros Hr. destruct (setitem_total (message_cache (eng st)) k v Hr) as [c Hc].
  exists c. split; [done|].
  unfold message_cache_setitem, bind, get_engine, lift_res, modify_engine.
  by rewrite Hc.
Qed.

Lemma same_index_refl s : same_index s s.
Proof. by repeat split. Qed.

Lemma same_index_trans s1 s2 s3 :
  same_index s1 s2 → same_index s2 s3 → same_index s1 s3.
Proof.
  intros (? & ? & ? & ?) (? & ? & ? & ?). repeat split; congruence.
Qed.

Section Forwarding.
Hypothesis send_succeeds : ∀ h p w, is_Ok (webhook_send h p w).1 = true.
Hypothesis to_file_raises :
  ∀ a b w x, (attachment_to_file a b w).1 = Raise x → is_HTTPException x = true.

Lemma attachments_loop_run attachments acc st :
  ∃ files st',
    foldM (λ results attach,
             try_except
               (let* as_file := call (CallToFile attach (is_spoiler attach))
                                  (attachment_to_file attach (is_spoiler attach)) in
                ret (results ++ [as_file]))
               is_HTTPException
               (ret results))
          acc attachments st = (Ok files, st') ∧
    eng st' = eng st ∧ posted (log st') = posted (log st).
Proof.
  revert acc st. induction attachments as [|a attachments IH]; intros acc st.
  - by exists acc, st.
  - rewrite foldM_cons. unfold try_except at 1, bind at 1. rewrite call_run.
    destruct (attachment_to_file a (is_spoiler a) (world st)) as [[f|x] w1] eqn:E; simpl.
    + destruct (IH (acc ++ [f])
                  (mkSt (eng st) w1
                     (log st ++ [{| entry_call := CallToFile a (is_spoiler a); entry_ok := true |}])))
        as (files & st' & -> & He & Hl).
      exists files, st'. split_and!; [done..|].
      rewrite Hl. simpl. by rewrite posted_snoc, app_nil_r.
    + rewrite (to_file_raises a (is_spoiler a) (world st) x) by (by rewrite E).
      simpl.
      destruct (IH acc
                  (mkSt (eng st) w1
                     (log st ++ [{| entry_call := CallToFile a (is_spoiler a); entry_ok := false |}])))
        as (files & st' & -> & He & Hl).
      exists files, st'. split_and!; [done..|].
      rewrite Hl. simpl. by rewrite posted_snoc, app_nil_r.
Qed.

Lemma forward_to_run message sent cid st :
  (cid ≠ msg_channel_id message → is_Some (hooks (eng st) !! cid)) →
  (1 ≤ FIFOCache.maxsize (wmessages (eng st)))%nat →
  ∃ sent' st',
    forward_to message sent cid st = (Ok sent', st') ∧
    same_index (eng st) (eng st') ∧
    FIFOCache.maxsize (wmessages (eng st')) = FIFOCache.maxsize (wmessages (eng st)) ∧
    posted (log st') =
    posted (log st) ++ (if decide (cid ≠ msg_channel_id message) then [cid] else []).
Proof.
  intros Hhook Hroom. unfold forward_to. case_decide as Hc.
  - assert (∃ files st1,
              (if truthy_list (msg_attachments message)
               then prepare_attachments (msg_attachments message)
               else ret []) st = (Ok files, st1) ∧
              eng st1 = eng st ∧ posted (log st1) = posted (log st))
      as (files & st1 & Hfiles & He1 & Hl1).
    { destruct (truthy_list _); [apply attachments_loop_run | by exists [], st]. }
    rewrite (bind_Ok _ _ _ _ _ Hfiles).
    unfold bind at 1, get_engine. simpl.
    destruct (Hhook Hc) as [hook Hh]. rewrite He1. unfold getitem. rewrite Hh.
    unfold bind at 1, ret at 1.
    match goal with |- context [call ?c ?op] => set (send := call c op) end.
    assert (∃ msg w1, send st1 =
              (Ok msg, mkSt (eng st) w1 (log st1 ++ [{| entry_call :=
                 CallSend cid hook
                   {| p_content := msg_content message;
                      p_username := display_name (msg_author message);
                      p_avatar_url := url (default (default_avatar (msg_author message))
                                                   (avatar (msg_author message)));
                      p_embeds := prepare_embeds message;
                      p_files := files |};
                 entry_ok := true |}])))
      as (msg & w1 & Hsend).
    { subst send. rewrite call_run, He1.
      match goal with |- context [webhook_send ?h ?p ?w] =>
        pose proof (send_succeeds h p w) as Hs;
        destruct (webhook_send h p w) as [[msg|x] w1] end; [|done].
      by exists msg, w1. }
    rewrite (bind_Ok _ _ _ _ _ Hsend).
    match goal with |- context [mkSt (eng st) w1 ?l] => set (st2 := mkSt (eng st) w1 l) end.
    destruct (wmessages_setitem_run (msg_id msg) (msg_id message) st2 Hroom)
      as (c & Hc' & Hset).
    rewrite (bind_Ok _ _ _ _ _ Hset). unfold ret.
    eexists _, _. split; [done|]. simpl. split_and!.
    + by repeat split.
    + by eapply setitem_maxsize.
    + by rewrite posted_snoc, Hl1.
  - exists sent, st. split_and!; [done | apply same_index_refl | done |].
    by rewrite app_nil_r.
Qed.

Lemma forward_loop_run message channelids sent st :
  (∀ c, c ∈ channelids → c ≠ msg_channel_id message → is_Some (hooks (eng st) !! c)) →
  (1 ≤ FIFOCache.maxsize (wmessages (eng st)))%nat →
  ∃ sent' st',
    foldM (forward_to message) sent channelids st = (Ok sent', st') ∧
    same_index (eng st) (eng st') ∧
    FIFOCache.maxsize (wmessages (eng st')) = FIFOCache.maxsize (wmessages (eng st)) ∧
    posted (log st') =
    posted (log st) ++ filter (λ c, c ≠ msg_channel_id message) channelids.
Proof.
  revert sent st. induction channelids as [|c channelids IH]; intros sent st Hhooks Hroom.
  - exists sent, st. split_and!; [done | apply same_index_refl | done |].
    by rewrite app_nil_r.
  - destruct (forward_to_run message sent c st) as (sent1 & st1 & Hstep & Hsame & Hmax & Hlog);
      [intros; apply Hhooks; [left | done] | done |].
    rewrite foldM_cons, Hstep.
    destruct (IH sent1 st1) as (sent' & st' & Hrest & Hsame' & Hmax' & Hlog').
    { intros c' Hin Hne. destruct Hsame as (_ & _ & -> & _).
      apply Hhooks; [by right | done]. }
    { by rewrite Hmax. }
    exists sent', st'. split_and!; [done | by eapply same_index_trans | congruence |].
    rewrite Hlog', Hlog, filter_cons, <- app_assoc. by case_decide.
Qed.

Lemma links_loop_run message linkids sent st :
  (∀ l, l ∈ linkids → is_Some (link_channels (eng st) !! l)) →
  (∀ c, c ∈ concat ((λ l, filter (λ c, c ≠ msg_channel_id message)
                             (default [] (link_channels (eng st) !! l))) <$> linkids) →
        is_Some (hooks (eng st) !! c)) →
  (1 ≤ FIFOCache.maxsize (wmessages (eng st)))%nat →
  ∃ sent' st',
    foldM (λ sent linkid,
             let* s := get_engine in
             let* channelids := getitem (link_channels s) linkid in
             foldM (forward_to message) sent channelids)
          sent linkids st = (Ok sent', st') ∧
    same_index (eng st) (eng st') ∧
    FIFOCache.maxsize (wmessages (eng st')) = FIFOCache.maxsize (wmessages (eng st)) ∧
    posted (log st') =
    posted (log st) ++
    concat ((λ l, filter (λ c, c ≠ msg_channel_id message)
                    (default [] (link_channels (eng st) !! l))) <$> linkids).
Proof.
  revert sent st. induction linkids as [|l linkids IH]; intros sent st Hlinks Hhooks Hroom.
  - exists sent, st. split_and!; [done | apply same_index_refl | done |].
    by rewrite app_nil_r.
  - destruct (Hlinks l) as [cs Hcs]; [left|].
    rewrite foldM_cons. unfold bind at 1 2, get_engine, getitem. rewrite Hcs.
    unfold ret at 1. simpl in Hhooks. rewrite Hcs in Hhooks. simpl in Hhooks.
    destruct (forward_loop_run message cs sent st) as (sent1 & st1 & Hstep & Hsame & Hmax & Hlog).
    { intros c Hin Hne. apply Hhooks, elem_of_app. left.
      by apply list_elem_of_filter. }
    { done. }
    rewrite Hstep.
    pose proof Hsame as (Hlc & _ & Hh & _).
    destruct (IH sent1 st1) as (sent' & st' & Hrest & Hsame' & Hmax' & Hlog').
    { intros l' Hin. rewrite Hlc. apply Hlinks. by right. }
    { intros c Hin. rewrite Hh. apply Hhooks, elem_of_app. right. by rewrite Hlc in Hin. }
    { by rewrite Hmax. }
    exists sent', st'. split_and!; [done | by eapply same_index_trans | congruence |].
    rewrite Hlog', Hlog, Hlc. simpl. rewrite Hcs. simpl. by rewrite <- app_assoc.
Qed.

Lemma on_message_run message st :
  truthy_opt (msg_webhook_id message) = false →
  (∀ l, l ∈ default [] (channel_links (eng st) !! msg_channel_id message) →
        is_Some (link_channels (eng st) !! l)) →
  (∀ c, c ∈ destinations (eng st) (msg_channel_id message) →
        is_Some (hooks (eng st) !! c)) →
  (1 ≤ FIFOCache.maxsize (message_cache (eng st)))%nat →
  (1 ≤ FIFOCache.maxsize (wmessages (eng st)))%nat →
  ∃ st', on_message message st = (Ok tt, st') ∧
         posted (log st') =
         posted (log st) ++ destinations (eng st) (msg_channel_id message).
Proof.
  intros Hweb Hlinks Hhooks Hfwd Hrev.
  unfold on_message. rewrite Hweb. unfold bind at 1, get_engine.
  unfold destinations in *.
  destruct (default [] (channel_links (eng st) !! msg_channel_id message))
    as [|l linkids] eqn:El.
  { exists st. by rewrite app_nil_r. }
  destruct (links_loop_run message (l :: linkids) [] st Hlinks Hhooks Hrev)
    as (sent & st1 & Hloop & (_ & _ & _ & Hmc) & Hmax & Hlog).
  cbn [truthy_list].
  rewrite (bind_Ok _ _ _ _ _ Hloop).
  destruct (truthy_list sent); [|by exists st1].
  destruct (wmessages_setitem_run (msg_id message) (msg_id message) st1) as (c & _ & Hset);
    [by rewrite Hmax|].
  rewrite (bind_Ok _ _ _ _ _ Hset).
  match goal with |- context [message_cache_setitem ?k ?v ?st2] =>
    destruct (message_cache_setitem_run k v st2) as (c' & _ & ->);
    [simpl; by rewrite Hmc|] end.
  eexists. split; [done|]. done.
Qed.

End Forwarding.

Lemma elem_of_concat {A} (x : A) (ls : list (list A)) :
  x ∈ concat ls ↔ ∃ l, x ∈ l ∧ l ∈ ls.
Proof.
  induction ls as [|l0 ls IH]; simpl.
  - split; [by intros ?%elem_of_nil | by intros (l & _ & ?%elem_of_nil)].
  - rewrite elem_of_app, IH. split.
    + intros [Hx|(l & Hx & Hl)]; [exists l0; split; [done | left] |].
      exists l. split; [done | by right].
    + intros (l & Hx & [->|Hl]%elem_of_cons); [by left | right; eauto].
Qed.

Lemma origin_not_destination s origin : origin ∉ destinations s origin.
Proof.
  unfold destinations. intros Hin.
  apply elem_of_concat in Hin as (cs & Hin & Hcs).
  apply list_elem_of_fmap in Hcs as (l & -> & _).
  by apply list_elem_of_filter in Hin as [? _].
Qed.

Lemma member_is_destination s origin l cs c :
  l ∈ default [] (channel_links s !! origin) →
  link_channels s !! l = Some cs → c ∈ cs → c ≠ origin →
  c ∈ destinations s origin.
Proof.
  intros Hl Hcs Hc Hne. unfold destinations.
  apply elem_of_concat. exists (filter (λ c, c ≠ origin) cs). split.
  - by apply list_elem_of_filter.
  - apply list_elem_of_fmap. exists l. by rewrite Hcs.
Qed.

(** C1, amended.  For a message without a webhook id, when every post
    succeeds, a download fails with nothing but an [HTTPException],
    every link of the origin channel is in the link index, every
    destination has a cached webhook and both caches have room for an
    entry, the new-message listener returns normally and posts one copy
    per link and member channel other than the origin, link by link:
    every member channel of every link of the origin channel gets a
    copy, the origin channel gets none, and a channel that several of
    these links share gets one copy for each of them.  The posts of the
    log were made on the platform, one after the other, each through
    the webhook cached for its channel and with the text, the author's
    name and avatar and the prepared embeds of the message. *)
Theorem on_message_posts_per_link message st :
  (∀ h p w, is_Ok (webhook_send h p w).1 = true) →
  (∀ a b w x, (attachment_to_file a b w).1 = Raise x → is_HTTPException x = true) →
  truthy_opt (msg_webhook_id message) = false →
  (∀ l, l ∈ default [] (channel_links (eng st) !! msg_channel_id message) →
        is_Some (link_channels (eng st) !! l)) →
  (∀ c, c ∈ destinations (eng st) (msg_channel_id message) →
        is_Some (hooks (eng st) !! c)) →
  (1 ≤ FIFOCache.maxsize (message_cache (eng st)))%nat →
  (1 ≤ FIFOCache.maxsize (wmessages (eng st)))%nat →
  (on_message message st).1 = Ok tt ∧
  posted (log (on_message message st).2) =
    posted (log st) ++ destinations (eng st) (msg_channel_id message) ∧
  (msg_channel_id message ∉ destinations (eng st) (msg_channel_id message)) ∧
  (∀ l cs c,
     l ∈ default [] (channel_links (eng st) !! msg_channel_id message) →
     link_channels (eng st) !! l = Some cs → c ∈ cs → c ≠ msg_channel_id message →
     c ∈ destinations (eng st) (msg_channel_id message)) ∧
  faithful st (on_message message st).2 ∧
  relayed message st (on_message message st).2.
Proof.
  intros Hsend Hfile Hweb Hlinks Hhooks Hfwd Hrev.
  pose proof (on_message_faithful st message st (faithful_refl st)) as Hfaithful.
  pose proof (on_message_relayed message st) as Hrelayed.
  destruct (on_message_run Hsend Hfile message st Hweb Hlinks Hhooks Hfwd Hrev)
    as (st' & Hrun & Hlog).
  rewrite Hrun in *.
  split_and!; [done | done | apply origin_not_destination | apply member_is_destination
               | done | done].
Qed.

(** ** Reloading the link index *)

Lemma same_links_refl s : same_links s s.
Proof. by split. Qed.

Lemma fetch_webhook_for_links channelid st :
  same_links (eng st) (eng (fetch_webhook_for channelid st).2).
Proof.
  unfold fetch_webhook_for, bind, get_engine. simpl.
  destruct (hooks (eng st) !! channelid); [apply same_links_refl|].
  rewrite call_run.
  destruct (linkhook_fetch channelid (world st)) as [[[row|]|e] w1]; simpl;
    [done| |done].
  unfold get_world. simpl.
  destruct (bot_get_channel channelid w1) as [channel|]; [|done].
  rewrite call_run. simpl.
  destruct (channel_create_webhook channel "LabRat Channel Link" w1)
    as [[hook|e] w2]; simpl; [|done].
  rewrite call_run. simpl.
  by destruct (linkhook_create channelid (hook_id hook) (hook_token hook) w2)
    as [[[]|e] w3].
Qed.

Lemma fetch_loop_links channelids st :
  same_links (eng st)
    (eng (foldM (λ _ channelid, fetch_webhook_for channelid >> ret tt) tt channelids st).2).
Proof.
  apply (foldM_frame (λ st', same_links (eng st) (eng st'))); [|apply same_links_refl].
  intros [] channelid st1 [Hlc Hcl]. unfold bind.
  pose proof (fetch_webhook_for_links channelid st1) as [Hlc' Hcl'].
  destruct (fetch_webhook_for channelid st1) as [[hook|e] st2]; simpl in *;
    split; congruence.
Qed.

Lemma reload_links_raises st e st' :
  reload_links st = (Raise e, st') → same_links (eng st) (eng st').
Proof.
  unfold reload_links. unfold bind at 1. rewrite call_run.
  destruct (select_channel_links (world st)) as [[records|e0] w1]; simpl;
    [|intros [= _ <-]; apply same_links_refl].
  set (channelids := keys_in_order (channelid <$> records)).
  match goal with |- context [mkSt (eng st) w1 ?l] => set (st1 := mkSt (eng st) w1 l) end.
  unfold bind at 1.
  assert (∀ r st2,
            (if truthy_list channelids
             then call (CallFetchHooks channelids) (linkhook_fetch_where channelids)
             else ret tt) st1 = (r, st2) → eng st2 = eng st) as Hfetch.
  { destruct (truthy_list channelids).
    - intros r st2. rewrite call_run. by intros [= _ <-].
    - by intros r st2 [= _ <-]. }
  match goal with |- context [(if truthy_list channelids then ?a else ?b) st1] =>
    destruct ((if truthy_list channelids then a else b) st1) as [[[]|e1] st2] eqn:E2
  end; specialize (Hfetch _ _ eq_refl).
  - unfold bind at 1.
    pose proof (fetch_loop_links channelids st2) as Hloop.
    destruct (foldM _ tt channelids st2) as [[[]|e2] st3]; simpl in *; [done|].
    intros [= _ <-]. by rewrite Hfetch in Hloop.
  - intros [= _ <-]. rewrite Hfetch. apply same_links_refl.
Qed.

(** C6.  If the bulk fetch of the memberships fails, [reload_links]
    fails with the same exception and the cog's state is what it was;
    and whenever [reload_links] fails, at the bulk fetch or at any later
    step, the channel-to-links and link-to-channels maps are exactly the
    ones loaded before: the fetched records are assigned only once
    every step has succeeded. *)
Theorem reload_links_failure_keeps_index st :
  (∀ e w', select_channel_links (world st) = (Raise e, w') →
           (reload_links st).1 = Raise e ∧ eng (reload_links st).2 = eng st) ∧
  (∀ e, (reload_links st).1 = Raise e →
        channel_links (eng (reload_links st).2) = channel_links (eng st) ∧
        link_channels (eng (reload_links st).2) = link_channels (eng st)).
Proof.
  split.
  - intros e w' Hsel. unfold reload_links, bind. rewrite call_run, Hsel. by split.
  - intros e He.
    destruct (reload_links st) as [r st'] eqn:E. simpl in *. subst r.
    by destruct (reload_links_raises _ _ _ E).
Qed.

(** ** What every listener keeps *)

Section Frames.
Variable Q : Engine → Prop.
Hypothesis set_reverse : ∀ s k v c,
  Q s → FIFOCache.setitem (wmessages s) k v = Ok c → Q (set_wmessages c s).
Hypothesis set_forward : ∀ s k v c,
  Q s → FIFOCache.setitem (message_cache s) k v = Ok c → Q (set_message_cache c s).
Hypothesis del_forward : ∀ s k,
  Q s → Q (set_message_cache (FIFOCache.delitem (message_cache s) k) s).

Lemma call_keeps {A} c (op : W → Res A * W) st :
  Q (eng st) → Q (eng (call c op st).2).
Proof. by rewrite call_run. Qed.

Lemma wmessages_setitem_keeps k v st :
  Q (eng st) → Q (eng (wmessages_setitem k v st).2).
Proof.
  intros HQ. unfold wmessages_setitem, bind, get_engine, lift_res, modify_engine.
  destruct (FIFOCache.setitem (wmessages (eng st)) k v) as [c|e] eqn:E; simpl; [|done].
  by eapply set_reverse.
Qed.

Lemma message_cache_setitem_keeps k v st :
  Q (eng st) → Q (eng (message_cache_setitem k v st).2).
Proof.
  intros HQ. unfold message_cache_setitem, bind, get_engine, lift_res, modify_engine.
  destruct (FIFOCache.setitem (message_cache (eng st)) k v) as [c|e] eqn:E; simpl; [|done].
  by eapply set_forward.
Qed.

Lemma message_cache_pop_keeps k st :
  Q (eng st) → Q (eng (message_cache_pop k st).2).
Proof.
  intros HQ. unfold message_cache_pop, bind, get_engine, modify_engine.
  pose proof (pop_snd (message_cache (eng st)) k []) as Hs.
  destruct (FIFOCache.pop _ _ _) as [v c]. simpl in *. subst c. by apply del_forward.
Qed.

Lemma prepare_attachments_keeps attachments st :
  Q (eng st) → Q (eng (prepare_attachments attachments st).2).
Proof.
  intros HQ. unfold prepare_attachments.
  apply (foldM_frame (λ st', Q (eng st'))); [|done].
  intros results attach st1 HQ1.
  apply (try_except_frame (λ st', Q (eng st'))); [|done].
  apply (bind_frame (λ st', Q (eng st'))); [by apply call_keeps | done].
Qed.

Lemma forward_to_keeps message sent channelid st :
  Q (eng st) → Q (eng (forward_to message sent channelid st).2).
Proof.
  intros HQ. unfold forward_to. case_decide; [|done].
  apply (bind_frame (λ st', Q (eng st'))).
  { destruct (truthy_list _); [by apply prepare_attachments_keeps | done]. }
  intros files st1 HQ1.
  apply (bind_frame (λ st', Q (eng st'))); [done|]. intros s st2 HQ2.
  apply (bind_frame (λ st', Q (eng st'))).
  { unfold getitem. by destruct (hooks s !! channelid). }
  intros hook st3 HQ3.
  apply (bind_frame (λ st', Q (eng st'))); [by apply call_keeps|].
  intros msg st4 HQ4.
  apply (bind_frame (λ st', Q (eng st'))); [by apply wmessages_setitem_keeps | done].
Qed.

Lemma on_message_keeps message st :
  Q (eng st) → Q (eng (on_message message st).2).
Proof.
  intros HQ. unfold on_message. destruct (truthy_opt _); [done|].
  apply (bind_frame (λ st', Q (eng st'))); [done|]. intros s st1 HQ1.
  destruct (truthy_list (default [] _)); [|done].
  apply (bind_frame (λ st', Q (eng st'))).
  - apply (foldM_frame (λ st', Q (eng st'))); [|done].
    intros sent linkid st2 HQ2.
    apply (bind_frame (λ st', Q (eng st'))); [done|]. intros s' st3 HQ3.
    apply (bind_frame (λ st', Q (eng st'))).
    { unfold getitem. by destruct (link_channels s' !! linkid). }
    intros channelids st4 HQ4.
    apply (foldM_frame (λ st', Q (eng st'))); [|done].
    intros. by apply forward_to_keeps.
  - intros sent st2 HQ2. destruct (truthy_list sent); [|done].
    apply (bind_frame (λ st', Q (eng st'))); [by apply wmessages_setitem_keeps|].
    intros. by apply message_cache_setitem_keeps.
Qed.

Lemma on_message_edit_keeps before after st :
  Q (eng st) → Q (eng (on_message_edit before after st).2).
Proof.
  intros HQ. unfold on_message_edit.
  apply (bind_frame (λ st', Q (eng st'))); [by apply message_cache_pop_keeps|].
  intros cached_sent st1 HQ1.
  apply (bind_frame (λ st', Q (eng st'))).
  - apply (foldM_frame (λ st', Q (eng st'))); [|done].
    intros acc [cid m] st2 HQ2. rewrite edit_copy_run.
    case_decide; [|done].
    destruct (message_edit m _ _ (world st2)) as [[m'|x] w1]; simpl; [done|].
    by destruct (is_NotFound x).
  - intros new_sent st2 HQ2. destruct (truthy_list new_sent); [|done].
    by apply message_cache_setitem_keeps.
Qed.

Lemma on_message_delete_keeps message st :
  Q (eng st) → Q (eng (on_message_delete message st).2).
Proof.
  intros HQ. unfold on_message_delete.
  apply (bind_frame (λ st', Q (eng st'))); [done|]. intros s st1 HQ1.
  destruct (truthy_opt _); [|done].
  apply (bind_frame (λ st', Q (eng st'))); [by apply message_cache_pop_keeps|].
  intros cached_sent st2 HQ2.
  apply (foldM_frame (λ st', Q (eng st'))); [|done].
  intros [] c st3 HQ3. unfold delete_copy.
  apply (try_except_frame (λ st', Q (eng st'))); [|done].
  case_decide; [by apply call_keeps | done].
Qed.

Lemma handle_keeps ev st : Q (eng st) → Q (eng (handle ev st).2).
Proof.
  intros HQ. destruct ev; simpl.
  - by apply on_message_keeps.
  - by apply on_message_edit_keeps.
  - by apply on_message_delete_keeps.
  - by rewrite on_reaction_add_engine.
Qed.

End Frames.

Lemma handle_caches_ok ev st :
  cache_ok (message_cache (eng st)) ∧ cache_ok (wmessages (eng st)) →
  cache_ok (message_cache (eng (handle ev st).2)) ∧
  cache_ok (wmessages (eng (handle ev st).2)).
Proof.
  apply (handle_keeps (λ s, cache_ok (message_cache s) ∧ cache_ok (wmessages s))).
  - intros s k v c [? ?] Hset. split; [done | by eapply setitem_ok].
  - intros s k v c [? ?] Hset. split; [by eapply setitem_ok | done].
  - intros s k [? ?]. split; [by apply delitem_ok | done].
Qed.

Lemma handle_capacity ev st :
  FIFOCache.maxsize (message_cache (eng (handle ev st).2)) =
    FIFOCache.maxsize (message_cache (eng st)) ∧
  FIFOCache.maxsize (wmessages (eng (handle ev st).2)) =
    FIFOCache.maxsize (wmessages (eng st)).
Proof.
  apply (handle_keeps
           (λ s, FIFOCache.maxsize (message_cache s) = FIFOCache.maxsize (message_cache (eng st)) ∧
                 FIFOCache.maxsize (wmessages s) = FIFOCache.maxsize (wmessages (eng st))));
    [| | |done].
  - intros s k v c [? ?] Hset. split; [done|]. simpl.
    apply setitem_maxsize in Hset. congruence.
  - intros s k v c [? ?] Hset. split; [|done]. simpl.
    apply setitem_maxsize in Hset. congruence.
  - by intros s k [? ?].
Qed.

(** ** The two caches along a run *)

Lemma kept_or_dropped s s' o :
  is_Some (FIFOCache.get (message_cache s) o) →
  is_Some (FIFOCache.get (message_cache s') o) ∨ o ∈ dropped s s'.
Proof.
  intros Hin. destruct (FIFOCache.get (message_cache s') o) eqn:E; [by left; eauto|].
  right. unfold dropped. apply list_elem_of_filter. split; [done|].
  by apply get_is_Some.
Qed.

Lemma prepare_attachments_engine attachments st :
  eng (prepare_attachments attachments st).2 = eng st.
Proof.
  unfold prepare_attachments.
  apply (foldM_frame (λ st', eng st' = eng st)); [|done].
  intros results attach st1 <-.
  apply (try_except_frame (λ st', eng st' = eng st1)); [|done].
  apply (bind_frame (λ st', eng st' = eng st1)); [by rewrite call_run | done].
Qed.

Lemma forward_to_inv message sent cid st sent' st' :
  forward_to message sent cid st = (Ok sent', st') →
  (sent' = sent ∧ st' = st) ∨
  (∃ msg c,
     FIFOCache.setitem (wmessages (eng st)) (msg_id msg) (msg_id message) = Ok c ∧
     eng st' = set_wmessages c (eng st) ∧ sent' = sent ++ [(cid, msg)]).
Proof.
  unfold forward_to. case_decide; [|intros [= <- <-]; by left].
  intros (files & st1 & Hfiles & Hrun)%bind_inv.
  assert (eng st1 = eng st) as He1.
  { destruct (truthy_list _).
    - pose proof (prepare_attachments_engine (msg_attachments message) st) as He.
      by rewrite Hfiles in He.
    - by injection Hfiles as _ <-. }
  apply bind_inv in Hrun as (s & st2 & [= <- <-] & Hrun).
  apply bind_inv in Hrun as (hook & st2 & Hhook & Hrun).
  assert (st2 = st1) as ->.
  { unfold getitem in Hhook. destruct (hooks (eng st1) !! cid); [|done].
    by injection Hhook as _ <-. }
  apply bind_inv in Hrun as (msg & st3 & Hsend & Hrun).
  rewrite call_run in Hsend. injection Hsend as _ <-.
  apply bind_inv in Hrun as ([] & st4 & Hset & [= <- <-]).
  unfold wmessages_setitem, bind, get_engine, lift_res, modify_engine in Hset.
  simpl in Hset. rewrite He1 in Hset.
  destruct (FIFOCache.setitem (wmessages (eng st)) (msg_id msg) (msg_id message))
    as [c|e] eqn:E; [|done].
  injection Hset as <-. right. by exists msg, c.
Qed.

(** What the two loops of [on_message] keep: only the reverse index
    moves, it stays in order, and each of its entries is an old one or
    maps a copy that was just sent to the message. *)
Lemma forward_loops_inv message linkids st sent st' :
  cache_ok (wmessages (eng st)) →
  foldM (λ sent linkid,
           let* s := get_engine in
           let* channelids := getitem (link_channels s) linkid in
           foldM (forward_to message) sent channelids)
        [] linkids st = (Ok sent, st') →
  same_index (eng st) (eng st') ∧ cache_ok (wmessages (eng st')) ∧
  (∀ k o, FIFOCache.get (wmessages (eng st')) k = Some o →
          FIFOCache.get (wmessages (eng st)) k = Some o ∨
          (o = msg_id message ∧ sent ≠ [])).
Proof.
  intros Hok.
  set (I := λ (sent : list Copy) (st1 : St W),
         same_index (eng st) (eng st1) ∧ cache_ok (wmessages (eng st1)) ∧
         (∀ k o, FIFOCache.get (wmessages (eng st1)) k = Some o →
                 FIFOCache.get (wmessages (eng st)) k = Some o ∨
                 (o = msg_id message ∧ sent ≠ []))).
  apply (foldM_inv I); [|by split_and!; [apply same_index_refl|done|eauto]].
  intros sent1 linkid st1 sent2 st2 _ HI.
  intros (s & st1' & [= <- <-] & Hrun)%bind_inv.
  apply bind_inv in Hrun as (channelids & st1' & Hget & Hrun).
  assert (st1' = st1) as ->.
  { unfold getitem in Hget. destruct (link_channels (eng st1) !! linkid); [|done].
    by injection Hget as _ <-. }
  revert Hrun. apply (foldM_inv I); [|done].
  clear HI. intros sent3 cid st3 sent4 st4 _ (Hsame & Hok1 & Hrev).
  intros [[-> ->]|(msg & c & Hset & He & ->)]%forward_to_inv; [done|].
  unfold I. rewrite He. split_and!.
  - destruct Hsame as (? & ? & ? & ?). by repeat split.
  - simpl. by eapply setitem_ok.
  - simpl. intros k o Hk. destruct (decide (k = msg_id msg)) as [->|Hne].
    + rewrite (get_setitem_eq _ _ _ _ Hset) in Hk. injection Hk as <-.
      right. split; [done|]. by destruct sent3.
    + apply (get_setitem_Some _ _ _ _ _ _ (ok_keys _ Hok1) Hset Hne) in Hk.
      destruct (Hrev k o Hk) as [?|[-> ?]]; [by left|].
      right. split; [done|]. by destruct sent3.
Qed.

Lemma on_message_step message st st' :
  engine_ok (eng st) → on_message message st = (Ok tt, st') →
  engine_ok (eng st') ∧
  (∀ k o, FIFOCache.get (wmessages (eng st')) k = Some o →
          FIFOCache.get (wmessages (eng st)) k = Some o ∨
          is_Some (FIFOCache.get (message_cache (eng st')) o)).
Proof.
  intros Hok. unfold on_message.
  destruct (truthy_opt _); [intros [= <-]; split; [done | by left]|].
  unfold bind at 1, get_engine.
  destruct (truthy_list (default [] _)); [|intros [= <-]; split; [done | by left]].
  intros (sent & st1 & Hloop & Hfin)%bind_inv.
  apply forward_loops_inv in Hloop as ((Hlc & Hcl & Hh & Hmc) & Hok1 & Hrev);
    [|apply Hok].
  destruct sent as [|c0 sent]; simpl in Hfin.
  - injection Hfin as <-. split.
    + destruct Hok as [Hf Hr Ho]. split; [by rewrite Hmc | done | by rewrite Hmc].
    + intros k o Hk. destruct (Hrev k o Hk) as [?|[_ ?]]; [by left | done].
  - apply bind_inv in Hfin as ([] & st2 & Hset1 & Hset2).
    unfold wmessages_setitem, bind, get_engine, lift_res, modify_engine in Hset1.
    destruct (FIFOCache.setitem (wmessages (eng st1)) _ _) as [wm2|e] eqn:E1; [|done].
    injection Hset1 as <-.
    unfold message_cache_setitem, bind, get_engine, lift_res, modify_engine in Hset2.
    simpl in Hset2. rewrite Hmc in Hset2.
    destruct (FIFOCache.setitem (message_cache (eng st)) _ _) as [mc2|e] eqn:E2; [|done].
    injection Hset2 as <-. simpl. split.
    + destruct Hok as [Hf Hr Ho]. split; simpl.
      * by eapply setitem_ok.
      * by eapply setitem_ok.
      * intros o copies Hget. destruct (decide (o = msg_id message)) as [->|Hne].
        -- rewrite (get_setitem_eq _ _ _ _ E2) in Hget. injection Hget as <-.
           exists (msg_channel_id message), message. split; [|done].
           right. apply elem_of_app. right. left.
        -- apply (get_setitem_Some _ _ _ _ _ _ (ok_keys _ Hf) E2 Hne) in Hget.
           by apply Ho.
    + intros k o Hk.
      assert (is_Some (FIFOCache.get mc2 (msg_id message))) as Hnew
        by (rewrite (get_setitem_eq _ _ _ _ E2); eauto).
      destruct (decide (k = msg_id message)) as [->|Hne].
      * rewrite (get_setitem_eq _ _ _ _ E1) in Hk. injection Hk as <-. by right.
      * apply (get_setitem_Some _ _ _ _ _ _ (ok_keys _ Hok1) E1 Hne) in Hk.
        destruct (Hrev k o Hk) as [?|[-> _]]; [by left | by right].
Qed.

Lemma on_message_forward message st st' :
  cache_ok (wmessages (eng st)) → on_message message st = (Ok tt, st') →
  message_cache (eng st') = message_cache (eng st) ∨
  ∃ v, FIFOCache.setitem (message_cache (eng st)) (msg_id message) v =
       Ok (message_cache (eng st')).
Proof.
  intros Hok. unfold on_message.
  destruct (truthy_opt _); [intros [= <-]; by left|].
  unfold bind at 1, get_engine.
  destruct (truthy_list (default [] _)); [|intros [= <-]; by left].
  intros (sent & st1 & Hloop & Hfin)%bind_inv.
  apply forward_loops_inv in Hloop as ((_ & _ & _ & Hmc) & _ & _); [|done].
  destruct (truthy_list sent); [|injection Hfin as <-; by left].
  apply bind_inv in Hfin as ([] & st2 & Hset1 & Hset2).
  unfold wmessages_setitem, bind, get_engine, lift_res, modify_engine in Hset1.
  destruct (FIFOCache.setitem (wmessages (eng st1)) _ _) as [wm2|e]; [|done].
  injection Hset1 as <-.
  unfold message_cache_setitem, bind, get_engine, lift_res, modify_engine in Hset2.
  simpl in Hset2. rewrite Hmc in Hset2.
  destruct (FIFOCache.setitem (message_cache (eng st)) _ _) as [mc2|e] eqn:E2; [|done].
  injection Hset2 as <-. right. eauto.
Qed.

(** While a new message is handled, the forward cache loses a key only
    when it is full and the message's id is a new key: what [run]
    lists as evicted was evicted for capacity. *)
Lemma new_message_drops_only_when_full message st st' :
  engine_ok (eng st) → on_message message st = (Ok tt, st') →
  dropped (eng st) (eng st') ≠ [] →
  length (FIFOCache.items (message_cache (eng st))) =
    FIFOCache.maxsize (message_cache (eng st)) ∧
  msg_id message ∉ FIFOCache.keys (message_cache (eng st)).
Proof.
  intros [Hf Hr _] Hrun Hdrop.
  destruct (dropped (eng st) (eng st')) as [|x l] eqn:Ed; [done|].
  assert (x ∈ dropped (eng st) (eng st')) as Hx by (rewrite Ed; left).
  apply list_elem_of_filter in Hx as [Hnone Hin]. apply get_is_Some in Hin.
  destruct (on_message_forward _ _ _ Hr Hrun) as [Hsame|[v Hset]].
  { rewrite Hsame in Hnone. rewrite Hnone in Hin. by destruct Hin. }
  assert (x ≠ msg_id message) as Hne.
  { intros ->. by rewrite (get_setitem_eq _ _ _ _ Hset) in Hnone. }
  assert (¬ (FIFOCache.contains (message_cache (eng st)) (msg_id message) = true ∨
             (length (FIFOCache.items (message_cache (eng st))) <
              FIFOCache.maxsize (message_cache (eng st)))%nat)) as Hfull.
  { intros Hroom. rewrite (get_setitem_kept _ _ _ _ x Hset Hne Hroom) in Hnone.
    rewrite Hnone in Hin. by destruct Hin. }
  pose proof (ok_size _ Hf). split.
  - destruct (decide (length (FIFOCache.items (message_cache (eng st))) <
                      FIFOCache.maxsize (message_cache (eng st)))%nat); [|lia].
    destruct Hfull. by right.
  - intros Hk%contains_true. destruct Hfull. by left.
Qed.

Lemma message_cache_pop_run k st :
  message_cache_pop k st =
  (Ok (default [] (FIFOCache.get (message_cache (eng st)) k)),
   mkSt (set_message_cache (FIFOCache.delitem (message_cache (eng st)) k) (eng st))
        (world st) (log st)).
Proof.
  unfold message_cache_pop, bind, get_engine, modify_engine.
  pose proof (pop_fst (message_cache (eng st)) k []) as Hf.
  pose proof (pop_snd (message_cache (eng st)) k []) as Hs.
  destruct (FIFOCache.pop _ _ _) as [v c]. simpl in *. by subst.
Qed.

Lemma edit_loop_engine before after copies acc st :
  eng (foldM (edit_copy before after) acc copies st).2 = eng st.
Proof.
  apply (foldM_frame (λ st', eng st' = eng st)); [|done].
  intros acc1 [cid m] st1 <-. rewrite edit_copy_run.
  case_decide; [|done].
  destruct (message_edit m _ _ (world st1)) as [[m'|x] w1]; simpl; [done|].
  by destruct (is_NotFound x).
Qed.

(** The edited message itself is never dropped from the copy list. *)
Lemma edit_loop_keeps_self before after copies acc st new_sent st' :
  foldM (edit_copy before after) acc copies st = (Ok new_sent, st') →
  (∀ x, x ∈ acc → x ∈ new_sent) ∧
  (∀ c m, (c, m) ∈ copies → msg_id m = msg_id before → (c, m) ∈ new_sent).
Proof.
  revert acc st. induction copies as [|[cid m0] copies IH]; intros acc st.
  - intros [= <- <-]. split; [done|]. by intros c m ?%elem_of_nil.
  - rewrite foldM_cons, edit_copy_run. case_decide as Hid.
    + destruct (message_edit m0 _ _ (world st)) as [[m'|x] w1]; simpl.
      * intros [Hacc Hself]%IH. split.
        -- intros x Hx. apply Hacc, elem_of_app. by left.
        -- intros c m [[= -> ->]|Hin]%elem_of_cons Hm; [done | by apply Hself].
      * destruct (is_NotFound x); [|done]. intros [Hacc Hself]%IH. split; [done|].
        intros c m [[= -> ->]|Hin]%elem_of_cons Hm; [done | by apply Hself].
    + intros [Hacc Hself]%IH. split.
      * intros x Hx. apply Hacc, elem_of_app. by left.
      * intros c m [[= -> ->]|Hin]%elem_of_cons Hm; [|by apply Hself].
        apply Hacc, elem_of_app. right. left.
Qed.

Lemma on_message_edit_step before after st st' :
  engine_ok (eng st) → msg_id before = msg_id after →
  on_message_edit before after st = (Ok tt, st') →
  engine_ok (eng st') ∧ wmessages (eng st') = wmessages (eng st) ∧
  (∀ o, is_Some (FIFOCache.get (message_cache (eng st)) o) →
        is_Some (FIFOCache.get (message_cache (eng st')) o)).
Proof.
  intros [Hf Hr Ho] Hid. unfold on_message_edit.
  intros (cached & st1 & Hpop & Hrun)%bind_inv.
  rewrite message_cache_pop_run in Hpop. injection Hpop as <- <-.
  apply bind_inv in Hrun as (new_sent & st2 & Hloop & Hfin).
  pose proof (edit_loop_engine before after
                (default [] (FIFOCache.get (message_cache (eng st)) (msg_id before))) []
                (mkSt (set_message_cache
                         (FIFOCache.delitem (message_cache (eng st)) (msg_id before)) (eng st))
                      (world st) (log st))) as He.
  rewrite Hloop in He. simpl in He.
  destruct (FIFOCache.get (message_cache (eng st)) (msg_id before)) as [copies|] eqn:Eg.
  - destruct (Ho _ _ Eg) as (c & m & Hin & Hm).
    apply edit_loop_keeps_self in Hloop as [_ Hself].
    specialize (Hself c m Hin Hm).
    destruct new_sent as [|c0 new_sent]; [by apply elem_of_nil in Hself|].
    simpl in Hfin.
    unfold message_cache_setitem, bind, get_engine, lift_res, modify_engine in Hfin.
    rewrite He in Hfin. simpl in Hfin.
    destruct (FIFOCache.setitem _ (msg_id after) _) as [mc2|e] eqn:E2; [|done].
    injection Hfin as <-. simpl.
    pose proof (delitem_ok _ (msg_id before) Hf) as Hf1.
    split_and!; [split; simpl| done |].
    + by eapply setitem_ok.
    + done.
    + intros o cs Hget. destruct (decide (o = msg_id after)) as [->|Hne].
      * rewrite (get_setitem_eq _ _ _ _ E2) in Hget. injection Hget as <-.
        exists c, m. split; [done | congruence].
      * apply (get_setitem_Some _ _ _ _ _ _ (ok_keys _ Hf1) E2 Hne) in Hget.
        apply get_delitem_Some in Hget. by apply Ho.
    + intros o Hsome. destruct (decide (o = msg_id after)) as [->|Hne].
      * rewrite (get_setitem_eq _ _ _ _ E2). eauto.
      * rewrite (get_setitem_kept _ _ _ _ o E2 Hne).
        -- rewrite get_delitem_ne by congruence. done.
        -- right. simpl.
           pose proof (remove_key_present (msg_id before)
                         (FIFOCache.items (message_cache (eng st)))) as Hlt.
           pose proof (ok_size _ Hf).
           assert (msg_id before ∈ (FIFOCache.items (message_cache (eng st))).*1)
             by (by eapply assoc_Some_key).
           specialize (Hlt ltac:(done)). lia.
  - simpl in Hloop. injection Hloop as <- <-. simpl in Hfin. injection Hfin as <-.
    simpl. rewrite delitem_absent by done. by split_and!.
Qed.

Lemma delete_loop_engine message copies st :
  eng (foldM (delete_copy message) tt copies st).2 = eng st.
Proof.
  apply (foldM_frame (λ st', eng st' = eng st)); [|done].
  intros [] c st1 <-. unfold delete_copy.
  apply (try_except_frame (λ st', eng st' = eng st1)); [|done].
  case_decide; [by rewrite call_run | done].
Qed.

Lemma on_message_delete_step message st :
  engine_ok (eng st) →
  engine_ok (eng (on_message_delete message st).2) ∧
  wmessages (eng (on_message_delete message st).2) = wmessages (eng st).
Proof.
  intros [Hf Hr Ho]. unfold on_message_delete, bind, get_engine.
  destruct (truthy_opt _); [|done].
  rewrite message_cache_pop_run.
  match goal with |- context [foldM _ tt ?l ?st1] =>
    rewrite (delete_loop_engine message l st1) end.
  simpl. split; [|done]. split; simpl; [by apply delitem_ok | done |].
  intros o cs Hget. apply get_delitem_Some in Hget. by apply Ho.
Qed.

Lemma run_inv evs : ∀ st E D st' E' D',
  engine_ok (eng st) →
  (∀ k o, FIFOCache.get (wmessages (eng st)) k = Some o →
          is_Some (FIFOCache.get (message_cache (eng st)) o) ∨ o ∈ E ∨ o ∈ D) →
  Forall keeps_id evs →
  run evs st E D = Some (st', E', D') →
  ∀ k o, FIFOCache.get (wmessages (eng st')) k = Some o →
         is_Some (FIFOCache.get (message_cache (eng st')) o) ∨ o ∈ E' ∨ o ∈ D'.
Proof.
  induction evs as [|ev evs IH]; intros st E D st' E' D' Hok Hrev Hids; simpl.
  - by intros [= <- <- <-].
  - apply Forall_cons in Hids as [Hid Hids].
    destruct (handle ev st) as [[[]|e] st1] eqn:Eh; [|done].
    destruct ev as [message|before after|message|reaction user]; simpl in Eh.
    + destruct (on_message_step _ _ _ Hok Eh) as [Hok1 Hrev1].
      apply IH; [done | | done].
      intros k o Hk. destruct (Hrev1 k o Hk) as [Hold|Hnew]; [|by left].
      destruct (Hrev k o Hold) as [Hin|[?|?]].
      * destruct (kept_or_dropped (eng st) (eng st1) o Hin) as [?|?]; [by left|].
        right. left. apply elem_of_app. by right.
      * right. left. apply elem_of_app. by left.
      * by right; right.
    + destruct (on_message_edit_step _ _ _ _ Hok Hid Eh) as (Hok1 & Hwm & Hkeep).
      apply IH; [done | | done].
      intros k o Hk. rewrite Hwm in Hk.
      destruct (Hrev k o Hk) as [Hin|?]; [left; by apply Hkeep | by right].
    + pose proof (on_message_delete_step message st Hok) as [Hok1 Hwm].
      rewrite Eh in Hok1, Hwm. simpl in *.
      apply IH; [done | | done].
      intros k o Hk. rewrite Hwm in Hk.
      destruct (Hrev k o Hk) as [Hin|[?|?]].
      * destruct (kept_or_dropped (eng st) (eng st1) o Hin) as [?|?]; [by left|].
        right. right. apply elem_of_app. by right.
      * by right; left.
      * right. right. apply elem_of_app. by left.
    + pose proof (on_reaction_add_engine reaction user st) as He.
      rewrite Eh in He. simpl in He.
      apply IH; [by rewrite He | by rewrite He | done].
Qed.

(** C4, amended.  Start from a state whose caches are in order and in
    which every id of the reverse index has a forward entry under its
    origin id, and run any sequence of new-message, edit, delete and
    reaction events whose handlers all return normally (an edit keeping
    the id of the message).  Then every id of the reverse index has a
    forward entry under its origin id, unless that entry was evicted
    while a new message was recorded or was removed by the handling of
    a deletion: the deletion listener removes the forward entry and
    leaves the reverse entries of the deleted correlation in place. *)
Theorem reverse_index_has_forward_entry evs st st' evicted deleted :
  engine_ok (eng st) →
  (∀ k o, FIFOCache.get (wmessages (eng st)) k = Some o →
          is_Some (FIFOCache.get (message_cache (eng st)) o)) →
  Forall keeps_id evs →
  run evs st [] [] = Some (st', evicted, deleted) →
  ∀ k o, FIFOCache.get (wmessages (eng st')) k = Some o →
         is_Some (FIFOCache.get (message_cache (eng st')) o) ∨
         o ∈ evicted ∨ o ∈ deleted.
Proof.
  intros Hok Hrev Hids Hrun. eapply run_inv; [done | | done | done].
  intros k o Hk. left. by eapply Hrev.
Qed.

(** ** Absent correlations *)

Lemma set_message_cache_same s : set_message_cache (message_cache s) s = s.
Proof. by destruct s. Qed.

Lemma on_message_edit_absent before after st :
  FIFOCache.get (message_cache (eng st)) (msg_id before) = None →
  on_message_edit before after st = (Ok tt, st).
Proof.
  intros Hn. unfold on_message_edit, bind. rewrite message_cache_pop_run, Hn.
  simpl. rewrite delitem_absent by done. rewrite set_message_cache_same.
  by destruct st.
Qed.

Lemma on_message_delete_absent message st :
  FIFOCache.get (wmessages (eng st)) (msg_id message) = None ∨
  (∃ o, FIFOCache.get (wmessages (eng st)) (msg_id message) = Some o ∧
        FIFOCache.get (message_cache (eng st)) o = None) →
  on_message_delete message st = (Ok tt, st).
Proof.
  unfold on_message_delete, bind, get_engine. intros [->|(o & -> & Hn)]; [done|].
  simpl. destruct (o =? 0); [done|]. simpl.
  rewrite message_cache_pop_run, Hn. simpl.
  rewrite delitem_absent by done. rewrite set_message_cache_same.
  by destruct st.
Qed.

Lemma on_reaction_add_absent reaction user st :
  FIFOCache.get (wmessages (eng st)) (msg_id (reaction_message reaction)) = None ∨
  (∃ o, FIFOCache.get (wmessages (eng st)) (msg_id (reaction_message reaction)) = Some o ∧
        FIFOCache.get (message_cache (eng st)) o = None) →
  on_reaction_add reaction user st = (Ok tt, st).
Proof.
  unfold on_reaction_add, bind, get_engine. intros [->|(o & -> & Hn)]; [done|].
  simpl. rewrite Hn. by destruct (_ && _).
Qed.

(** C9.  The forward cache is built with capacity 200 and the reverse
    cache with capacity 600, and no listener changes a capacity.
    Inserting a new key into a cache that holds as many entries as its
    capacity succeeds, removes exactly the entry inserted first and
    appends the new one: the evicted key is then absent, the new key is
    present, every other key keeps its value.  A listener that finds no
    correlation (none in the reverse index, or none in the forward
    cache) returns normally without any call and without any change. *)
Theorem caches_evict_oldest_first :
  (FIFOCache.maxsize (message_cache init) = 200%nat ∧
   FIFOCache.maxsize (wmessages init) = 600%nat) ∧
  (∀ ev st,
     FIFOCache.maxsize (message_cache (eng (handle ev st).2)) =
       FIFOCache.maxsize (message_cache (eng st)) ∧
     FIFOCache.maxsize (wmessages (eng (handle ev st).2)) =
       FIFOCache.maxsize (wmessages (eng st))) ∧
  (∀ V (c : FIFOCache.t V) k v k0 v0 rest,
     cache_ok c →
     FIFOCache.items c = (k0, v0) :: rest →
     length (FIFOCache.items c) = FIFOCache.maxsize c →
     k ∉ FIFOCache.keys c →
     ∃ c', FIFOCache.setitem c k v = Ok c' ∧
           FIFOCache.maxsize c' = FIFOCache.maxsize c ∧
           FIFOCache.items c' = rest ++ [(k, v)] ∧
           FIFOCache.get c' k0 = None ∧
           FIFOCache.get c' k = Some v ∧
           (∀ k', k' ≠ k0 → k' ≠ k → FIFOCache.get c' k' = FIFOCache.get c k')) ∧
  (∀ before after st,
     FIFOCache.get (message_cache (eng st)) (msg_id before) = None →
     on_message_edit before after st = (Ok tt, st)) ∧
  (∀ message st,
     FIFOCache.get (wmessages (eng st)) (msg_id message) = None ∨
     (∃ o, FIFOCache.get (wmessages (eng st)) (msg_id message) = Some o ∧
           FIFOCache.get (message_cache (eng st)) o = None) →
     on_message_delete message st = (Ok tt, st)) ∧
  (∀ reaction user st,
     FIFOCache.get (wmessages (eng st)) (msg_id (reaction_message reaction)) = None ∨
     (∃ o, FIFOCache.get (wmessages (eng st)) (msg_id (reaction_message reaction)) = Some o ∧
           FIFOCache.get (message_cache (eng st)) o = None) →
     on_reaction_add reaction user st = (Ok tt, st)).
Proof.
  split_and!.
  - done.
  - done.
  - apply handle_capacity.
  - intros V c k v k0 v0 rest [Hk Hs Hr] Hitems Hfull Hnew.
    eexists. split; [by eapply setitem_full|]. simpl.
    unfold FIFOCache.keys in *. rewrite Hitems in Hk, Hnew. simpl in Hk, Hnew.
    apply NoDup_cons in Hk as [Hk0 Hk].
    apply not_elem_of_cons in Hnew as [Hne Hnew].
    unfold FIFOCache.get. simpl. rewrite Hitems. split_and!; [done..| | |].
    + rewrite assoc_app. simpl.
      destruct (FIFOCache.assoc k0 rest) eqn:E; [by apply assoc_Some_key in E|].
      destruct (Z.eqb_spec k k0); [congruence | done].
    + rewrite assoc_app. simpl. rewrite Z.eqb_refl.
      destruct (FIFOCache.assoc k rest) eqn:E; [by apply assoc_Some_key in E | done].
    + intros k' Hk0' Hk'. rewrite assoc_app. simpl.
      destruct (Z.eqb_spec k0 k'); [congruence|].
      destruct (Z.eqb_spec k k'); [congruence|].
      by destruct (FIFOCache.assoc k' rest).
  - apply on_message_edit_absent.
  - apply on_message_delete_absent.
  - apply on_reaction_add_absent.
Qed.

(** C5.  A message that carries a webhook id is not mirrored: the
    new-message listener returns at once, makes no outbound call and
    leaves both caches, and the rest of the state, as they were. *)
Theorem on_message_ignores_webhook_messages message st :
  truthy_opt (msg_webhook_id message) = true →
  on_message message st = (Ok tt, st).
Proof. unfold on_message. by intros ->. Qed.

End CogFacts.

(** * Further facts about the cog *)

Section Preparing.
Context {W : Type} `{Platform W}.
Implicit Types (st : St W) (message : Message).

(** X1.  [prepare_embeds] forwards the rich embeds of the message and
    no other of its embeds: every embed of the result is rich, every
    rich embed of the message is in the result, a message without a
    reference gets a sub-list of its own embeds, in their order, and a
    reply adds one embed. *)
Theorem prepare_embeds_keeps_rich_embeds message :
  (∀ e, e ∈ prepare_embeds message → embed_type e = "rich") ∧
  (∀ e, e ∈ msg_embeds message → embed_type e = "rich" → e ∈ prepare_embeds message) ∧
  (msg_reference message = None → sublist (prepare_embeds message) (msg_embeds message)) ∧
  (length (prepare_embeds message) ≤ length (msg_embeds message) + 1)%nat.
Proof.
  unfold prepare_embeds. split_and!.
  - intros e. destruct (msg_reference message) as [r|].
    + intros [He|He]%elem_of_app.
      * by apply list_elem_of_filter in He as [? _].
      * by apply list_elem_of_singleton in He as ->.
    + intros He. by apply list_elem_of_filter in He as [? _].
  - intros e Hin Hrich.
    assert (e ∈ filter (λ embed, embed_type embed = "rich") (msg_embeds message))
      by (by apply list_elem_of_filter).
    destruct (msg_reference message); [apply elem_of_app; by left | done].
  - intros ->. apply sublist_filter.
  - pose proof (length_filter (λ embed, embed_type embed = "rich") (msg_embeds message)).
    destruct (msg_reference message); [rewrite length_app; simpl|]; lia.
Qed.

Lemma created_snoc l c ok :
  created (l ++ [{| entry_call := c; entry_ok := ok |}]) =
  created l ++ match c with CallCreateWebhook ch _ => [ch] | _ => [] end.
Proof. unfold created. rewrite omap_app. f_equal. by destruct c. Qed.

Lemma asked_cons a attachments (w : W) :
  asked (a :: attachments) w =
  ((attachment_to_file a (is_spoiler a) w).1
     :: (asked attachments (attachment_to_file a (is_spoiler a) w).2).1,
   (asked attachments (attachment_to_file a (is_spoiler a) w).2).2).
Proof.
  simpl. destruct (attachment_to_file a (is_spoiler a) w) as [r w1]. simpl.
  by destruct (asked attachments w1).
Qed.

Lemma asked_app before after (w : W) :
  asked (before ++ after) w =
  ((asked before w).1 ++ (asked after (asked before w).2).1,
   (asked after (asked before w).2).2).
Proof.
  revert w. induction before as [|a before IH]; intros w.
  - simpl. by destruct (asked after w).
  - rewrite <- app_comm_cons, !asked_cons, IH. done.
Qed.

Lemma asked_length attachments (w : W) :
  length (asked attachments w).1 = length attachments.
Proof.
  revert w. induction attachments as [|a attachments IH]; intros w; [done|].
  rewrite asked_cons. simpl. by rewrite IH.
Qed.

Lemma files_of_length answers : (length (files_of answers) ≤ length answers)%nat.
Proof.
  induction answers as [|[file|x] answers IH]; simpl; [done | | ];
    fold (files_of answers); lia.
Qed.

Lemma foldM_app {A B} (f : A → B → M W A) l1 l2 a st :
  foldM f a (l1 ++ l2) st =
  match foldM f a l1 st with
  | (Ok a', st') => foldM f a' l2 st'
  | (Raise e, st') => (Raise e, st')
  end.
Proof.
  revert a st. induction l1 as [|x l1 IH]; intros a st; [done|].
  rewrite <- app_comm_cons, !foldM_cons.
  destruct (f a x st) as [[a'|e] st1]; [apply IH | done].
Qed.

(** The loop of [prepare_attachments], as long as no download fails
    with anything but an [HTTPException]. *)
Lemma download_loop_run attachments : ∀ acc st,
  (∀ r y, r ∈ (asked attachments (world st)).1 → r = Raise y →
          is_HTTPException y = true) →
  foldM (λ results attach,
           try_except
             (let* as_file := call (CallToFile attach (is_spoiler attach))
                                (attachment_to_file attach (is_spoiler attach)) in
              ret (results ++ [as_file]))
             is_HTTPException
             (ret results))
        acc attachments st =
  (Ok (acc ++ files_of (asked attachments (world st)).1),
   mkSt (eng st) (asked attachments (world st)).2
        (log st ++ asking attachments (asked attachments (world st)).1)).
Proof.
  induction attachments as [|a attachments IH]; intros acc st Hx.
  - simpl. rewrite !app_nil_r. by destruct st.
  - rewrite foldM_cons. unfold try_except at 1, bind at 1. rewrite call_run.
    rewrite asked_cons in *. simpl in Hx.
    destruct (attachment_to_file a (is_spoiler a) (world st)) as [[file|x] w1] eqn:E;
      simpl in *.
    + rewrite IH by (intros r y Hr; apply Hx; by right).
      simpl. by rewrite <- !app_assoc.
    + rewrite (Hx (Raise x) x) by (done || left). simpl.
      rewrite IH by (intros r y Hr; apply Hx; by right).
      simpl. by rewrite <- !app_assoc.
Qed.

(** X2.  When a download fails with nothing but an [HTTPException],
    [prepare_attachments] returns normally and leaves the cog's state
    alone; it asks the platform for every attachment once, in order,
    with the attachment's own spoiler flag, each from the world that
    the one before has left, and returns the files that the platform
    gave, in that order: one for each download that succeeded, so
    never more files than attachments. *)
Theorem prepare_attachments_tries_each_once attachments st :
  (∀ a b w x, (attachment_to_file a b w).1 = Raise x → is_HTTPException x = true) →
  prepare_attachments attachments st =
    (Ok (files_of (asked attachments (world st)).1),
     mkSt (eng st) (asked attachments (world st)).2
          (log st ++ asking attachments (asked attachments (world st)).1)) ∧
  length (asked attachments (world st)).1 = length attachments ∧
  (length (files_of (asked attachments (world st)).1) ≤ length attachments)%nat.
Proof.
  intros Hx. split_and!.
  - unfold prepare_attachments. rewrite download_loop_run; [done|].
    intros r y Hr ->. revert Hr. generalize (world st).
    induction attachments as [|a attachments IH]; intros w; [by intros ?%elem_of_nil|].
    rewrite asked_cons. simpl. intros [Hr|Hr]%elem_of_cons; [|by eapply IH].
    by eapply Hx.
  - apply asked_length.
  - rewrite <- (asked_length attachments (world st)). apply files_of_length.
Qed.

(** X3.  A download that fails with an exception that is not an
    [HTTPException] is not contained: wherever the attachment stands
    in the list, once the downloads before it have succeeded or
    failed with an [HTTPException], [prepare_attachments] raises that
    exception, having asked for the attachments before it and for this
    one, and does not ask for the attachments that follow; the cog's
    state is as before. *)
Theorem prepare_attachments_raises_other_errors before a after st x w1 :
  (∀ r y, r ∈ (asked before (world st)).1 → r = Raise y → is_HTTPException y = true) →
  attachment_to_file a (is_spoiler a) (asked before (world st)).2 = (Raise x, w1) →
  is_HTTPException x = false →
  prepare_attachments (before ++ a :: after) st =
    (Raise x,
     mkSt (eng st) w1
          (log st ++ asking before (asked before (world st)).1
                  ++ [{| entry_call := CallToFile a (is_spoiler a); entry_ok := false |}])).
Proof.
  intros Hbefore Hfail Hx. unfold prepare_attachments.
  rewrite foldM_app, download_loop_run by done.
  rewrite foldM_cons. unfold try_except at 1, bind at 1.
  rewrite call_run. simpl. rewrite Hfail. simpl. rewrite Hx.
  by rewrite <- app_assoc.
Qed.

End Preparing.

Section Provisioning.
Context {W : Type} `{Platform W}.
Implicit Types (st : St W).

(** The three ways [fetch_webhook_for] ends: an exception and the state
    of the cog untouched, the cached webhook and nothing touched at
    all, or a webhook newly cached under the channel. *)
Lemma fetch_webhook_for_cases channelid st r st' :
  fetch_webhook_for channelid st = (r, st') →
  (∃ e, r = Raise e ∧ eng st' = eng st ∧ hooks (eng st) !! channelid = None) ∨
  (∃ hook, r = Ok hook ∧ st' = st ∧ hooks (eng st) !! channelid = Some hook) ∨
  (∃ hook, r = Ok hook ∧ hooks (eng st) !! channelid = None ∧
           eng st' = set_hooks (<[channelid := hook]> (hooks (eng st))) (eng st)).
Proof.
  unfold fetch_webhook_for, bind, get_engine. simpl.
  destruct (hooks (eng st) !! channelid) as [hook|] eqn:Eh.
  { intros [= <- <-]. right. left. by exists hook. }
  rewrite call_run.
  destruct (linkhook_fetch channelid (world st)) as [[[row|]|e] w1]; simpl.
  - intros [= <- <-]. right. right. by eexists.
  - unfold get_world. simpl.
    destruct (bot_get_channel channelid w1) as [channel|];
      [|intros [= <- <-]; left; by eexists].
    rewrite call_run. simpl.
    destruct (channel_create_webhook channel "LabRat Channel Link" w1)
      as [[hook|e] w2]; simpl; [|intros [= <- <-]; left; by eexists].
    rewrite call_run. simpl.
    destruct (linkhook_create channelid (hook_id hook) (hook_token hook) w2)
      as [[[]|e] w3]; simpl; intros [= <- <-].
    + right. right. by eexists.
    + left. by eexists.
  - intros [= <- <-]. left. by eexists.
Qed.

(** X4.  A webhook that [fetch_webhook_for] returns is cached under the
    channel, and fetching it again returns the same webhook without any
    call and without any change.  Nothing else of the cog's state moves:
    the webhooks of the other channels, the link index and the two
    caches are as before. *)
Theorem fetch_webhook_for_caches_the_hook channelid st hook st' :
  fetch_webhook_for channelid st = (Ok hook, st') →
  hooks (eng st') !! channelid = Some hook ∧
  fetch_webhook_for channelid st' = (Ok hook, st') ∧
  (∀ c, c ≠ channelid → hooks (eng st') !! c = hooks (eng st) !! c) ∧
  same_links (eng st) (eng st') ∧
  message_cache (eng st') = message_cache (eng st) ∧
  wmessages (eng st') = wmessages (eng st).
Proof.
  intros Hrun.
  assert (∀ st1, hooks (eng st1) !! channelid = Some hook →
                 fetch_webhook_for channelid st1 = (Ok hook, st1)) as Hhit.
  { intros st1 Hh. unfold fetch_webhook_for, bind, get_engine. simpl. by rewrite Hh. }
  apply fetch_webhook_for_cases in Hrun
    as [(e & ? & _)|[(h & [= <-] & -> & Hh)|(h & [= <-] & Hnone & He)]]; [done| |].
  - split_and!; auto. by split.
  - assert (hooks (eng st') !! channelid = Some hook) as Hh
      by (rewrite He; simpl; apply lookup_insert_eq).
    split_and!; auto; rewrite He; simpl; try done.
    intros c Hc. by rewrite lookup_insert_ne.
Qed.

(** X5.  When [fetch_webhook_for] raises, whether the store, the
    channel lookup, the creation of the webhook or the writing of its
    row failed, the cog's state is exactly what it was: in particular
    no webhook is cached for the channel. *)
Theorem fetch_webhook_for_failure_keeps_state channelid st e st' :
  fetch_webhook_for channelid st = (Raise e, st') →
  eng st' = eng st ∧ hooks (eng st') !! channelid = None.
Proof.
  intros [(e' & _ & He & Hn)|[(h & ? & _)|(h & ? & _)]]%fetch_webhook_for_cases;
    [|done..].
  by rewrite He.
Qed.

(** X6.  [fetch_webhook_for] asks the platform for a new webhook only
    when the channel has no cached webhook and the store has no row for
    it, and then for one webhook only; with a cached webhook it makes
    no call at all, and with a stored row it returns the webhook of
    that row. *)
Theorem fetch_webhook_for_creates_only_if_absent channelid st :
  (∀ hook, hooks (eng st) !! channelid = Some hook →
           fetch_webhook_for channelid st = (Ok hook, st)) ∧
  (∀ row w1, hooks (eng st) !! channelid = None →
             linkhook_fetch channelid (world st) = (Ok (Some row), w1) →
             (fetch_webhook_for channelid st).1 =
               Ok {| hook_id := row_webhookid row; hook_token := row_token row |} ∧
             created (log (fetch_webhook_for channelid st).2) = created (log st)) ∧
  (created (log (fetch_webhook_for channelid st).2) ≠ created (log st) →
   hooks (eng st) !! channelid = None ∧
   (∃ w1 channel,
      linkhook_fetch channelid (world st) = (Ok None, w1) ∧
      bot_get_channel channelid w1 = Some channel ∧
      created (log (fetch_webhook_for channelid st).2) = created (log st) ++ [channel])).
Proof.
  split_and!.
  - intros hook Hh. unfold fetch_webhook_for, bind, get_engine. simpl. by rewrite Hh.
  - intros row w1 Hn Hrow. unfold fetch_webhook_for, bind, get_engine. simpl.
    rewrite Hn, call_run, Hrow. simpl. split; [done|].
    by rewrite created_snoc, app_nil_r.
  - unfold fetch_webhook_for, bind, get_engine. simpl.
    destruct (hooks (eng st) !! channelid) as [hook|] eqn:Eh; [done|].
    rewrite call_run.
    destruct (linkhook_fetch channelid (world st)) as [[[row|]|e] w1]; simpl;
      rewrite ?created_snoc, ?app_nil_r; try done.
    unfold get_world. simpl.
    destruct (bot_get_channel channelid w1) as [channel|] eqn:Ec; simpl;
      rewrite ?created_snoc, ?app_nil_r; [|done].
    intros _. split; [done|]. exists w1, channel. split_and!; try done.
    rewrite call_run. simpl.
    destruct (channel_create_webhook channel "LabRat Channel Link" w1)
      as [[hook|e] w2]; simpl; rewrite ?created_snoc, ?app_nil_r; simpl.
    + rewrite call_run. simpl.
      destruct (linkhook_create channelid (hook_id hook) (hook_token hook) w2)
        as [[[]|e] w3]; simpl; by rewrite ?created_snoc, ?app_nil_r.
    + by rewrite ?created_snoc, ?app_nil_r.
Qed.

End Provisioning.

Section Reloading.
Context {W : Type} `{Platform W} `{SetOrder}.
Implicit Types (st : St W).

Lemma add_to_listed k v (d : gmap Z (list Z)) k' x :
  (∃ S, add_to k v d !! k' = Some S ∧ x ∈ S) ↔
  (∃ S, d !! k' = Some S ∧ x ∈ S) ∨ (k' = k ∧ x = v).
Proof.
  unfold add_to. destruct (decide (k' = k)) as [->|Hne].
  - rewrite lookup_insert_eq. split.
    + intros (S & [= <-] & [Hx|Hx]%elem_of_app).
      * left. destruct (d !! k) as [S0|]; [by exists S0|].
        by apply elem_of_nil in Hx.
      * right. by apply list_elem_of_singleton in Hx.
    + intros [(S & HS & Hx)|[_ ->]]; eexists; (split; [done|]).
      * rewrite HS. simpl. apply elem_of_app. by left.
      * apply elem_of_app. right. by apply list_elem_of_singleton.
  - rewrite lookup_insert_ne by done. split; [by left|].
    by intros [?|[? _]].
Qed.

Lemma index_fold_listed (f g : LinkRecord → Z) records :
  ∀ (d : gmap Z (list Z)) k x,
    (∃ S, foldl (λ d r, add_to (f r) (g r) d) d records !! k = Some S ∧ x ∈ S) ↔
    (∃ S, d !! k = Some S ∧ x ∈ S) ∨ (∃ r, r ∈ records ∧ f r = k ∧ g r = x).
Proof.
  induction records as [|r records IH]; intros d k x; simpl.
  - split; [by left|]. intros [?|(r & []%elem_of_nil & _)]. done.
  - rewrite IH, add_to_listed. split.
    + intros [[?|[-> ->]]|(r' & Hin & ? & ?)].
      * by left.
      * right. exists r. split; [left | done].
      * right. exists r'. split; [by right | done].
    + intros [?|(r' & [->|Hin]%elem_of_cons & <- & <-)].
      * left. by left.
      * left. by right.
      * right. by exists r'.
Qed.

Lemma tuples_listed (d : gmap Z (list Z)) k x :
  listed (tuple_of <$> d) k x ↔ ∃ S, d !! k = Some S ∧ x ∈ S.
Proof.
  unfold listed. rewrite lookup_fmap. destruct (d !! k) as [S|]; simpl.
  - split.
    + intros (xs & [= <-] & Hx). exists S. split; [done|]. by apply tuple_of_elem.
    + intros (S' & [= <-] & Hx). eexists. split; [done|]. by apply tuple_of_elem.
  - split; [by intros (? & ? & _) | by intros (? & ? & _)].
Qed.

Lemma tuples_distinct (d : gmap Z (list Z)) k xs :
  (tuple_of <$> d) !! k = Some xs → NoDup xs.
Proof.
  rewrite lookup_fmap. destruct (d !! k) as [S|]; simpl; [|done].
  intros [= <-]. apply tuple_of_NoDup.
Qed.

Lemma keys_in_order_elem ks : ∀ x, x ∈ keys_in_order ks ↔ x ∈ ks.
Proof.
  unfold keys_in_order.
  assert (∀ acc x,
            x ∈ foldl (λ acc k, if decide (k ∈ acc) then acc else acc ++ [k]) acc ks ↔
            x ∈ acc ∨ x ∈ ks) as Hgen.
  { induction ks as [|k ks IH]; intros acc x; simpl.
    - split; [by left | by intros [?|?%elem_of_nil]].
    - rewrite IH. case_decide.
      + split; [intros [?|?]; [by left | right; by right]|].
        intros [?|[->|?]%elem_of_cons]; [by left | by left | by right].
      + split.
        * intros [[?|Hk]%elem_of_app|?]; [by left | | right; by right].
          apply list_elem_of_singleton in Hk as ->. right. left.
        * intros [?|[->|?]%elem_of_cons];
            [left; apply elem_of_app; by left
            |left; apply elem_of_app; right; left
            |by right]. }
  intros x. rewrite Hgen. split; [by intros [?%elem_of_nil|?] | by right].
Qed.

(** What the provisioning loop of [reload_links] keeps, whatever it
    returns: the link index and the two caches, and every webhook that
    was cached. *)
Lemma fetch_loop_frame channelids st :
  let st' := (foldM (λ _ channelid, fetch_webhook_for channelid >> ret tt)
                tt channelids st).2 in
  same_links (eng st) (eng st') ∧
  message_cache (eng st') = message_cache (eng st) ∧
  wmessages (eng st') = wmessages (eng st) ∧
  (∀ c h, hooks (eng st) !! c = Some h → hooks (eng st') !! c = Some h).
Proof.
  apply (foldM_frame
           (λ st', same_links (eng st) (eng st') ∧
                   message_cache (eng st') = message_cache (eng st) ∧
                   wmessages (eng st') = wmessages (eng st) ∧
                   (∀ c h, hooks (eng st) !! c = Some h → hooks (eng st') !! c = Some h)));
    [|by split_and!].
  intros [] channelid st1 ([Hlc Hcl] & Hmc & Hwm & Hh). unfold bind.
  destruct (fetch_webhook_for channelid st1) as [r st2] eqn:E.
  assert (eng st2 = eng st1 ∨
          ∃ hook, hooks (eng st1) !! channelid = None ∧
                  eng st2 = set_hooks (<[channelid := hook]> (hooks (eng st1))) (eng st1))
    as [He|(hook & Hn & He)].
  { apply fetch_webhook_for_cases in E
      as [(e & _ & ? & _)|[(h & _ & -> & _)|(h & _ & ? & ?)]]; eauto. }
  - destruct r; simpl; rewrite He; by split_and!.
  - destruct r; simpl; rewrite He; simpl; (split_and!; [by split|done|done|]).
    + intros c h Hc. destruct (decide (c = channelid)) as [->|Hne].
      * apply Hh in Hc. congruence.
      * rewrite lookup_insert_ne by done. by apply Hh.
    + intros c h Hc. destruct (decide (c = channelid)) as [->|Hne].
      * apply Hh in Hc. congruence.
      * rewrite lookup_insert_ne by done. by apply Hh.
Qed.

(** After a provisioning loop that returned normally, every channel of
    the loop has a cached webhook. *)
Lemma fetch_loop_provides channelids : ∀ st st',
  foldM (λ _ channelid, fetch_webhook_for channelid >> ret tt) tt channelids st
  = (Ok tt, st') →
  ∀ c, c ∈ channelids → is_Some (hooks (eng st') !! c).
Proof.
  induction channelids as [|c0 channelids IH]; intros st st' Hrun c Hc.
  { by apply elem_of_nil in Hc. }
  rewrite foldM_cons in Hrun. unfold bind at 1 in Hrun.
  destruct (fetch_webhook_for c0 st) as [[hook|e] st1] eqn:E; [|done].
  simpl in Hrun. apply elem_of_cons in Hc as [->|Hc]; [|by eapply IH].
  assert (hooks (eng st1) !! c0 = Some hook) as Hh.
  { apply fetch_webhook_for_cases in E
      as [(e & ? & _)|[(h & [= <-] & -> & ?)|(h & [= <-] & _ & He)]]; [done..|].
    rewrite He. simpl. apply lookup_insert_eq. }
  pose proof (fetch_loop_frame channelids st1) as (_ & _ & _ & Hgrow).
  rewrite Hrun in Hgrow. simpl in Hgrow. eauto.
Qed.

(** How a successful [reload_links] runs. *)
Lemma reload_links_ok st st' :
  reload_links st = (Ok tt, st') →
  ∃ records w1 st2,
    select_channel_links (world st) = (Ok records, w1) ∧
    same_links (eng st) (eng st2) ∧
    message_cache (eng st2) = message_cache (eng st) ∧
    wmessages (eng st2) = wmessages (eng st) ∧
    (∀ c h, hooks (eng st) !! c = Some h → hooks (eng st2) !! c = Some h) ∧
    (∀ r, r ∈ records → is_Some (hooks (eng st2) !! channelid r)) ∧
    eng st' =
      set_links
        (tuple_of <$> foldl (λ d record, add_to (channelid record) (linkid record) d) ∅ records)
        (tuple_of <$> foldl (λ d record, add_to (linkid record) (channelid record) d) ∅ records)
        (eng st2).
Proof.
  unfold reload_links. unfold bind at 1. rewrite call_run.
  destruct (select_channel_links (world st)) as [[records|e0] w1]; simpl; [|done].
  set (channelids := keys_in_order (channelid <$> records)).
  match goal with |- context [mkSt (eng st) w1 ?l] => set (st1 := mkSt (eng st) w1 l) end.
  unfold bind at 1.
  assert (∀ r st2,
            (if truthy_list channelids
             then call (CallFetchHooks channelids) (linkhook_fetch_where channelids)
             else ret tt) st1 = (r, st2) → eng st2 = eng st) as Hfetch.
  { destruct (truthy_list channelids).
    - intros r st2. rewrite call_run. by intros [= _ <-].
    - by intros r st2 [= _ <-]. }
  match goal with |- context [(if truthy_list channelids then ?a else ?b) st1] =>
    destruct ((if truthy_list channelids then a else b) st1) as [[[]|e1] st2] eqn:E2
  end; specialize (Hfetch _ _ eq_refl); [|done].
  unfold bind at 1.
  pose proof (fetch_loop_frame channelids st2) as Hframe.
  pose proof (fetch_loop_provides channelids st2) as Hprov.
  destruct (foldM _ tt channelids st2) as [[[]|e2] st3]; simpl in *; [|done].
  unfold modify_engine. intros [= <-]. simpl.
  rewrite Hfetch in Hframe. destruct Hframe as (Hl & Hmc & Hwm & Hgrow).
  exists records, w1, st3. split_and!; try done.
  intros r Hr. apply (Hprov st3 eq_refl). apply keys_in_order_elem.
  apply list_elem_of_fmap. by exists r.
Qed.

Lemma reload_links_built st st' :
  reload_links st = (Ok tt, st') →
  ∃ records w1,
    select_channel_links (world st) = (Ok records, w1) ∧
    (∀ c l, listed (channel_links (eng st')) c l ↔
            ∃ r, r ∈ records ∧ channelid r = c ∧ linkid r = l) ∧
    (∀ l c, listed (link_channels (eng st')) l c ↔
            ∃ r, r ∈ records ∧ channelid r = c ∧ linkid r = l) ∧
    index_ok (eng st').
Proof.
  intros (records & w1 & st2 & Hsel & _ & _ & _ & _ & Hprov & He)%reload_links_ok.
  assert (∀ c l, listed (channel_links (eng st')) c l ↔
                 ∃ r, r ∈ records ∧ channelid r = c ∧ linkid r = l) as Hcl.
  { intros c l. rewrite He. simpl. rewrite tuples_listed, index_fold_listed.
    split; [intros [(S & HS & _)|?]; [by rewrite lookup_empty in HS | done] | by right]. }
  assert (∀ l c, listed (link_channels (eng st')) l c ↔
                 ∃ r, r ∈ records ∧ channelid r = c ∧ linkid r = l) as Hlc.
  { intros l c. rewrite He. simpl. rewrite tuples_listed, index_fold_listed.
    split.
    - intros [(S & HS & _)|(r & ? & ? & ?)]; [by rewrite lookup_empty in HS | by exists r].
    - intros (r & ? & ? & ?). right. by exists r. }
  exists records, w1. split_and!; try done. split.
  - intros c l. by rewrite Hcl, Hlc.
  - intros c ls. rewrite He. simpl. apply tuples_distinct.
  - intros l cs. rewrite He. simpl. apply tuples_distinct.
  - intros l c (r & Hr & <- & _)%Hlc. rewrite He. simpl. by apply Hprov.
Qed.

(** X7.  After a [reload_links] that returns normally, the link index
    is the table that was fetched and nothing else: a link is in the
    tuple of a channel, and the channel in the tuple of the link,
    exactly when the table has that row; no tuple repeats an element;
    every member channel has a cached webhook. *)
Theorem reload_links_builds_the_index st st' :
  reload_links st = (Ok tt, st') →
  ∃ records w1,
    select_channel_links (world st) = (Ok records, w1) ∧
    (∀ c l, listed (channel_links (eng st')) c l ↔
            ∃ r, r ∈ records ∧ channelid r = c ∧ linkid r = l) ∧
    (∀ l c, listed (link_channels (eng st')) l c ↔
            ∃ r, r ∈ records ∧ channelid r = c ∧ linkid r = l) ∧
    index_ok (eng st').
Proof. apply reload_links_built. Qed.

Lemma reload_links_frame st :
  message_cache (eng (reload_links st).2) = message_cache (eng st) ∧
  wmessages (eng (reload_links st).2) = wmessages (eng st) ∧
  (∀ c h, hooks (eng st) !! c = Some h → hooks (eng (reload_links st).2) !! c = Some h).
Proof.
  destruct (reload_links st) as [r st'] eqn:E. simpl. revert E.
  unfold reload_links. unfold bind at 1. rewrite call_run.
  destruct (select_channel_links (world st)) as [[records|e0] w1]; simpl;
    [|by intros [= _ <-]].
  set (channelids := keys_in_order (channelid <$> records)).
  match goal with |- context [mkSt (eng st) w1 ?l] => set (st1 := mkSt (eng st) w1 l) end.
  unfold bind at 1.
  assert (∀ r st2,
            (if truthy_list channelids
             then call (CallFetchHooks channelids) (linkhook_fetch_where channelids)
             else ret tt) st1 = (r, st2) → eng st2 = eng st) as Hfetch.
  { destruct (truthy_list channelids).
    - intros r0 st2. rewrite call_run. by intros [= _ <-].
    - by intros r0 st2 [= _ <-]. }
  match goal with |- context [(if truthy_list channelids then ?a else ?b) st1] =>
    destruct ((if truthy_list channelids then a else b) st1) as [[[]|e1] st2] eqn:E2
  end; specialize (Hfetch _ _ eq_refl); [|intros [= _ <-]; by rewrite Hfetch].
  unfold bind at 1.
  pose proof (fetch_loop_frame channelids st2) as Hframe.
  destruct (foldM _ tt channelids st2) as [[[]|e2] st3]; simpl in *;
    rewrite Hfetch in Hframe; destruct Hframe as (_ & Hmc & Hwm & Hgrow).
  - unfold modify_engine. by intros [= _ <-].
  - by intros [= _ <-].
Qed.

(** X8.  Whatever [reload_links] returns, it leaves the two
    correlation caches as they were and keeps every cached webhook: a
    reload never forgets a correlation and never replaces or drops a
    webhook, not even that of a channel that is no longer linked. *)
Theorem reload_links_keeps_caches_and_hooks st :
  message_cache (eng (reload_links st).2) = message_cache (eng st) ∧
  wmessages (eng (reload_links st).2) = wmessages (eng st) ∧
  (∀ c h, hooks (eng st) !! c = Some h → hooks (eng (reload_links st).2) !! c = Some h).
Proof. apply reload_links_frame. Qed.

End Reloading.

Section RecentEntries.
Context {V : Type}.
Implicit Types (l : list (Z * V)) (c : FIFOCache.t V) (k : Z) (v : V).




End RecentEntries.

Section Correlating.
Context {W : Type} `{Platform W}.
Implicit Types (st : St W) (message : Message).

(** X9.  No listener touches the link index or the webhook cache: after
    any sequence of events, whatever the listeners returned, the two
    maps of the index and the cached webhooks are the ones before, and
    an index that was consistent still is. *)
Theorem listeners_keep_the_index evs st :
  link_channels (eng (run_all evs st)) = link_channels (eng st) ∧
  channel_links (eng (run_all evs st)) = channel_links (eng st) ∧
  hooks (eng (run_all evs st)) = hooks (eng st) ∧
  (index_ok (eng st) → index_ok (eng (run_all evs st))).
Proof.
  assert (link_channels (eng (run_all evs st)) = link_channels (eng st) ∧
          channel_links (eng (run_all evs st)) = channel_links (eng st) ∧
          hooks (eng (run_all evs st)) = hooks (eng st)) as (Hlc & Hcl & Hh).
  { unfold run_all. revert st. induction evs as [|ev evs IH]; intros st; [done|].
    simpl. destruct (IH (handle ev st).2) as (-> & -> & ->).
    apply (handle_keeps
             (λ s, link_channels s = link_channels (eng st) ∧
                   channel_links s = channel_links (eng st) ∧
                   hooks s = hooks (eng st))); try done. }
  split_and!; try done.
  intros [Hconv Hld Hcd Hhooks]. split; rewrite ?Hlc, ?Hcl, ?Hh; done.
Qed.

(** X10.  The two caches stay in order along any sequence of events,
    whatever the listeners return: no key is held twice, a cache never
    holds more entries than its capacity, and the capacity never
    changes. *)
Theorem caches_stay_within_capacity evs st :
  cache_ok (message_cache (eng st)) → cache_ok (wmessages (eng st)) →
  cache_ok (message_cache (eng (run_all evs st))) ∧
  cache_ok (wmessages (eng (run_all evs st))) ∧
  FIFOCache.maxsize (message_cache (eng (run_all evs st))) =
    FIFOCache.maxsize (message_cache (eng st)) ∧
  FIFOCache.maxsize (wmessages (eng (run_all evs st))) =
    FIFOCache.maxsize (wmessages (eng st)).
Proof.
  unfold run_all. revert st. induction evs as [|ev evs IH]; intros st Hf Hr; [done|].
  simpl. destruct (handle_caches_ok ev st (conj Hf Hr)) as [Hf1 Hr1].
  destruct (handle_capacity ev st) as [Hmf Hmr].
  destruct (IH (handle ev st).2 Hf1 Hr1) as (? & ? & -> & ->). done.
Qed.

(** ** New messages *)

Lemma forward_to_skips message sent st :
  forward_to message sent (msg_channel_id message) st = (Ok sent, st).
Proof. unfold forward_to. by rewrite decide_False by (by intros ?). Qed.









Lemma forward_loop_idle message channelids : ∀ sent st,
  filter (λ c, c ≠ msg_channel_id message) channelids = [] →
  foldM (forward_to message) sent channelids st = (Ok sent, st).
Proof.
  induction channelids as [|c channelids IH]; intros sent st; [done|].
  rewrite filter_cons. destruct (decide (c ≠ msg_channel_id message)) as [|Heq]; [done|].
  assert (c = msg_channel_id message) as ->
    by (destruct (decide (c = msg_channel_id message)); [done | by destruct Heq]).
  intros Hnil. rewrite foldM_cons, forward_to_skips. by apply IH.
Qed.

Lemma links_loop_idle message linkids : ∀ sent st,
  (∀ l, l ∈ linkids → is_Some (link_channels (eng st) !! l)) →
  concat ((λ l, filter (λ c, c ≠ msg_channel_id message)
                  (default [] (link_channels (eng st) !! l))) <$> linkids) = [] →
  foldM (λ sent linkid,
           let* s := get_engine in
           let* channelids := getitem (link_channels s) linkid in
           foldM (forward_to message) sent channelids)
        sent linkids st = (Ok sent, st).
Proof.
  induction linkids as [|l linkids IH]; intros sent st Hlinks; [done|].
  intros Hc. rewrite fmap_cons in Hc. simpl in Hc.
  apply app_eq_nil in Hc as [Hl Hrest].
  destruct (Hlinks l) as [cs Hcs]; [left|]. rewrite Hcs in Hl. simpl in Hl.
  rewrite foldM_cons. unfold bind at 1 2, get_engine, getitem. rewrite Hcs.
  unfold ret at 1. rewrite (forward_loop_idle _ _ _ _ Hl).
  apply IH; [|done]. intros l' Hin. apply Hlinks. by right.
Qed.

(** X12.  A message posted in a channel that has no destination (the
    channel is in no link, or is the only member of each of its links)
    is not relayed: the listener returns normally, makes no call and
    records nothing. *)
Theorem on_message_without_destination message st :
  (∀ l, l ∈ default [] (channel_links (eng st) !! msg_channel_id message) →
        is_Some (link_channels (eng st) !! l)) →
  destinations (eng st) (msg_channel_id message) = [] →
  on_message message st = (Ok tt, st).
Proof.
  intros Hlinks Hdest. unfold on_message.
  destruct (truthy_opt _); [done|]. unfold bind at 1, get_engine.
  destruct (truthy_list (default [] _)); [|done].
  by rewrite (bind_Ok _ _ _ _ _ (links_loop_idle message _ [] st Hlinks Hdest)).
Qed.

(** X13.  On a consistent link index, when every post succeeds and a
    download fails with nothing but an [HTTPException], a new message
    that carries no webhook id is posted to exactly the channels that
    share a link with its channel, the channel itself excepted; and
    when the channel belongs to a single link, each of them gets
    exactly one copy.  The posts of the log were made on the platform,
    each through the webhook cached for its channel and with the text,
    the author's name and avatar and the embeds of the message. *)
Theorem on_message_fans_out_on_consistent_index message st :
  index_ok (eng st) →
  (∀ h p w, is_Ok (webhook_send h p w).1 = true) →
  (∀ a b w x, (attachment_to_file a b w).1 = Raise x → is_HTTPException x = true) →
  truthy_opt (msg_webhook_id message) = false →
  (1 ≤ FIFOCache.maxsize (message_cache (eng st)))%nat →
  (1 ≤ FIFOCache.maxsize (wmessages (eng st)))%nat →
  (on_message message st).1 = Ok tt ∧
  posted (log (on_message message st).2) =
    posted (log st) ++ destinations (eng st) (msg_channel_id message) ∧
  (∀ c, c ∈ destinations (eng st) (msg_channel_id message) ↔
        c ≠ msg_channel_id message ∧
        ∃ l, listed (channel_links (eng st)) (msg_channel_id message) l ∧
             listed (link_channels (eng st)) l c) ∧
  (∀ l, channel_links (eng st) !! msg_channel_id message = Some [l] →
        NoDup (destinations (eng st) (msg_channel_id message))) ∧
  faithful st (on_message message st).2 ∧
  relayed message st (on_message message st).2.
Proof.
  intros [Hconv Hld Hcd Hhooks] Hsend Hfile Hweb Hfwd Hrev.
  pose proof (on_message_faithful st message st (faithful_refl st)) as Hfaithful.
  pose proof (on_message_relayed message st) as Hrelayed.
  assert (∀ c, c ∈ destinations (eng st) (msg_channel_id message) ↔
               c ≠ msg_channel_id message ∧
               ∃ l, listed (channel_links (eng st)) (msg_channel_id message) l ∧
                    listed (link_channels (eng st)) l c) as Hmem.
  { intros c. unfold destinations. rewrite elem_of_concat. split.
    - intros (cs & Hc & (l & -> & Hl)%list_elem_of_fmap).
      apply list_elem_of_filter in Hc as [Hne Hc]. split; [done|]. exists l.
      destruct (channel_links (eng st) !! msg_channel_id message) as [ls|] eqn:Els;
        [|by apply elem_of_nil in Hl].
      destruct (link_channels (eng st) !! l) as [cs|] eqn:Ecs;
        [|by apply elem_of_nil in Hc].
      split; [by exists ls | by exists cs].
    - intros (Hne & l & (ls & Hls & Hl) & (cs & Hcs & Hc)).
      exists (filter (λ c, c ≠ msg_channel_id message) cs). split.
      + by apply list_elem_of_filter.
      + apply list_elem_of_fmap. exists l. rewrite Hls, Hcs. by split. }
  destruct (on_message_run Hsend Hfile message st Hweb) as (st' & Hrun & Hlog);
    [| |done|done|].
  - intros l Hl.
    destruct (channel_links (eng st) !! msg_channel_id message) as [ls|] eqn:Els;
      [|by apply elem_of_nil in Hl].
    destruct (proj1 (Hconv (msg_channel_id message) l)) as (cs & Hcs & _);
      [by exists ls | by rewrite Hcs].
  - intros c (_ & l & _ & Hc)%Hmem. by eapply Hhooks.
  - rewrite Hrun in *. split_and!; try done.
    intros l Hl. unfold destinations. rewrite Hl. simpl. rewrite app_nil_r.
    apply NoDup_filter.
    destruct (link_channels (eng st) !! l) as [cs|] eqn:Ecs; [by eapply Hcd|].
    apply NoDup_nil_2.
Qed.

(** ** Edits and deletions *)

(** X14.  When the edit listener raises, because an edit failed with
    something else than [NotFound], the correlation of the edited
    message is lost: its forward entry was removed before the loop and
    is not reinserted.  The other forward entries and the reverse index
    are as before. *)
Theorem on_message_edit_failure_drops_correlation before after st e st' :
  on_message_edit before after st = (Raise e, st') →
  FIFOCache.get (message_cache (eng st')) (msg_id before) = None ∧
  (∀ k, k ≠ msg_id before →
        FIFOCache.get (message_cache (eng st')) k = FIFOCache.get (message_cache (eng st)) k) ∧
  wmessages (eng st') = wmessages (eng st).
Proof.
  unfold on_message_edit.
  rewrite (bind_Ok _ _ _ _ _ (message_cache_pop_run _ _)).
  unfold bind at 1.
  match goal with |- context [foldM _ [] ?l ?st1] =>
    pose proof (edit_loop_engine before after l [] st1) as He;
    destruct (foldM (edit_copy before after) [] l st1) as [[new_sent|x] st2]
  end; simpl in He.
  - destruct (truthy_list new_sent); [|done].
    unfold message_cache_setitem, bind, get_engine, lift_res, modify_engine.
    rewrite He. simpl.
    destruct (FIFOCache.setitem _ _ _); [done|].
    intros [= _ <-]. rewrite He. simpl.
    split_and!; [apply get_delitem_eq | intros; by apply get_delitem_ne | done].
  - intros [= _ <-]. rewrite He. simpl.
    split_and!; [apply get_delitem_eq | intros; by apply get_delitem_ne | done].
Qed.

Lemma on_message_delete_engine message st origid :
  FIFOCache.get (wmessages (eng st)) (msg_id message) = Some origid → origid ≠ 0 →
  on_message_delete message st =
    foldM (delete_copy message) tt
      (default [] (FIFOCache.get (message_cache (eng st)) origid))
      (mkSt (set_message_cache (FIFOCache.delitem (message_cache (eng st)) origid) (eng st))
            (world st) (log st)).
Proof.
  intros Hrev Hnz. unfold on_message_delete, bind, get_engine. rewrite Hrev. simpl.
  destruct (Z.eqb_spec origid 0) as [|_]; [done|]. simpl.
  by rewrite message_cache_pop_run.
Qed.

(** X15.  Once a deletion has been handled, whatever it returned, the
    events that follow on the messages of the same correlation do
    nothing: deleting another copy, reacting to it or editing the
    origin returns normally without any call and without any change.
    The deletions that the relay itself causes do not cascade. *)
Theorem deletion_ends_the_correlation message other st origid :
  FIFOCache.get (wmessages (eng st)) (msg_id message) = Some origid →
  origid ≠ 0 →
  FIFOCache.get (wmessages (eng st)) (msg_id other) = Some origid →
  on_message_delete other (on_message_delete message st).2 =
    (Ok tt, (on_message_delete message st).2) ∧
  (∀ emoji count user,
     on_reaction_add {| reaction_message := other; reaction_emoji := emoji;
                        reaction_count := count |} user (on_message_delete message st).2 =
       (Ok tt, (on_message_delete message st).2)) ∧
  (∀ before after, msg_id before = origid →
     on_message_edit before after (on_message_delete message st).2 =
       (Ok tt, (on_message_delete message st).2)).
Proof.
  intros Hrev Hnz Hother.
  pose proof (on_message_delete_engine message st origid Hrev Hnz) as Hrun.
  pose proof (delete_loop_engine message
                (default [] (FIFOCache.get (message_cache (eng st)) origid))
                (mkSt (set_message_cache
                         (FIFOCache.delitem (message_cache (eng st)) origid) (eng st))
                      (world st) (log st))) as He.
  rewrite <- Hrun in He. simpl in He.
  destruct (on_message_delete message st) as [r st'] eqn:E. simpl in *.
  assert (FIFOCache.get (message_cache (eng st')) origid = None) as Hgone
    by (rewrite He; apply get_delitem_eq).
  assert (FIFOCache.get (wmessages (eng st')) (msg_id other) = Some origid) as Hstill
    by (by rewrite He).
  split_and!.
  - apply on_message_delete_absent. right. by exists origid.
  - intros emoji count user. apply on_reaction_add_absent. right. by exists origid.
  - intros before after <-. by apply on_message_edit_absent.
Qed.


End Correlating.

(** * Facts about the commands *)

Section CommandFacts.
Context {W : Type} `{Platform W} `{SetOrder} `{Store W} `{Externals}.
Implicit Types (st : St (AW W)).

Lemma admin_call_run {X} c (op : W → Res X * W) st :
  admin_call c op st =
  ((op (world st).1).1,
   mkSt (eng st) ((op (world st).1).2, (world st).2 ++ [c]) (log st)).
Proof. unfold admin_call. by destruct (op (world st).1). Qed.

Lemma lifted_call_run {X} c (op : W → Res X * W) st :
  call c (on_world op) st =
  ((op (world st).1).1,
   mkSt (eng st) ((op (world st).1).2, (world st).2)
        (log st ++ [{| entry_call := c; entry_ok := is_Ok (op (world st).1).1 |}])).
Proof. rewrite call_run. unfold on_world. by destruct (op (world st).1). Qed.

(** The listeners' side of the cog never adds to the calls of the
    commands. *)
Lemma fetch_webhook_for_admin_log channelid st :
  (world (fetch_webhook_for channelid st).2).2 = (world st).2.
Proof.
  unfold fetch_webhook_for, bind, get_engine. simpl.
  destruct (hooks (eng st) !! channelid); [done|].
  rewrite lifted_call_run.
  destruct (linkhook_fetch channelid (world st).1) as [[[row|]|e] w1]; simpl;
    [done| |done].
  unfold get_world. simpl.
  destruct (bot_get_channel channelid w1) as [channel|]; [|done].
  rewrite lifted_call_run. simpl.
  destruct (channel_create_webhook channel "LabRat Channel Link" w1)
    as [[hook|e] w2]; simpl; [|done].
  rewrite lifted_call_run. simpl.
  by destruct (linkhook_create channelid (hook_id hook) (hook_token hook) w2)
    as [[[]|e] w3].
Qed.

Lemma fetch_loop_admin_log channelids st :
  (world (foldM (λ _ channelid, fetch_webhook_for channelid >> ret tt)
            tt channelids st).2).2 = (world st).2.
Proof.
  apply (foldM_frame (λ st', (world st').2 = (world st).2)); [|done].
  intros [] channelid st1 <-. unfold bind.
  pose proof (fetch_webhook_for_admin_log channelid st1) as Hl.
  by destruct (fetch_webhook_for channelid st1) as [[hook|e] st2].
Qed.

Lemma reload_links_admin_log st :
  (world (reload_links st).2).2 = (world st).2.
Proof.
  unfold reload_links. unfold bind at 1.
  change (select_channel_links (W:=AW W)) with (on_world (W:=W) select_channel_links).
  rewrite lifted_call_run.
  destruct (select_channel_links (world st).1) as [[records|e0] w1]; simpl; [|done].
  set (channelids := keys_in_order (channelid <$> records)).
  match goal with |- context [mkSt (eng st) ?w ?l] => set (st1 := mkSt (eng st) w l) end.
  unfold bind at 1.
  assert (∀ r st2,
            (if truthy_list channelids
             then call (CallFetchHooks channelids) (linkhook_fetch_where channelids)
             else ret tt) st1 = (r, st2) → (world st2).2 = (world st).2) as Hfetch.
  { destruct (truthy_list channelids).
    - intros r st2.
      change (linkhook_fetch_where channelids)
        with (on_world (W:=W) (linkhook_fetch_where channelids)).
      rewrite lifted_call_run. by intros [= _ <-].
    - by intros r st2 [= _ <-]. }
  match goal with |- context [(if truthy_list channelids then ?a else ?b) st1] =>
    destruct ((if truthy_list channelids then a else b) st1) as [[[]|e1] st2] eqn:E2
  end; specialize (Hfetch _ _ E2); [|done].
  unfold bind at 1.
  pose proof (fetch_loop_admin_log channelids st2) as Hloop.
  destruct (foldM _ tt channelids st2) as [[[]|e2] st3]; simpl in *; congruence.
Qed.

(** X17.  [cog_load] first initialises the tables and, only if that
    succeeded, reloads the link index: when the initialisation fails
    nothing is fetched and the cog's state is untouched, and when
    [cog_load] returns normally the link index is consistent and the
    two correlation caches are as they were. *)
Theorem cog_load_builds_the_index st :
  (∀ e w', data_init (world st).1 = (Raise e, w') →
           cog_load st = (Raise e, mkSt (eng st) (w', (world st).2 ++ [DataInit]) (log st))) ∧
  (∀ st', cog_load st = (Ok tt, st') →
          index_ok (eng st') ∧
          message_cache (eng st') = message_cache (eng st) ∧
          wmessages (eng st') = wmessages (eng st)).
Proof.
  split.
  - intros e w' Hinit. unfold cog_load, bind. by rewrite admin_call_run, Hinit.
  - intros st'. unfold cog_load, bind. rewrite admin_call_run.
    destruct (data_init (world st).1) as [[[]|e] w1]; simpl; [|done].
    intros Hrun.
    match type of Hrun with @reload_links ?W' ?P ?O ?st1 = _ =>
      pose proof (@reload_links_frame W' P O st1) as Hframe end.
    rewrite Hrun in Hframe. destruct Hframe as (Hmc & Hwm & _).
    simpl in *.
    apply reload_links_built in Hrun as (? & ? & _ & _ & _ & Hok). done.
Qed.

(** X18.  [linker webhook] caches the webhook only once its row has
    been written.  An invalid URL raises [ValueError] before anything
    is read or written; when reading or writing the row fails, the
    cog's state is untouched; otherwise, even if the reply then fails,
    the webhook replaces the cached one of that channel and of no
    other, and [fetch_webhook_for] returns it from then on.  A row
    that exists is updated, a missing row is created. *)
Theorem linker_webhook_caches_after_writing ctx channel webhook st :
  ctx_interaction ctx = true →
  (webhook_from_url webhook = None →
   linker_webhook ctx channel webhook st = (Raise ValueError, st)) ∧
  (∀ hook r st',
     webhook_from_url webhook = Some hook →
     linker_webhook ctx channel webhook st = (r, st') →
     (∀ e w1,
        linkhook_fetch channel (world st).1 = (Raise e, w1) →
        r = Raise e ∧ eng st' = eng st) ∧
     (∀ existing w1 e w2,
        linkhook_fetch channel (world st).1 = (Ok existing, w1) →
        match existing with
        | Some _ => linkhook_row_update channel (hook_id hook) (hook_token hook) w1
        | None => linkhook_create channel (hook_id hook) (hook_token hook) w1
        end = (Raise e, w2) →
        r = Raise e ∧ eng st' = eng st) ∧
     (∀ existing w1 w2,
        linkhook_fetch channel (world st).1 = (Ok existing, w1) →
        match existing with
        | Some _ => linkhook_row_update channel (hook_id hook) (hook_token hook) w1
        | None => linkhook_create channel (hook_id hook) (hook_token hook) w1
        end = (Ok tt, w2) →
        eng st' = set_hooks (<[channel := hook]> (hooks (eng st))) (eng st) ∧
        fetch_webhook_for channel st' = (Ok hook, st') ∧
        (r = Ok Replied ∨
         ∃ e text w3, ctx_reply text w2 = (Raise e, w3) ∧ r = Raise e))).
Proof.
  intros Hctx. unfold linker_webhook. rewrite Hctx. simpl. split.
  { by intros ->. }
  intros hook r st' ->. unfold bind at 1.
  change (linkhook_fetch (W:=AW W) channel) with (on_world (W:=W) (linkhook_fetch channel)).
  rewrite lifted_call_run.
  destruct (linkhook_fetch channel (world st).1) as [[existing|e] w1] eqn:Efetch; simpl.
  2: { intros [= <- <-]. split_and!.
       - by intros e' w1' [= <- <-].
       - by intros existing' w1' e' w2' [=].
       - by intros existing' w1' w2' [=]. }
  assert (∀ st2 : St (AW W),
            hooks (eng st2) !! channel = Some hook →
            fetch_webhook_for channel st2 = (Ok hook, st2)) as Hhit.
  { intros st2 Hh. unfold fetch_webhook_for, bind, get_engine. simpl. by rewrite Hh. }
  destruct existing as [row|].
  - unfold bind at 1. rewrite admin_call_run. simpl.
    destruct (linkhook_row_update channel (hook_id hook) (hook_token hook) w1)
      as [[[]|e] w2] eqn:Eup; simpl.
    2: { intros [= <- <-]. split_and!.
         - by intros e' w1' [=].
         - intros existing' w1' e' w2' [= <- <-] Hw. rewrite Eup in Hw.
           by injection Hw as <- _.
         - intros existing' w1' w2' [= <- <-] Hw. rewrite Eup in Hw. discriminate. }
    unfold bind, hooks_setitem, modify_engine. simpl. rewrite admin_call_run. simpl.
    intros Hrun.
    assert (eng st' = set_hooks (<[channel := hook]> (hooks (eng st))) (eng st)) as He
      by (destruct (ctx_reply _ w2) as [[[]|e] w3]; by injection Hrun as _ <-).
    split_and!.
    + by intros e' w1' [=].
    + intros existing' w1' e' w2' [= <- <-] Hw. rewrite Eup in Hw. discriminate.
    + intros existing' w1' w2' [= <- <-] Hw. rewrite Eup in Hw. injection Hw as <-.
      split_and!; [done | apply Hhit; rewrite He; simpl; apply lookup_insert_eq |].
      destruct (ctx_reply _ w2) as [[[]|e] w3] eqn:Ereply; injection Hrun as <- _;
        [by left|].
      right. by eexists _, _, _.
  - unfold bind at 1.
    change (linkhook_create (W:=AW W) channel (hook_id hook) (hook_token hook))
      with (on_world (W:=W) (linkhook_create channel (hook_id hook) (hook_token hook))).
    rewrite lifted_call_run. simpl.
    destruct (linkhook_create channel (hook_id hook) (hook_token hook) w1)
      as [[[]|e] w2] eqn:Ecr; simpl.
    2: { intros [= <- <-]. split_and!.
         - by intros e' w1' [=].
         - intros existing' w1' e' w2' [= <- <-] Hw. rewrite Ecr in Hw.
           by injection Hw as <- _.
         - intros existing' w1' w2' [= <- <-] Hw. rewrite Ecr in Hw. discriminate. }
    unfold bind, hooks_setitem, modify_engine. simpl. rewrite admin_call_run. simpl.
    intros Hrun.
    assert (eng st' = set_hooks (<[channel := hook]> (hooks (eng st))) (eng st)) as He
      by (destruct (ctx_reply _ w2) as [[[]|e] w3]; by injection Hrun as _ <-).
    split_and!.
    + by intros e' w1' [=].
    + intros existing' w1' e' w2' [= <- <-] Hw. rewrite Ecr in Hw. discriminate.
    + intros existing' w1' w2' [= <- <-] Hw. rewrite Ecr in Hw. injection Hw as <-.
      split_and!; [done | apply Hhit; rewrite He; simpl; apply lookup_insert_eq |].
      destruct (ctx_reply _ w2) as [[[]|e] w3] eqn:Ereply; injection Hrun as <- _;
        [by left|].
      right. by eexists _, _, _.
Qed.

Lemma removals_snoc l c :
  removals (l ++ [c]) =
  removals l ++ match c with
                | DeleteMember _ _ | DeleteLink _ => [c]
                | _ => []
                end.
Proof. unfold removals. rewrite omap_app. f_equal. by destruct c. Qed.

Lemma insertions_snoc l c :
  insertions (l ++ [c]) =
  insertions l ++ match c with InsertMember link channel => [(link, channel)] | _ => [] end.
Proof. unfold insertions. rewrite omap_app. f_equal. by destruct c. Qed.

(** The end of [linker unlink] once a row was deleted: the reload and
    the reply. *)
Lemma unlink_tail embed st r st' :
  (reload_links >> admin_call (SendReply embed) (ctx_reply embed) >> ret Replied) st
  = (r, st') →
  removals (world st').2 = removals (world st).2 ∧
  (∀ ended, r = Ok ended → ended = Replied ∧ index_ok (eng st')).
Proof.
  unfold bind at 1.
  pose proof (reload_links_admin_log st) as Hlog.
  destruct (reload_links st) as [[[]|e] st1] eqn:Erel; simpl in Hlog.
  - apply reload_links_built in Erel as (? & ? & _ & _ & _ & Hok).
    unfold bind. rewrite admin_call_run. simpl.
    destruct (ctx_reply embed (world st1).1) as [[[]|e] w2]; simpl;
      intros [= <- <-]; simpl; rewrite removals_snoc, app_nil_r, Hlog;
      (split; [done|]); [by intros ? [= <-] | done].
  - intros [= <- <-]. by rewrite Hlog.
Qed.

(** X19.  [linker unlink] deletes at most one row, and only when it is
    allowed to: the membership of a channel only if the link exists and
    the in-memory index lists the channel in it, and the link itself
    only if the link exists and the confirmation was answered with
    yes.  When the command ends without a reply of its own (no
    interaction, unknown link, channel not in the link, confirmation
    refused or timed out) it has deleted nothing, has left the cog's
    state as it was and has made no call of the relay; when it replies,
    the link index has been rebuilt and is consistent. *)
Theorem linker_unlink_deletes_only_when_allowed ctx name channel st r st' :
  linker_unlink ctx name channel st = (r, st') →
  (removals (world st').2 = removals (world st).2 ∨
   ∃ existing w1 link_row,
     ctx_interaction ctx = true ∧
     link_fetch_where (world st).1 = (Ok existing, w1) ∧
     find_link existing name = Some link_row ∧
     match channel with
     | Some c =>
         removals (world st').2 =
           removals (world st).2 ++ [DeleteMember c (row_linkid link_row)] ∧
         listed (link_channels (eng st)) (row_linkid link_row) c
     | None =>
         removals (world st').2 = removals (world st).2 ++ [DeleteLink link_row] ∧
         ∃ prompt w2,
           confirm_ask prompt (ctx_author_id ctx) w1 = (Ok (Answered true), w2)
     end) ∧
  (∀ ended, r = Ok ended → ended ≠ Replied →
            removals (world st').2 = removals (world st).2 ∧
            eng st' = eng st ∧ log st' = log st) ∧
  (r = Ok Replied → index_ok (eng st')).
Proof.
  unfold linker_unlink. destruct (ctx_interaction ctx) eqn:Ectx; simpl.
  2: { intros [= <- <-]. split_and!; [by left | done | done]. }
  unfold bind at 1. rewrite admin_call_run.
  destruct (link_fetch_where (world st).1) as [[existing|e] w1] eqn:Efetch; simpl.
  2: { intros [= <- <-]. simpl. rewrite removals_snoc, app_nil_r.
       split_and!; [by left | done | done]. }
  destruct (find_link existing name) as [link_row|] eqn:Efind.
  2: { intros [= <- <-]. simpl. rewrite removals_snoc, app_nil_r.
       split_and!; [by left | done | done]. }
  unfold bind at 1, get_engine. simpl.
  destruct channel as [c|].
  - case_decide as Hmem.
    { unfold bind, ret. intros [= <- <-]. simpl. rewrite removals_snoc, app_nil_r.
      split_and!; [by left | done | done]. }
    unfold bind at 1 2. rewrite admin_call_run. simpl.
    assert (listed (link_channels (eng st)) (row_linkid link_row) c) as Hlisted.
    { destruct (decide (c ∈ default [] (link_channels (eng st) !! row_linkid link_row)))
        as [Hin|]; [|done].
      destruct (link_channels (eng st) !! row_linkid link_row) as [cs|] eqn:Ecs;
        [by exists cs | by apply elem_of_nil in Hin]. }
    destruct (channel_links_delete_where c (row_linkid link_row) w1) as [[[]|e] w2]; simpl.
    + intros [Hrem Hend]%unlink_tail. simpl in Hrem.
      rewrite !removals_snoc, app_nil_r in Hrem. split_and!.
      * right. by exists existing, w1, link_row.
      * intros ended Hr Hne. by destruct (Hend ended Hr).
      * intros Hr. by destruct (Hend Replied Hr).
    + intros [= <- <-]. simpl. rewrite !removals_snoc, app_nil_r.
      split_and!; [|done|done]. right. by exists existing, w1, link_row.
  - unfold bind at 1 2. rewrite admin_call_run. simpl.
    match goal with |- context [confirm_ask ?p ?a w1] =>
      destruct (confirm_ask p a w1) as [[answer|e] w2] eqn:Eask end; simpl.
    2: { intros [= <- <-]. simpl. rewrite !removals_snoc, !app_nil_r.
         split_and!; [by left | done | done]. }
    destruct answer as [[]|]; simpl.
    + unfold bind at 1 2. rewrite admin_call_run. simpl.
      destruct (link_row_delete link_row w2) as [[[]|e] w3]; simpl.
      * intros [Hrem Hend]%unlink_tail. simpl in Hrem.
        rewrite !removals_snoc, !app_nil_r in Hrem. split_and!.
        -- right. exists existing, w1, link_row. split_and!; try done. eauto.
        -- intros ended Hr Hne. by destruct (Hend ended Hr).
        -- intros Hr. by destruct (Hend Replied Hr).
      * intros [= <- <-]. simpl. rewrite !removals_snoc, !app_nil_r.
        split_and!; [|done|done].
        right. exists existing, w1, link_row. split_and!; try done. eauto.
    + unfold bind, ret. intros [= <- <-]. simpl. rewrite !removals_snoc, !app_nil_r.
      split_and!; [by left | done | done].
    + unfold bind, ret. intros [= <- <-]. simpl. rewrite !removals_snoc, !app_nil_r.
      split_and!; [by left | done | done].
Qed.

(** The insertion loop of [linker link]: one insertion for each
    channel that is not yet a member, in order, until one fails. *)
Lemma insert_loop_run link (members : list Z) channels : ∀ st r st',
  foldM (λ _ channel,
           if decide (channel ∉ members)
           then admin_call (InsertMember link channel) (channel_links_insert link channel)
           else ret tt)
        tt channels st = (r, st') →
  eng st' = eng st ∧ log st' = log st ∧
  ∃ k, insertions (world st').2 =
         insertions (world st).2 ++
         ((λ c, (link, c)) <$> take k (filter (λ c, c ∉ members) channels)) ∧
       (∀ u, r = Ok u → k = length (filter (λ c, c ∉ members) channels)).
Proof.
  induction channels as [|c channels IH]; intros st r st'.
  - intros [= <- <-]. split_and!; [done..|]. exists 0%nat. by rewrite app_nil_r.
  - rewrite foldM_cons, filter_cons. case_decide.
    + rewrite admin_call_run.
      destruct (channel_links_insert link c (world st).1) as [[[]|e] w1]; simpl.
      * intros (He & Hl & k & Hins & Hk)%IH. simpl in *.
        split_and!; [done..|]. exists (S k). split.
        -- rewrite Hins, insertions_snoc. simpl. by rewrite <- app_assoc.
        -- intros u Hu. simpl. by rewrite (Hk u Hu).
      * intros [= <- <-]. simpl. split_and!; [done..|]. exists 1%nat. split; [|done].
        rewrite insertions_snoc. simpl. by rewrite ?take_0.
    + intros (He & Hl & k & Hins & Hk)%IH. split_and!; [done..|]. by exists k.
Qed.

(** The end of [linker link]: the reload, the embed and the reply. *)
Lemma link_tail (was_created : bool) name (link_row : LinkRow) (channels : list Z) st r st' :
  (reload_links >>
   let* embed :=
     if was_created then
       ret {| reply_colour := Some brand_green;
              reply_title := "Link Created";
              reply_description :=
                "Created the link **" +:+ name +:+ "** and linked channels:" +:+ newline
                +:+ String.concat ", " (mention <$> channels);
              reply_fields := [] |}
     else
       let* s := get_engine in
       let* channelids := getitem (link_channels s) (row_linkid link_row) in
       ret {| reply_colour := Some brand_green;
              reply_title := "Channels Linked";
              reply_description :=
                "Updated the link **" +:+ row_name link_row
                +:+ "** to link the following channels:" +:+ newline
                +:+ String.concat ", " (mention <$> channelids);
              reply_fields := [] |} in
   admin_call (SendReply embed) (ctx_reply embed) >>
   ret Replied) st = (r, st') →
  insertions (world st').2 = insertions (world st).2 ∧
  (∀ c h, hooks (eng st) !! c = Some h → hooks (eng st') !! c = Some h) ∧
  (∀ ended, r = Ok ended → ended = Replied ∧ index_ok (eng st')).
Proof.
  unfold bind at 1.
  pose proof (reload_links_admin_log st) as Hlog.
  pose proof (reload_links_frame st) as (_ & _ & Hgrow).
  destruct (reload_links st) as [[[]|e] st1] eqn:Erel; simpl in Hlog, Hgrow.
  2: { intros [= <- <-]. by rewrite Hlog. }
  apply reload_links_built in Erel as (? & ? & _ & _ & _ & Hok).
  unfold bind at 1.
  assert (∀ st2 r2,
            (if was_created
             then ret {| reply_colour := Some brand_green;
                         reply_title := "Link Created";
                         reply_description :=
                           "Created the link **" +:+ name +:+ "** and linked channels:"
                           +:+ newline +:+ String.concat ", " (mention <$> channels);
                         reply_fields := [] |}
             else
               let* s := get_engine in
               let* channelids := getitem (link_channels s) (row_linkid link_row) in
               ret {| reply_colour := Some brand_green;
                      reply_title := "Channels Linked";
                      reply_description :=
                        "Updated the link **" +:+ row_name link_row
                        +:+ "** to link the following channels:" +:+ newline
                        +:+ String.concat ", " (mention <$> channelids);
                      reply_fields := [] |}) st1 = (r2, st2) → st2 = st1) as Hpure.
  { intros st2 r2. destruct was_created; [by intros [= _ <-]|].
    unfold bind, get_engine, getitem. simpl.
    destruct (link_channels (eng st1) !! row_linkid link_row); by intros [= _ <-]. }
  match goal with |- match ?m st1 with _ => _ end = _ → _ =>
    assert (Hst : (m st1).2 = st1) by (apply (Hpure _ (m st1).1); by destruct (m st1));
    clear Hpure; destruct (m st1) as [[embed|e] st2] end; simpl in Hst; subst st2.
  2: { intros [= <- <-]. by rewrite Hlog. }
  unfold bind. rewrite admin_call_run. simpl.
  destruct (ctx_reply embed (world st1).1) as [[[]|e] w2]; simpl;
    intros [= <- <-]; simpl; rewrite insertions_snoc, app_nil_r, Hlog;
    (split_and!; [done | done |]); [by intros ? [= <-] | done].
Qed.

(** What [linker link] does once it has its link row. *)
Lemma link_body (was_created : bool) name (link_row : LinkRow) (members : list Z)
    channel1 channel2 channel3 channel4 channel5 channelid_text st r st' :
  (let maybe_channels := [channel1; channel2; channel3; channel4; channel5] in
   let* maybe_channels :=
     match channelid_text with
     | Some text =>
         if truthy_string text && str_isdigit text then
           let* n := lift_res (int_of_str text) in
           let* w := get_world in
           ret (maybe_channels ++ [bot_get_channel n w])
         else ret maybe_channels
     | None => ret maybe_channels
     end in
   let channels := omap id maybe_channels in
   foldM (λ _ channel, fetch_webhook_for channel >> ret tt) tt channels >>
   foldM (λ _ channel,
            if decide (channel ∉ members)
            then admin_call (InsertMember (row_linkid link_row) channel)
                   (channel_links_insert (row_linkid link_row) channel)
            else ret tt)
         tt channels >>
   reload_links >>
   let* embed :=
     if was_created then
       ret {| reply_colour := Some brand_green;
              reply_title := "Link Created";
              reply_description :=
                "Created the link **" +:+ name +:+ "** and linked channels:" +:+ newline
                +:+ String.concat ", " (mention <$> channels);
              reply_fields := [] |}
     else
       let* s := get_engine in
       let* channelids := getitem (link_channels s) (row_linkid link_row) in
       ret {| reply_colour := Some brand_green;
              reply_title := "Channels Linked";
              reply_description :=
                "Updated the link **" +:+ row_name link_row
                +:+ "** to link the following channels:" +:+ newline
                +:+ String.concat ", " (mention <$> channelids);
              reply_fields := [] |} in
   admin_call (SendReply embed) (ctx_reply embed) >>
   ret Replied) st = (r, st') →
  (insertions (world st').2 = insertions (world st).2 ∧ r ≠ Ok Replied) ∨
  ∃ channels k,
    channels = given_channels channel1 channel2 channel3 channel4 channel5 channelid_text
                 (world st).1 ∧
    insertions (world st').2 =
      insertions (world st).2 ++
      ((λ c, (row_linkid link_row, c)) <$> take k (filter (λ c, c ∉ members) channels)) ∧
    (∀ c, c ∈ channels → is_Some (hooks (eng st') !! c)) ∧
    (∀ ended, r = Ok ended →
              ended = Replied ∧
              k = length (filter (λ c, c ∉ members) channels) ∧
              index_ok (eng st')).
Proof.
  cbv zeta. unfold bind at 1.
  assert (∃ r0 st0,
            (match channelid_text with
             | Some text =>
                 if truthy_string text && str_isdigit text then
                   let* n := lift_res (int_of_str text) in
                   let* w := get_world in
                   ret ([channel1; channel2; channel3; channel4; channel5]
                        ++ [bot_get_channel n w])
                 else ret [channel1; channel2; channel3; channel4; channel5]
             | None => ret [channel1; channel2; channel3; channel4; channel5]
             end) st = (r0, st0) ∧ st0 = st ∧
            (∀ maybe, r0 = Ok maybe →
               omap id maybe =
               given_channels channel1 channel2 channel3 channel4 channel5 channelid_text
                 (world st).1)) as (r0 & st0 & -> & -> & Hpre).
  { unfold given_channels. destruct channelid_text as [text|].
    - destruct (truthy_string text && str_isdigit text).
      + unfold bind, lift_res, get_world, ret.
        destruct (int_of_str text) as [n|e]; eexists _, _; (split; [done|]);
          (split; [done|]); [|done].
        by intros maybe [= <-].
      + eexists _, _. split; [done|]. split; [done|]. by intros maybe [= <-].
    - eexists _, _. split; [done|]. split; [done|]. by intros maybe [= <-]. }
  destruct r0 as [maybe|e]; [|intros [= <- <-]; by left].
  specialize (Hpre maybe eq_refl).
  set (channels := omap id maybe) in *.
  unfold bind at 1.
  pose proof (fetch_loop_admin_log channels st) as Hlog1.
  pose proof (fetch_loop_provides channels st) as Hprov.
  destruct (foldM (λ _ channel, fetch_webhook_for channel >> ret tt) tt channels st)
    as [[[]|e] st1] eqn:Eprov; simpl in Hlog1; [|intros [= <- <-]; left; by rewrite Hlog1].
  specialize (Hprov st1 eq_refl).
  unfold bind at 1.
  match goal with |- match ?m st1 with _ => _ end = _ → _ =>
    destruct (m st1) as [r2 st2] eqn:Eins end.
  apply insert_loop_run in Eins as (He2 & _ & k & Hins & Hk).
  rewrite Hlog1 in Hins.
  destruct r2 as [[]|e].
  - intros (Htail & Hgrow & Hend)%link_tail. right. exists channels, k.
    split_and!; [done | by rewrite Htail | |].
    + intros c Hc. destruct (Hprov c Hc) as [h Hh]. exists h. apply Hgrow.
      by rewrite He2.
    + intros ended Hr. destruct (Hend ended Hr). split_and!; [done | by eapply Hk | done].
  - intros [= <- <-]. right. exists channels, k. split_and!; [done | done | | done].
    intros c Hc. rewrite He2. by apply Hprov.
Qed.

(** X20.  [linker link] provisions before it inserts: when it has
    inserted a membership row, every channel it was given has a cached
    webhook; the rows it inserts are, in the order given, the given
    channels that the table did not list for the link (none were
    listed for a link it has just created), all with the link's id;
    and it replies only after inserting all of them and rebuilding a
    consistent index.  The given channels are the five channel
    arguments that are present and, after them, the channel whose id
    the text names, when the text is all digits and the bot sees that
    channel; no other channel is provisioned or inserted. *)
Theorem linker_link_provisions_before_inserting ctx name
    channel1 channel2 channel3 channel4 channel5 channelid_text st r st' :
  linker_link ctx name channel1 channel2 channel3 channel4 channel5 channelid_text st
    = (r, st') →
  (insertions (world st').2 = insertions (world st).2 ∧ r ≠ Ok Replied) ∨
  ∃ w0 existing w1 link_row members w2 channels k,
    response_defer (world st).1 = (Ok tt, w0) ∧
    link_fetch_where w0 = (Ok existing, w1) ∧
    match find_link existing name with
    | Some row =>
        link_row = row ∧
        ∃ records,
          channel_links_select_where (row_linkid row) w1 = (Ok records, w2) ∧
          members = channelid <$> records
    | None =>
        members = [] ∧ link_create name w1 = (Ok link_row, w2)
    end ∧
    channels = given_channels channel1 channel2 channel3 channel4 channel5 channelid_text
                 w2 ∧
    insertions (world st').2 =
      insertions (world st).2 ++
      ((λ c, (row_linkid link_row, c)) <$> take k (filter (λ c, c ∉ members) channels)) ∧
    (∀ c, c ∈ channels → is_Some (hooks (eng st') !! c)) ∧
    (∀ ended, r = Ok ended →
              ended = Replied ∧
              k = length (filter (λ c, c ∉ members) channels) ∧
              index_ok (eng st')).
Proof.
  unfold linker_link. destruct (ctx_interaction ctx); simpl.
  2: { intros [= <- <-]. by left. }
  unfold bind at 1. rewrite admin_call_run.
  destruct (response_defer (world st).1) as [[[]|e] w0] eqn:Edefer; simpl.
  2: { intros [= <- <-]. left. simpl. by rewrite insertions_snoc, app_nil_r. }
  unfold bind at 1. rewrite admin_call_run. simpl.
  destruct (link_fetch_where w0) as [[existing|e] w1] eqn:Efetch; simpl.
  2: { intros [= <- <-]. left. simpl. by rewrite !insertions_snoc, !app_nil_r. }
  unfold bind at 1.
  destruct (find_link existing name) as [row|] eqn:Efind.
  - unfold bind at 1. rewrite admin_call_run. simpl.
    destruct (channel_links_select_where (row_linkid row) w1) as [[records|e] w2] eqn:Esel;
      simpl.
    2: { intros [= <- <-]. left. simpl. by rewrite !insertions_snoc, !app_nil_r. }
    intros Hbody.
    apply (link_body false name row (channelid <$> records) channel1 channel2 channel3
             channel4 channel5 channelid_text _ r st') in Hbody
      as [[Hsame Hr]|(channels & k & Hpre & Hins & Hhooks & Hend)];
      simpl in *; rewrite !insertions_snoc in *; simpl in *; rewrite !app_nil_r in *.
    + by left.
    + right. exists w0, existing, w1, row, (channelid <$> records), w2, channels, k.
      rewrite Efind. split_and!; try done. by exists records.
  - unfold bind at 1. rewrite admin_call_run. simpl.
    destruct (link_create name w1) as [[row|e] w2] eqn:Ecreate; simpl.
    2: { intros [= <- <-]. left. simpl. by rewrite !insertions_snoc, !app_nil_r. }
    intros Hbody.
    apply (link_body true name row [] channel1 channel2 channel3
             channel4 channel5 channelid_text _ r st') in Hbody
      as [[Hsame Hr]|(channels & k & Hpre & Hins & Hhooks & Hend)];
      simpl in *; rewrite !insertions_snoc in *; simpl in *; rewrite !app_nil_r in *.
    + by left.
    + right. exists w0, existing, w1, row, [], w2, channels, k.
      rewrite Efind. by split_and!.
Qed.

(** [str_in] is the substring test. *)
Lemma prefix_app (n h : string) :
  String.prefix n h = true ↔ ∃ post, h = n +:+ post.
Proof.
  revert h. induction n as [|a n IH]; intros h.
  - split; [by exists h|by destruct h].
  - destruct h as [|b h]; simpl; [split; [done|by intros [? ?]]|].
    destruct (Ascii.ascii_dec a b) as [->|Hab].
    + rewrite IH. split; intros [post Hpost]; exists post.
      * simpl. by rewrite Hpost.
      * simpl in Hpost. by injection Hpost.
    + split; [done|]. intros [post Hpost]. simpl in Hpost. by injection Hpost.
Qed.
Lemma str_in_app (n h : string) :
  str_in n h = true ↔ ∃ pre post, h = pre +:+ n +:+ post.
Proof.
  split.
  - induction h as [|a h IH].
    + change (str_in n "") with (String.prefix n "" || false). rewrite orb_false_r.
      intros [post ->]%prefix_app. by exists "", post.
    + change (str_in n (String a h)) with (String.prefix n (String a h) || str_in n h).
      intros [[post ->]%prefix_app|(pre & post & ->)%IH]%orb_true_iff.
      * by exists "", post.
      * by exists (String a pre), post.
  - intros (pre & post & ->). induction pre as [|a pre IH].
    + assert (String.prefix n (n +:+ post) = true) as Hp by (apply prefix_app; by exists post).
      change ("" +:+ n +:+ post) with (n +:+ post).
      remember (n +:+ post) as h eqn:Eh. clear Eh.
      destruct h as [|b t];
        [change (String.prefix n "" || false = true)
        |change (String.prefix n (String b t) || str_in n t = true)]; by rewrite Hp.
    + change (str_in n (String a pre +:+ n +:+ post))
        with (String.prefix n (String a (pre +:+ n +:+ post)) || str_in n (pre +:+ n +:+ post)).
      rewrite IH. apply orb_true_r.
Qed.

Lemma elem_of_matching_names existing partial name :
  name ∈ matching_names existing partial ↔
  ∃ row, row ∈ existing ∧ row_name row = name ∧
         ∃ pre post, str_lower (row_name row) = pre +:+ str_lower partial +:+ post.
Proof.
  unfold matching_names. rewrite list_elem_of_fmap. split.
  - intros (row & -> & [Hin Hrow]%list_elem_of_filter). exists row.
    split_and!; [done..|]. by apply str_in_app.
  - intros (row & Hrow & <- & Hin). exists row. split; [done|].
    apply list_elem_of_filter. split; [|done]. by apply str_in_app.
Qed.

Lemma acmpl_choices existing partial label choices :
  choices = (if negb (truthy_list (matching_names existing partial))
             then [{| choice_name := label; choice_value := partial |}]
             else link_choices (matching_names existing partial)) →
  choices ≠ [] ∧
  (∀ row, row ∈ existing →
          (∃ pre post, str_lower (row_name row) = pre +:+ str_lower partial +:+ post) →
          row_name row ∈ choice_value <$> choices) ∧
  (∀ value, value ∈ choice_value <$> choices →
            (∃ row, row ∈ existing ∧ row_name row = value ∧
                    ∃ pre post, str_lower (row_name row) = pre +:+ str_lower partial +:+ post) ∨
            (value = partial ∧ matching_names existing partial = [])).
Proof.
  intros ->.
  assert (choice_value <$> link_choices (matching_names existing partial)
          = matching_names existing partial) as Hvalues.
  { unfold link_choices. rewrite <- list_fmap_compose. apply list_fmap_id. }
  destruct (matching_names existing partial) as [|name names] eqn:Ematch; simpl.
  - split_and!; [done| |].
    + intros row Hrow Hsub.
      assert (row_name row ∈ matching_names existing partial) as Hin
        by (apply elem_of_matching_names; by exists row).
      rewrite Ematch in Hin. by apply elem_of_nil in Hin.
    + intros value ->%list_elem_of_singleton. by right.
  - split_and!; [done| |].
    + intros row Hrow Hsub. change (row_name row ∈ choice_value <$> link_choices (name :: names)).
      rewrite Hvalues, <- Ematch. apply elem_of_matching_names. by exists row.
    + intros value Hvalue. left.
      change (value ∈ choice_value <$> link_choices (name :: names)) in Hvalue.
      rewrite Hvalues, <- Ematch in Hvalue. by apply elem_of_matching_names.
Qed.

(** X21.  Both autocompletes offer the names of the links whose
    lower-cased name contains the lower-cased partial text, and
    nothing else; when no link matches they offer the partial text
    itself, so the list of choices is never empty.  They change neither
    the engine nor the log of platform calls. *)
Theorem autocomplete_offers_matching_names partial st choices st' :
  _acmpl_link_name partial st = (Ok choices, st') ∨
  _acmpl_unlink_name partial st = (Ok choices, st') →
  eng st' = eng st ∧ log st' = log st ∧
  choices ≠ [] ∧
  ∃ existing w1,
    link_fetch_where (world st).1 = (Ok existing, w1) ∧
    (∀ row, row ∈ existing →
            (∃ pre post, str_lower (row_name row) = pre +:+ str_lower partial +:+ post) →
            row_name row ∈ choice_value <$> choices) ∧
    (∀ value, value ∈ choice_value <$> choices →
              (∃ row, row ∈ existing ∧ row_name row = value ∧
                      ∃ pre post,
                        str_lower (row_name row) = pre +:+ str_lower partial +:+ post) ∨
              (value = partial ∧ matching_names existing partial = [])).
Proof.
  unfold _acmpl_link_name, _acmpl_unlink_name, bind. rewrite !admin_call_run.
  destruct (link_fetch_where (world st).1) as [[existing|e] w1]; simpl; [|by intros [|]].
  intros Hrun.
  assert (∃ label,
            choices = (if negb (truthy_list (matching_names existing partial))
                       then [{| choice_name := label; choice_value := partial |}]
                       else link_choices (matching_names existing partial)) ∧
            eng st' = eng st ∧ log st' = log st) as (label & Hchoices & He & Hl).
  { destruct Hrun as [Hrun|Hrun]; eexists;
      destruct (negb (truthy_list (matching_names existing partial)));
      injection Hrun as <- <-; done. }
  apply acmpl_choices in Hchoices as (Hne & Hall & Honly).
  split_and!; [done..|]. by exists existing, w1.
Qed.

(** X22.  The commands that only read: [linker links] and the two
    autocompletes leave the engine and the log of platform calls as
    they were, and issue no insertion and no deletion on the tables,
    whatever their outcome. *)
Theorem reading_commands_change_nothing ctx partial st :
  let unchanged st' :=
    eng st' = eng st ∧ log st' = log st ∧
    insertions (world st').2 = insertions (world st).2 ∧
    removals (world st').2 = removals (world st).2 in
  unchanged (linker_links ctx st).2 ∧
  unchanged (_acmpl_link_name partial st).2 ∧
  unchanged (_acmpl_unlink_name partial st).2.
Proof.
  intros unchanged. subst unchanged. simpl.
  unfold linker_links, _acmpl_link_name, _acmpl_unlink_name.
  split; [|split].
  - destruct (ctx_interaction ctx); simpl; [|done].
    unfold bind. rewrite admin_call_run.
    destruct (response_defer (world st).1) as [[[]|e] w0]; simpl;
      [|by rewrite insertions_snoc, removals_snoc, !app_nil_r].
    rewrite admin_call_run. simpl.
    destruct (link_fetch_where w0) as [[links|e] w1]; simpl;
      [|by rewrite !insertions_snoc, !removals_snoc, !app_nil_r].
    rewrite admin_call_run. simpl.
    match goal with |- context [ctx_reply ?embed w1] =>
      destruct (ctx_reply embed w1) as [[[]|e] w2] end; simpl;
      by rewrite !insertions_snoc, !removals_snoc, !app_nil_r.
  - unfold bind. rewrite admin_call_run.
    destruct (link_fetch_where (world st).1) as [[existing|e] w1]; simpl;
      [destruct (negb (truthy_list (matching_names existing partial))); simpl|];
      by rewrite !insertions_snoc, !removals_snoc, !app_nil_r.
  - unfold bind. rewrite admin_call_run.
    destruct (link_fetch_where (world st).1) as [[existing|e] w1]; simpl;
      [destruct (negb (truthy_list (matching_names existing partial))); simpl|];
      by rewrite !insertions_snoc, !removals_snoc, !app_nil_r.
Qed.

End CommandFacts.

(** * The listeners on concrete inputs *)

Import Sim Scenario.

Lemma sim_send_succeeds h p w : is_Ok (webhook_send h p w).1 = true.
Proof. done. Qed.

Lemma sim_to_file_raises a b w x :
  (attachment_to_file a b w).1 = Raise x → is_HTTPException x = true.
Proof. done. Qed.

Lemma sim_edit_raises m c e w x : (message_edit m c e w).1 = Raise x → x = NotFound.
Proof. simpl. destruct (exists_on w m); [done | by intros [= <-]]. Qed.

Lemma sim_delete_raises m w x : (message_delete m w).1 = Raise x → x = NotFound.
Proof. simpl. destruct (exists_on w m); [done | by intros [= <-]]. Qed.


Lemma init_caches_ok s :
  message_cache s = message_cache init → wmessages s = wmessages init →
  engine_ok s.
Proof.
  intros Hf Hr. split; rewrite ?Hf, ?Hr; [by apply create_ok; lia..|].
  intros o copies. simpl. done.
Qed.

(** ** New messages *)

(** C1, as stated, fails: with two links that both hold channels 1 and
    2, a message posted in channel 1 is posted to channel 2 twice. *)
Lemma shared_destination_gets_two_copies :
  posted (log (on_message hello (start twice quiet)).2) = [2; 2] ∧
  ¬ NoDup (posted (log (on_message hello (start twice quiet)).2)).
Proof.
  assert (posted (log (on_message hello (start twice quiet)).2) = [2; 2]) as ->
    by (by vm_compute).
  split; [done|]. intros Hnd. apply NoDup_cons in Hnd as [Hnd _].
  apply Hnd. left.
Qed.

Lemma on_message_posts_per_link_witness :
  (on_message hello (start twice quiet)).1 = Ok tt ∧
  posted (log (on_message hello (start twice quiet)).2) = [2; 2].
Proof.
  assert (default [] (channel_links twice !! 1) = [7; 8]) as Hlinks by (by vm_compute).
  assert (destinations twice 1 = [2; 2]) as Hdest by (by vm_compute).
  destruct (on_message_posts_per_link hello (start twice quiet)) as (Hr & Hl & _).
  - apply sim_send_succeeds.
  - apply sim_to_file_raises.
  - reflexivity.
  - intros l Hl. change (l ∈ default [] (channel_links twice !! 1)) in Hl.
    rewrite Hlinks in Hl.
    apply elem_of_cons in Hl as [->|[->|[]%elem_of_nil]%elem_of_cons];
      by vm_compute; eauto.
  - intros c Hc. change (c ∈ destinations twice 1) in Hc.
    rewrite Hdest in Hc.
    apply elem_of_cons in Hc as [->|[->|[]%elem_of_nil]%elem_of_cons];
      by vm_compute; eauto.
  - simpl. lia.
  - simpl. lia.
  - split; [exact Hr|]. rewrite Hl. simpl. by rewrite Hdest.
Defined.

(** C2.  With the link 7 of the channels 1, 2 and 3, a message posted
    in channel 1 while the webhook of channel 2 refuses the post: the
    listener raises, channel 3 is never tried, and nothing is
    recorded.  When it is the webhook of channel 3 that refuses, the
    listener raises as well: the copy posted to channel 2 is in the
    reverse index and no forward entry is recorded. *)
Theorem on_message_stops_at_first_refusal :
  let r := @on_message World (platform_rejecting [2]) hello (start study quiet) in
  let r' := @on_message World (platform_rejecting [3]) hello (start study quiet) in
  (r.1 = Raise HTTPException ∧
   attempted (log r.2) = [2] ∧
   posted (log r.2) = [] ∧
   eng r.2 = study) ∧
  (r'.1 = Raise HTTPException ∧
   attempted (log r'.2) = [2; 3] ∧
   posted (log r'.2) = [2] ∧
   FIFOCache.items (wmessages (eng r'.2)) = [(1000, 500)] ∧
   FIFOCache.items (message_cache (eng r'.2)) = []).
Proof. by vm_compute. Qed.

(** C5 on a copy that the relay itself posted. *)
Lemma on_message_ignores_webhook_messages_witness :
  on_message copyB mirrored = (Ok tt, mirrored).
Proof. apply on_message_ignores_webhook_messages. reflexivity. Defined.

(** ** Reactions *)



(** ** Deletions and edits *)

(** C7, as stated, fails: [hello] has been mirrored and is deleted,
    and the copy in channel 2 refuses its deletion with [Forbidden].
    The listener raises: the copy in channel 3 is never asked to go
    and is still there, and the forward entry is lost. *)
Lemma forbidden_delete_spares_the_other_copies :
  let r := @on_message_delete World Cases.stuck hello mirrored in
  FIFOCache.get (wmessages (eng mirrored)) 500 = Some 500 ∧
  FIFOCache.get (message_cache (eng mirrored)) 500
  = Some [(2, copyB); (3, copyC); (1, hello)] ∧
  r.1 = Raise Forbidden ∧
  deletions (log r.2) = [copyB] ∧
  exists_on (world r.2) copyC = true ∧
  FIFOCache.get (message_cache (eng r.2)) 500 = None.
Proof. by vm_compute. Qed.

Lemma on_message_delete_deletes_every_copy_witness :
  (on_message_delete copyB mirrored).1 = Ok tt ∧
  deletions (log (on_message_delete copyB mirrored).2) = [copyC; hello].
Proof.
  destruct (on_message_delete_deletes_every_copy copyB mirrored 500)
    as (Hr & _ & _ & _ & Hl & _).
  - apply sim_delete_raises.
  - reflexivity.
  - lia.
  - split; [exact Hr|]. rewrite Hl. by vm_compute.
Defined.

(** C8, as stated, fails: [hello] has been mirrored and is edited,
    and the copy in channel 2 refuses the edit with [Forbidden].  The
    listener raises: the copy in channel 3 is not edited, and the
    forward entry, removed before the loop, is not put back, neither
    under the old id nor under the new one. *)
Lemma forbidden_edit_loses_the_correlation :
  let r := @on_message_edit World Cases.frozen hello hello_world mirrored in
  FIFOCache.get (message_cache (eng mirrored)) 500
  = Some [(2, copyB); (3, copyC); (1, hello)] ∧
  r.1 = Raise Forbidden ∧
  edits (log r.2) = [(copyB, "hello world", [])] ∧
  FIFOCache.items (message_cache (eng r.2)) = [].
Proof. by vm_compute. Qed.

Lemma on_message_edit_moves_correlation_witness :
  ∃ new_sent,
    (on_message_edit hello hello_world mirrored_less).1 = Ok tt ∧
    new_sent = [(2, copy_of 1000 2 "hello world"); (1, hello)] ∧
    FIFOCache.get (message_cache (eng (on_message_edit hello hello_world mirrored_less).2)) 500
    = Some new_sent.
Proof.
  destruct (on_message_edit_moves_correlation hello hello_world mirrored_less
              [(2, copyB); (3, copyC); (1, hello)])
    as (new_sent & Hr & _ & _ & _ & Hget).
  - apply sim_edit_raises.
  - split; [|vm_compute; lia..]. vm_compute. apply NoDup_singleton.
  - reflexivity.
  - exists [(2, copy_of 1000 2 "hello world"); (1, hello)].
    split; [exact Hr|]. split; [reflexivity|]. by vm_compute.
Defined.

(** ** The two caches *)

(** C4, as stated, fails: [hello] is mirrored and then deleted; no
    entry was evicted, the reverse index still maps the copy 1000 to
    500, and the forward cache has no entry under 500. *)
Lemma reverse_entry_outlives_forward_entry :
  ∃ st',
    run [NewMessage hello; MessageDelete hello] (start study quiet) [] []
    = Some (st', [], [500]) ∧
    FIFOCache.get (wmessages (eng st')) 1000 = Some 500 ∧
    FIFOCache.get (message_cache (eng st')) 500 = None.
Proof. eexists. split_and!; by vm_compute. Qed.

Lemma reverse_index_has_forward_entry_witness :
  is_Some (FIFOCache.get (message_cache (eng story_end)) 500) ∨
  500 ∈ ([] : list Z) ∨ 500 ∈ [500].
Proof.
  apply (reverse_index_has_forward_entry story (start study quiet) story_end [] [500])
    with (k := 1000).
  - by apply init_caches_ok.
  - intros k o. by simpl.
  - repeat constructor.
  - by vm_compute.
  - by vm_compute.
Defined.

Lemma caches_evict_oldest_first_witness :
  ∃ c', FIFOCache.setitem full 3 "third" = Ok c' ∧
        FIFOCache.items c' = [(2, "second"); (3, "third")] ∧
        FIFOCache.get c' 1 = None.
Proof.
  destruct (caches_evict_oldest_first (W:=World)) as (_ & _ & Hevict & _).
  destruct (Hevict string full 3 "third" 1 "first" [(2, "second")])
    as (c' & Hset & _ & Hitems & Hgone & _).
  - split; [|simpl; lia..]. vm_compute.
    apply NoDup_cons. split; [|apply NoDup_singleton].
    by intros ?%list_elem_of_singleton.
  - reflexivity.
  - reflexivity.
  - vm_compute. by intros [?|[?|[]%elem_of_nil]%elem_of_cons]%elem_of_cons.
  - exists c'. by split_and!.
Defined.

(** ** Reloading *)

Lemma reload_links_failure_keeps_index_witness :
  (reload_links (start study offline)).1 = Raise StorageError ∧
  eng (reload_links (start study offline)).2 = study.
Proof.
  apply (proj1 (reload_links_failure_keeps_index (start study offline))
           StorageError offline).
  reflexivity.
Defined.

(** * The rest of the cog on concrete inputs *)

Import Cases.

(** ** Attachments *)

(** X2 on three attachments of which the second cannot be downloaded. *)
Lemma prepare_attachments_tries_each_once_witness :
  @prepare_attachments World flaky pictures (start study quiet) =
    (Ok [{| file_source := 10; file_spoiler := false |};
         {| file_source := 12; file_spoiler := false |}],
     mkSt study quiet
       [{| entry_call := CallToFile {| attachment_id := 10; is_spoiler := false |} false;
           entry_ok := true |};
        {| entry_call := CallToFile {| attachment_id := 11; is_spoiler := true |} true;
           entry_ok := false |};
        {| entry_call := CallToFile {| attachment_id := 12; is_spoiler := false |} false;
           entry_ok := true |}]).
Proof.
  destruct (@prepare_attachments_tries_each_once World flaky pictures (start study quiet))
    as (Hrun & _).
  - intros a b w x. simpl.
    repeat case_bool_decide; simpl; (done || by intros [= <-]).
  - rewrite Hrun. by vm_compute.
Defined.

(** X3 on three attachments: the first cannot be downloaded, the
    second cannot be read at all, the third is never asked for. *)
Lemma prepare_attachments_raises_other_errors_witness :
  @prepare_attachments World broken pictures (start study quiet) =
    (Raise ValueError,
     mkSt study quiet
       [{| entry_call := CallToFile {| attachment_id := 10; is_spoiler := false |} false;
           entry_ok := false |};
        {| entry_call := CallToFile {| attachment_id := 11; is_spoiler := true |} true;
           entry_ok := false |}]).
Proof.
  apply (@prepare_attachments_raises_other_errors World broken
           [{| attachment_id := 10; is_spoiler := false |}]
           {| attachment_id := 11; is_spoiler := true |}
           [{| attachment_id := 12; is_spoiler := false |}]
           (start study quiet) ValueError quiet).
  - intros r y Hr ->. vm_compute in Hr.
    apply list_elem_of_singleton in Hr. by injection Hr as ->.
  - reflexivity.
  - reflexivity.
Defined.

(** ** Webhooks *)

(** X4 on channel 4, which has a row in the table of webhooks. *)
Lemma fetch_webhook_for_caches_the_hook_witness :
  hooks (eng (fetch_webhook_for 4 (start study quiet)).2) !! 4 = Some (hook_of 4) ∧
  fetch_webhook_for 4 (fetch_webhook_for 4 (start study quiet)).2
  = (Ok (hook_of 4), (fetch_webhook_for 4 (start study quiet)).2).
Proof.
  destruct (fetch_webhook_for_caches_the_hook 4 (start study quiet) (hook_of 4)
              (fetch_webhook_for 4 (start study quiet)).2) as (Hcached & Hagain & _).
  - by vm_compute.
  - by split.
Defined.

(** X5 on channel 4 while the database is unreachable. *)
Lemma fetch_webhook_for_failure_keeps_state_witness :
  eng (fetch_webhook_for 4 (start study offline)).2 = study ∧
  hooks (eng (fetch_webhook_for 4 (start study offline)).2) !! 4 = None.
Proof.
  apply (fetch_webhook_for_failure_keeps_state 4 (start study offline) StorageError).
  by vm_compute.
Defined.

(** X6 on channel 4 when it has no row: a webhook is created for it. *)
Lemma fetch_webhook_for_creates_only_if_absent_witness :
  hooks study !! 4 = None ∧
  ∃ w1 channel,
    linkhook_fetch (Platform := bare) 4 quiet = (Ok None, w1) ∧
    bot_get_channel (Platform := bare) 4 w1 = Some channel ∧
    created (log (@fetch_webhook_for World bare 4 (start study quiet)).2) = [] ++ [channel].
Proof.
  destruct (@fetch_webhook_for_creates_only_if_absent World bare 4 (start study quiet))
    as (_ & _ & Hcreated).
  apply Hcreated. by vm_compute.
Defined.

(** ** The link index *)

(** X7 on the table [memberships]. *)
Lemma reload_links_builds_the_index_witness : index_ok (eng loaded).
Proof.
  destruct (reload_links_builds_the_index (start init campus) loaded)
    as (records & w1 & _ & _ & _ & Hok).
  - by vm_compute.
  - exact Hok.
Defined.

(** ** The listeners *)

(** X10 along [story]. *)
Lemma caches_stay_within_capacity_witness :
  cache_ok (message_cache (eng (run_all story (start study quiet)))) ∧
  cache_ok (wmessages (eng (run_all story (start study quiet)))).
Proof.
  destruct (caches_stay_within_capacity story (start study quiet)) as (Hf & Hr & _).
  - apply (ok_forward _ (init_caches_ok study eq_refl eq_refl)).
  - apply (ok_reverse _ (init_caches_ok study eq_refl eq_refl)).
  - by split.
Defined.


(** X12 on a message in the only channel of a link. *)
Lemma on_message_without_destination_witness :
  on_message (user_message 501 1 "alone") (start solo quiet) = (Ok tt, start solo quiet).
Proof.
  assert (default [] (channel_links solo !! 1) = [7]) as Hlinks by (by vm_compute).
  apply on_message_without_destination.
  - intros l Hl. change (l ∈ default [] (channel_links solo !! 1)) in Hl.
    rewrite Hlinks in Hl. apply list_elem_of_singleton in Hl as ->.
    by vm_compute; eauto.
  - by vm_compute.
Defined.

(** X13 on a message in channel 2, which is in both links of
    [memberships]. *)
Lemma on_message_fans_out_on_consistent_index_witness :
  (on_message (user_message 500 2 "hi") loaded).1 = Ok tt ∧
  posted (log (on_message (user_message 500 2 "hi") loaded).2) = [3; 1].
Proof.
  destruct (on_message_fans_out_on_consistent_index (user_message 500 2 "hi") loaded)
    as (Hr & Hposted & _).
  - destruct (reload_links_built (start init campus) loaded)
      as (records & w1 & _ & _ & _ & Hok); [by vm_compute | exact Hok].
  - apply sim_send_succeeds.
  - apply sim_to_file_raises.
  - reflexivity.
  - vm_compute. lia.
  - vm_compute. lia.
  - split; [exact Hr|]. rewrite Hposted. by vm_compute.
Defined.

(** X14 when the copy in channel 2 refuses the edit. *)
Lemma on_message_edit_failure_drops_correlation_witness :
  FIFOCache.get
    (message_cache (eng (@on_message_edit World frozen hello hello_world mirrored).2)) 500
  = None.
Proof.
  destruct (@on_message_edit_failure_drops_correlation World frozen hello hello_world
              mirrored Forbidden
              (@on_message_edit World frozen hello hello_world mirrored).2)
    as (Hgone & _).
  - by vm_compute.
  - exact Hgone.
Defined.

(** X15: the copy in channel 2 is deleted, then the message itself. *)
Lemma deletion_ends_the_correlation_witness :
  on_message_delete hello (on_message_delete copyB mirrored).2
  = (Ok tt, (on_message_delete copyB mirrored).2).
Proof.
  destruct (deletion_ends_the_correlation copyB hello mirrored 500) as (Hdelete & _).
  - reflexivity.
  - lia.
  - reflexivity.
  - exact Hdelete.
Defined.


(** ** The commands *)

(** X17 at the [office]. *)
Lemma cog_load_builds_the_index_witness :
  index_ok (eng opened) ∧
  message_cache (eng opened) = message_cache init ∧
  wmessages (eng opened) = wmessages init.
Proof.
  destruct (cog_load_builds_the_index closed) as (_ & Hloaded).
  apply (Hloaded opened). by vm_compute.
Defined.

(** X18: channel 4 is given a webhook by hand. *)
Lemma linker_webhook_caches_after_writing_witness :
  eng (linker_webhook moderator 4
         "https://discord.com/api/webhooks/123456789012345678/abcdefghijklmnopqrstuvwxyzABCDEFGHIJKLMNOPQRSTUVWXYZ0123456789-_" opened).2
  = set_hooks (<[4 := {| hook_id := 123456789012345678;
                         hook_token := "abcdefghijklmnopqrstuvwxyzABCDEFGHIJKLMNOPQRSTUVWXYZ0123456789-_" |}]>
                 (hooks (eng opened))) (eng opened) ∧
  fetch_webhook_for 4
    (linker_webhook moderator 4
       "https://discord.com/api/webhooks/123456789012345678/abcdefghijklmnopqrstuvwxyzABCDEFGHIJKLMNOPQRSTUVWXYZ0123456789-_" opened).2
  = (Ok {| hook_id := 123456789012345678;
           hook_token := "abcdefghijklmnopqrstuvwxyzABCDEFGHIJKLMNOPQRSTUVWXYZ0123456789-_" |},
     (linker_webhook moderator 4
        "https://discord.com/api/webhooks/123456789012345678/abcdefghijklmnopqrstuvwxyzABCDEFGHIJKLMNOPQRSTUVWXYZ0123456789-_" opened).2).
Proof.
  destruct (linker_webhook_caches_after_writing moderator 4
              "https://discord.com/api/webhooks/123456789012345678/abcdefghijklmnopqrstuvwxyzABCDEFGHIJKLMNOPQRSTUVWXYZ0123456789-_"
              opened eq_refl) as (_ & Hwritten).
  destruct (Hwritten
              {| hook_id := 123456789012345678;
                 hook_token := "abcdefghijklmnopqrstuvwxyzABCDEFGHIJKLMNOPQRSTUVWXYZ0123456789-_" |}
              (Ok Replied)
              (linker_webhook moderator 4
                 "https://discord.com/api/webhooks/123456789012345678/abcdefghijklmnopqrstuvwxyzABCDEFGHIJKLMNOPQRSTUVWXYZ0123456789-_" opened).2)
    as (_ & _ & Hcached).
  - by vm_compute.
  - by vm_compute.
  - destruct (Hcached None (world opened).1 (world opened).1) as (He & Hfetch & _).
    + by vm_compute.
    + by vm_compute.
    + by split.
Defined.

(** X19: channel 2 is taken out of the link "Study". *)
Lemma linker_unlink_deletes_only_when_allowed_witness :
  index_ok (eng (linker_unlink moderator "study" (Some 2) opened).2).
Proof.
  destruct (linker_unlink_deletes_only_when_allowed moderator "study" (Some 2) opened
              (Ok Replied) (linker_unlink moderator "study" (Some 2) opened).2)
    as (_ & _ & Hok).
  - by vm_compute.
  - by apply Hok.
Defined.

(** X20: the channels 3, 1 and, by its id, 4 are added to the link
    "Study", which has the channel 1 already. *)
Lemma linker_link_provisions_before_inserting_witness :
  index_ok
    (eng (linker_link moderator "study" (Some 3) None (Some 1) None None (Some "4")
            opened).2).
Proof.
  destruct (linker_link_provisions_before_inserting moderator "study"
              (Some 3) None (Some 1) None None (Some "4") opened (Ok Replied)
              (linker_link moderator "study" (Some 3) None (Some 1) None None (Some "4")
                 opened).2)
    as [[_ Hr]|(w0 & existing & w1 & row & members & w2 & channels & k
                & _ & _ & _ & _ & _ & _ & Hend)].
  - by vm_compute.
  - by destruct Hr.
  - by destruct (Hend Replied eq_refl) as (_ & _ & Hok).
Defined.

(** X21 on the partial name "ou", which only "Lounge" contains. *)
Lemma autocomplete_offers_matching_names_witness :
  ∃ existing w1,
    link_fetch_where (world opened).1 = (Ok existing, w1) ∧
    (∀ row, row ∈ existing →
            (∃ pre post, str_lower (row_name row) = pre +:+ str_lower "ou" +:+ post) →
            row_name row ∈
              choice_value <$> [{| choice_name := "Link Lounge"; choice_value := "Lounge" |}]) ∧
    (∀ value,
       value ∈ choice_value <$> [{| choice_name := "Link Lounge"; choice_value := "Lounge" |}] →
       (∃ row, row ∈ existing ∧ row_name row = value ∧
               ∃ pre post, str_lower (row_name row) = pre +:+ str_lower "ou" +:+ post) ∨
       (value = "ou" ∧ matching_names existing "ou" = [])).
Proof.
  destruct (autocomplete_offers_matching_names "ou" opened
              [{| choice_name := "Link Lounge"; choice_value := "Lounge" |}]
              (_acmpl_link_name "ou" opened).2) as (_ & _ & _ & Hoffered).
  - left. by vm_compute.
  - exact Hoffered.
Defined.
